(** * Package-Routing-System (WGUPS): a shallow embedding of src/main.py

    The program loads locations and packages, routes them with a fleet of
    trucks (greedy nearest-destination delivery) and answers status
    queries.  This file embeds the parts of main.py that decide the
    routing, the package directory and the query surface:

    - [ChainHashTable]: the chaining hash table (main.py, lines 24-113);
    - [Truck] and its methods (lines 116-333);
    - [route_packages] as a step function over a configuration
      (lines 575-605);
    - the status cascade and the package-id prompt of the query loop
      (lines 696-741).

    Numbers.  Distances are read from the CSV as strings and converted with
    [float] on use; they are modelled as the parsed values, exact
    rationals [Q].  Timestamps ([datetime] values of one day) are modelled
    as seconds since midnight, also in [Q]; a leg of [d] miles at [rate]
    miles per hour adds [timedelta(seconds = d / rate * 3600)].

    Exceptions.  An operation that raises in Python (attribute access on
    the [None] returned by a failed lookup, [IndexError], [KeyError],
    [ValueError] of [list.remove], [ZeroDivisionError]) returns [None]
    here: the program has no handler for any of them around the routing
    code, so the run stops there. *)

From Stdlib Require Import ZArith QArith Lqa Bool String.
From stdpp Require Import base list gmap.

Open Scope Z_scope.

(* ------------------------------------------------------------------ *)
(** ** Python helpers *)

(** [hash] of a Python [int]: the value modulo [2^61 - 1], with the sign
    of the argument, and [-1] replaced by [-2]. *)
Definition py_hash_modulus : Z := 2 ^ 61 - 1.

Definition py_hash_int (k : Z) : Z :=
  let h := if 0 <=? k then k mod py_hash_modulus
           else - ((- k) mod py_hash_modulus) in
  if h =? -1 then -2 else h.

(** [l[i]] on a Python list: negative indices count from the end;
    anything else out of range raises [IndexError]. *)
Definition py_index {A} (l : list A) (i : Z) : option A :=
  let n := Z.of_nat (length l) in
  if (0 <=? i) && (i <? n) then l !! Z.to_nat i
  else if (- n <=? i) && (i <? 0) then l !! Z.to_nat (n + i)
  else None.

(** [l.remove(x)]: drop the first occurrence of [x]. *)
Fixpoint remove_first (x : Z) (l : list Z) : list Z :=
  match l with
  | [] => []
  | y :: l' => if y =? x then l' else y :: remove_first x l'
  end.

(** [l.remove(x)] raises [ValueError] when [x] is absent. *)
Definition py_remove (x : Z) (l : list Z) : option (list Z) :=
  if bool_decide (x ∈ l) then Some (remove_first x l) else None.

(** [x < y] on floats and datetimes. *)
Definition Qltb (x y : Q) : bool := negb (Qle_bool y x).

(* ------------------------------------------------------------------ *)
(** ** ChainHashTable (main.py, lines 24-113) *)

Module ChainHashTable.
Section WithItem.
Context {V : Type}.

(** [__init__]: [initial_capacity] empty buckets. *)
Definition new_table (initial_capacity : nat) : list (list (Z * V)) :=
  replicate initial_capacity [].

(** [hash(key) % len(self.table)]; a table without buckets raises
    [ZeroDivisionError]. *)
Definition bucket_index (table : list (list (Z * V))) (key : Z) : option nat :=
  if Nat.eqb (length table) 0 then None
  else Some (Z.to_nat (py_hash_int key mod Z.of_nat (length table))).

(** The loop of [insert]: overwrite the first pair with this key, or
    append a new pair at the end of the bucket. *)
Fixpoint bucket_put (bucket_list : list (Z * V)) (key : Z) (item : V)
  : list (Z * V) :=
  match bucket_list with
  | [] => [(key, item)]
  | (k, v) :: rest =>
      if k =? key then (k, item) :: rest
      else (k, v) :: bucket_put rest key item
  end.

(** The loop of [search]: the item of the first pair with this key. *)
Fixpoint bucket_get (bucket_list : list (Z * V)) (key : Z) : option V :=
  match bucket_list with
  | [] => None
  | (k, v) :: rest => if k =? key then Some v else bucket_get rest key
  end.

Definition insert (table : list (list (Z * V))) (key : Z) (item : V)
  : option (list (list (Z * V))) :=
  bucket ← bucket_index table key;
  bucket_list ← table !! bucket;
  Some (<[bucket := bucket_put bucket_list key item]> table).

(** [search] returns the item, or Python's [None] (inner [None]). *)
Definition search (table : list (list (Z * V))) (key : Z) : option (option V) :=
  bucket ← bucket_index table key;
  bucket_list ← table !! bucket;
  Some (bucket_get bucket_list key).

(** A sequence of [insert] calls, in order. *)
Fixpoint insert_all (table : list (list (Z * V))) (kvs : list (Z * V))
  : option (list (list (Z * V))) :=
  match kvs with
  | [] => Some table
  | (k, v) :: rest => table' ← insert table k v; insert_all table' rest
  end.

(** Reference for the [put]/[get] contract: the item of the last pair
    with this key in a sequence of insertions. *)
Fixpoint last_inserted (kvs : list (Z * V)) (key : Z) : option V :=
  match kvs with
  | [] => None
  | (k, v) :: rest =>
      match last_inserted rest key with
      | Some x => Some x
      | None => if k =? key then Some v else None
      end
  end.

End WithItem.
End ChainHashTable.

(* ------------------------------------------------------------------ *)
(** ** Data model (main.py, classes [Package], [Location], [Truck]) *)

(** [Package] (lines 343-431).  The string fields ([address], [city],
    [state], [zip], [mass], [status]) are only printed and are left out;
    [loc_id] is the result of the address resolution of
    [load_package_data]. *)
Record Package := mkPackage {
  id : Z;
  group : Z;
  req_truck : Z;
  time_available : Q;
  time_pickup : Q;
  time_delivered : Q;
  deadline : Q;
  loc_id : Z
}.

Definition set_time_pickup (p : Package) (t : Q) : Package :=
  mkPackage (id p) (group p) (req_truck p) (time_available p) t
            (time_delivered p) (deadline p) (loc_id p).

Definition set_time_delivered (p : Package) (t : Q) : Package :=
  mkPackage (id p) (group p) (req_truck p) (time_available p) (time_pickup p)
            t (deadline p) (loc_id p).

(** [Location] (lines 452-484): [distances[j]] is the distance to the
    location at index [j]; name and address are left out. *)
Record Location := mkLocation {
  location_loc_id : Z;
  distances : list Q
}.

(** [Truck] (lines 116-168). *)
Record Truck := mkTruck {
  truck_id : Z;
  packages : list Z;
  distance_traveled : Q;
  location_id : Z;
  truck_time : Q;
  rate : Q
}.

Definition set_packages (tr : Truck) (l : list Z) : Truck :=
  mkTruck (truck_id tr) l (distance_traveled tr) (location_id tr)
          (truck_time tr) (rate tr).

(** [Truck.__init__]: empty, at the hub, 18 miles per hour. *)
Definition new_truck (tid : Z) (start : Q) : Truck :=
  mkTruck tid [] 0%Q 0 start 18%Q.

(** The module-level state read and written by the methods:
    [my_hash_packages] (the package directory, a [ChainHashTable] used as
    a map from package id to the mutable [Package] object; modelled as a
    [gmap], the object mutations as map updates), the two pending pools,
    [group_count_dictionary] and [locations]. *)
Record World := mkWorld {
  my_hash_packages : gmap Z Package;
  priority_packages : list Z;
  non_priority_packages : list Z;
  group_count_dictionary : gmap Z Z;
  locations : list Location
}.

Definition set_package (w : World) (k : Z) (p : Package) : World :=
  mkWorld (<[k := p]> (my_hash_packages w)) (priority_packages w)
          (non_priority_packages w) (group_count_dictionary w) (locations w).

Definition set_pools (w : World) (prio non_prio : list Z) : World :=
  mkWorld (my_hash_packages w) prio non_prio
          (group_count_dictionary w) (locations w).

(** [my_hash_packages.search(k)] followed by an attribute access: a
    missing package raises [AttributeError]. *)
Definition lookup_package (w : World) (k : Z) : option Package :=
  my_hash_packages w !! k.

(** [float(locations[i].distances[j])]. *)
Definition distance_between (w : World) (i j : Z) : option Q :=
  loc ← py_index (locations w) i;
  py_index (distances loc) j.

(* ------------------------------------------------------------------ *)
(** ** Truck methods (lines 170-333) *)

(** [load_package] (lines 268-289). *)
Definition load_package (tr : Truck) (w : World) (package_id : Z)
  : option (Truck * World) :=
  loaded_package ← lookup_package w package_id;
  Some (set_packages tr (packages tr ++ [package_id]),
        set_package w package_id
          (set_time_pickup loaded_package (truck_time tr))).

(** The inner loop of the group branch of [load_truck] (lines 204-207):
    load every package of the priority list with this group. *)
Fixpoint load_group (group_id : Z) (tr : Truck) (w : World) (l : list Z)
  : option (Truck * World) :=
  match l with
  | [] => Some (tr, w)
  | pack_id :: rest =>
      package_with_group ← lookup_package w pack_id;
      if group package_with_group =? group_id then
        '(tr1, w1) ← load_package tr w pack_id;
        load_group group_id tr1 w1 rest
      else load_group group_id tr w rest
  end.

(** One iteration of the priority loop of [load_truck] (lines 194-207),
    after the capacity test. *)
Definition load_priority_one (priority_packages_list : list Z)
    (tr : Truck) (w : World) (p_id : Z) : option (Truck * World) :=
  if bool_decide (p_id ∈ packages tr) then Some (tr, w) else
  package ← lookup_package w p_id;
  if (req_truck package =? truck_id tr) || (req_truck package =? 0) then
    if Qle_bool (time_available package) (truck_time tr) then
      if group package =? 0 then load_package tr w p_id
      else
        count ← group_count_dictionary w !! group package;
        if Z.of_nat (length (packages tr)) + count <=? 16 then
          load_group (group package) tr w priority_packages_list
        else Some (tr, w)
    else Some (tr, w)
  else Some (tr, w).

(** The priority loop (lines 191-207) with its [break] on a full truck. *)
Fixpoint load_priority_loop (priority_packages_list : list Z)
    (tr : Truck) (w : World) (l : list Z) : option (Truck * World) :=
  match l with
  | [] => Some (tr, w)
  | p_id :: rest =>
      if Nat.eqb (length (packages tr)) 16 then Some (tr, w)
      else
        '(tr1, w1) ← load_priority_one priority_packages_list tr w p_id;
        load_priority_loop priority_packages_list tr1 w1 rest
  end.

(** The non-priority loop (lines 208-213). *)
Fixpoint load_non_priority_loop (tr : Truck) (w : World) (l : list Z)
  : option (Truck * World) :=
  match l with
  | [] => Some (tr, w)
  | p_id :: rest =>
      if Nat.eqb (length (packages tr)) 16 then Some (tr, w)
      else
        package ← lookup_package w p_id;
        if Qle_bool (time_available package) (truck_time tr) then
          '(tr1, w1) ← load_package tr w (id package);
          load_non_priority_loop tr1 w1 rest
        else load_non_priority_loop tr w rest
  end.

(** [load_truck] (lines 170-213), called with the two global pools. *)
Definition load_truck (tr : Truck) (w : World) : option (Truck * World) :=
  '(tr1, w1) ← load_priority_loop (priority_packages w) tr w
                 (priority_packages w);
  load_non_priority_loop tr1 w1 (non_priority_packages w).

(** The loop of [find_shortest_distance] (lines 233-238). *)
Fixpoint find_shortest_loop (tr : Truck) (w : World) (l : list Z)
    (min_distance : Q) (package_id : Z) : option Z :=
  match l with
  | [] => Some package_id
  | package :: rest =>
      p ← lookup_package w package;
      package_distance ← distance_between w (location_id tr) (loc_id p);
      if Qltb package_distance min_distance
      then find_shortest_loop tr w rest package_distance package
      else find_shortest_loop tr w rest min_distance package_id
  end.

(** [find_shortest_distance] (lines 215-239): starts from
    [min_distance = 100] and [package_id = -1]. *)
Definition find_shortest_distance (tr : Truck) (w : World) : option Z :=
  find_shortest_loop tr w (packages tr) 100%Q (-1).

(** Moving the truck over a leg of [distance] to [dest]
    (lines 263-266 and 330-333). *)
Definition travel (tr : Truck) (distance : Q) (dest : Z) : Truck :=
  let time_traveled := (distance / rate tr * 3600)%Q in
  mkTruck (truck_id tr) (packages tr)
          (distance_traveled tr + distance)%Q dest
          (truck_time tr + time_traveled)%Q (rate tr).

(** [increment_time_and_distance] (lines 241-266). *)
Definition increment_time_and_distance (tr : Truck) (w : World)
    (package_id : Z) : option Truck :=
  package ← lookup_package w package_id;
  let package_location := loc_id package in
  distance ← distance_between w (location_id tr) package_location;
  Some (travel tr distance package_location).

(** [deliver_package] (lines 291-313): the delivered time is written
    first, then the truck moves, then the id leaves the manifest. *)
Definition deliver_package (tr : Truck) (w : World) (package_id : Z)
  : option (Truck * World) :=
  delivered_package ← lookup_package w package_id;
  let w1 := set_package w package_id
              (set_time_delivered delivered_package (truck_time tr)) in
  tr1 ← increment_time_and_distance tr w1 package_id;
  rest ← py_remove package_id (packages tr1);
  Some (set_packages tr1 rest, w1).

(** [return_to_hub] (lines 315-333). *)
Definition return_to_hub (tr : Truck) (w : World) : option Truck :=
  distance ← distance_between w (location_id tr) 0;
  Some (travel tr distance 0).

(* ------------------------------------------------------------------ *)
(** ** [route_packages] (lines 575-605)

    The nested loops
<<
    while priority_packages or non_priority_packages:
        for truck in trucks:
            truck.load_truck(priority_packages, non_priority_packages)
            while truck.packages:
                deliver_package = truck.find_shortest_distance()
                (remove it from the pool that holds it)
                truck.deliver_package(deliver_package)
            truck.return_to_hub()
>>
    run as a machine: a configuration holds the globals, the trucks
    already handled in the current pass of the [for] loop, the position
    in the loops and the trucks still to handle.  [run_step] performs one
    statement group: the [while] test, one [load_truck], one iteration of
    the inner [while], or the [return_to_hub] that ends a truck. *)

Inductive Phase :=
| OuterTest                (** at the test of the outer [while] *)
| NextTruck                (** at the head of the [for] loop *)
| Draining (tr : Truck)    (** in the inner [while] with this truck *)
| Finished.                (** [route_packages] has returned *)

Record Config := mkConfig {
  cfg_world : World;
  cfg_done : list Truck;
  cfg_phase : Phase;
  cfg_todo : list Truck
}.

(** Lines 600-603. *)
Definition remove_from_pools (w : World) (x : Z) : World :=
  if bool_decide (x ∈ priority_packages w) then
    set_pools w (remove_first x (priority_packages w)) (non_priority_packages w)
  else if bool_decide (x ∈ non_priority_packages w) then
    set_pools w (priority_packages w) (remove_first x (non_priority_packages w))
  else w.

Definition pools_empty (w : World) : bool :=
  match priority_packages w, non_priority_packages w with
  | [], [] => true
  | _, _ => false
  end.

Definition run_step (c : Config) : option Config :=
  let w := cfg_world c in
  match cfg_phase c with
  | OuterTest =>
      if pools_empty w then Some (mkConfig w (cfg_done c) Finished [])
      else Some (mkConfig w [] NextTruck (cfg_done c))
  | NextTruck =>
      match cfg_todo c with
      | [] => Some (mkConfig w (cfg_done c) OuterTest [])
      | tr :: rest =>
          '(tr1, w1) ← load_truck tr w;
          Some (mkConfig w1 (cfg_done c) (Draining tr1) rest)
      end
  | Draining tr =>
      match packages tr with
      | [] =>
          tr1 ← return_to_hub tr w;
          Some (mkConfig w (cfg_done c ++ [tr1]) NextTruck (cfg_todo c))
      | _ :: _ =>
          x ← find_shortest_distance tr w;
          '(tr1, w1) ← deliver_package tr (remove_from_pools w x) x;
          Some (mkConfig w1 (cfg_done c) (Draining tr1) (cfg_todo c))
      end
  | Finished => None
  end.

(** The call [route_packages(trucks)]. *)
Definition route_start (w : World) (trucks : list Truck) : Config :=
  mkConfig w trucks OuterTest [].

(** The configurations a run passes through. *)
Definition run_reaches : Config → Config → Prop :=
  rtc (λ c c', run_step c = Some c').

(** [n] steps of the machine, executable. *)
Fixpoint run_steps (n : nat) (c : Config) : option Config :=
  match n with
  | O => Some c
  | S n' => c1 ← run_step c; run_steps n' c1
  end.

(* ------------------------------------------------------------------ *)
(** ** The query surface (lines 336-340 and 696-741) *)

Definition UNAVAILABLE : string := "Package Unavailable".
Definition DEPOT : string := "In Depot".
Definition EN_ROUTE : string := "En Route".
Definition DELIVERED : string := "Delivered".

(** The [if/elif/else] cascade that prints a package's status at
    [user_time] (lines 709-716 and 729-736). *)
Definition package_status (user_time : Q) (package : Package) : string :=
  if Qltb user_time (time_available package) then UNAVAILABLE
  else if Qltb user_time (time_pickup package) then DEPOT
  else if Qltb user_time (time_delivered package) then EN_ROUTE
  else DELIVERED.

(** The package-id prompt of option 2 (lines 719-724): the loop runs
    while the current value is out of its range; each answer is an
    integer ([Some n]) or a line [int] rejects ([None]: [ValueError] is
    caught and the previous value kept).  Running out of answers
    is [None]. *)
Fixpoint package_id_prompt (num_packages user_package_id : Z)
    (answers : list (option Z)) : option Z :=
  if (user_package_id <? 1) || (num_packages + 1 <? user_package_id) then
    match answers with
    | [] => None
    | a :: rest =>
        let next := match a with Some n => n | None => user_package_id end in
        package_id_prompt num_packages next rest
    end
  else Some user_package_id.

(** The prompt as the query loop starts it, with [user_package_id = 0]. *)
Definition read_package_id (num_packages : Z) (answers : list (option Z))
  : option Z :=
  package_id_prompt num_packages 0 answers.

(* ------------------------------------------------------------------ *)
(** ** Predicates used by the statements *)

(** Every entry of the distance table is non-negative. *)
Definition nonneg_distances (w : World) : Prop :=
  ∀ loc, loc ∈ locations w → ∀ d, d ∈ distances loc → (0 <= d)%Q.

(** The loading methods leave everything but the manifest of the truck
    as it was. *)
Definition same_position (tr tr' : Truck) : Prop :=
  truck_id tr' = truck_id tr ∧ distance_traveled tr' = distance_traveled tr ∧
  location_id tr' = location_id tr ∧ truck_time tr' = truck_time tr ∧
  rate tr' = rate tr.

(** The clock and the odometer of [tr'] are at least those of [tr]. *)
Definition truck_le (tr tr' : Truck) : Prop :=
  (truck_time tr <= truck_time tr')%Q ∧
  (distance_traveled tr <= distance_traveled tr')%Q.

(** [y] names a package of group [g] in the directory. *)
Definition has_group (D : gmap Z Package) (g : Z) (y : Z) : bool :=
  match D !! y with
  | Some p => group p =? g
  | None => false
  end.

(** [w'] differs from [w] at most in the pickup times of pending packages,
    which are set to [t0]: the effect of a [load_truck] pass. *)
Definition pickups_only (t0 : Q) (w w' : World) : Prop :=
  priority_packages w' = priority_packages w ∧
  non_priority_packages w' = non_priority_packages w ∧
  group_count_dictionary w' = group_count_dictionary w ∧
  locations w' = locations w ∧
  ∀ k, my_hash_packages w' !! k = my_hash_packages w !! k ∨
       ((k ∈ priority_packages w ∨ k ∈ non_priority_packages w) ∧
        ∃ p, my_hash_packages w !! k = Some p ∧
             my_hash_packages w' !! k = Some (set_time_pickup p t0)).

(** Facts that [load_package_data] establishes and that no later code
    changes: every package is stored under its own id, the non-priority
    list holds packages of group 0 only, and the precomputed size of a
    group is at least the number of its members in the priority list. *)
Definition keys_ids (w : World) : Prop :=
  ∀ k p, my_hash_packages w !! k = Some p → id p = k.

Definition nonprio_group0 (w : World) : Prop :=
  ∀ y p, y ∈ non_priority_packages w → my_hash_packages w !! y = Some p →
         group p = 0.

Definition group_bound (w : World) : Prop :=
  ∀ g count, g ≠ 0 → group_count_dictionary w !! g = Some count →
    Z.of_nat (length (List.filter (has_group (my_hash_packages w) g)
                                  (priority_packages w))) <= count.

(** The manifest [m] either holds no package of group [g], or holds the
    members of [g] of the priority list as one block, appended when the
    manifest had [length pre] packages and [length pre + count <= 16]. *)
Definition group_block (w0 : World) (g : Z) (m : list Z) : Prop :=
  (∀ x, x ∈ m → has_group (my_hash_packages w0) g x = false) ∨
  ∃ pre post count,
    group_count_dictionary w0 !! g = Some count ∧
    m = pre ++ List.filter (has_group (my_hash_packages w0) g)
                           (priority_packages w0) ++ post ∧
    Z.of_nat (length pre) + count <= 16 ∧
    ∀ x, x ∈ pre ++ post → has_group (my_hash_packages w0) g x = false.

(** The invariant of a [load_truck] pass started in [w0]. *)
Definition load_inv (w0 : World) (tr : Truck) (w : World) : Prop :=
  pickups_only (truck_time tr) w0 w ∧
  (length (packages tr) <= 16)%nat ∧
  (∀ x, x ∈ packages tr → ∃ p,
     my_hash_packages w !! x = Some p ∧ time_pickup p = truck_time tr ∧
     (group p = 0 → (time_available p <= truck_time tr)%Q) ∧
     (group p ≠ 0 → ∀ y, y ∈ priority_packages w0 →
        has_group (my_hash_packages w0) (group p) y = true → y ∈ packages tr)) ∧
  (∀ g, g ≠ 0 → group_block w0 g (packages tr)).

(** The truck in the inner [while]: every package aboard has been picked
    up no later than the truck's clock, after its available time when
    its group is 0, and a package of a non-zero group is aboard together
    with every pending member of its group. *)
Definition aboard_ok (w : World) (tr : Truck) : Prop :=
  (length (packages tr) <= 16)%nat ∧ (0 < rate tr)%Q ∧
  ∀ x, x ∈ packages tr → ∃ p,
    my_hash_packages w !! x = Some p ∧
    (time_pickup p <= truck_time tr)%Q ∧
    (group p = 0 → (time_available p <= time_pickup p)%Q) ∧
    (group p ≠ 0 → ∀ y, y ∈ priority_packages w →
       has_group (my_hash_packages w) (group p) y = true → y ∈ packages tr).

(** Every package that has left both pools was delivered no earlier than
    it was picked up, and picked up no earlier than available when its
    group is 0. *)
Definition delivered_chain (w : World) : Prop :=
  ∀ k p, my_hash_packages w !! k = Some p →
    k ∉ priority_packages w → k ∉ non_priority_packages w →
    (time_pickup p <= time_delivered p)%Q ∧
    (group p = 0 → (time_available p <= time_pickup p)%Q).

(** The facts on the globals that the run keeps: those of
    [load_package_data], non-negative distances, and pools without
    repeated ids and disjoint from each other. *)
Definition world_ok (w : World) : Prop :=
  keys_ids w ∧ nonprio_group0 w ∧ group_bound w ∧ nonneg_distances w ∧
  NoDup (priority_packages w) ∧ NoDup (non_priority_packages w) ∧
  (∀ x, x ∈ priority_packages w → x ∉ non_priority_packages w).

(** [k] is in the manifest of the truck of the inner [while]. *)
Definition aboard_now (c : Config) (k : Z) : Prop :=
  match cfg_phase c with
  | Draining tr => k ∈ packages tr
  | _ => False
  end.

(** Group [g] has not been admitted yet (all its packages pending, none
    aboard), or all its packages share one pickup time and those still
    pending are aboard the truck of the inner [while]. *)
Definition group_sync (c : Config) (g : Z) : Prop :=
  let w := cfg_world c in
  (∀ k p, my_hash_packages w !! k = Some p → group p = g →
     k ∈ priority_packages w ∧ ¬ aboard_now c k) ∨
  (∃ t, ∀ k p, my_hash_packages w !! k = Some p → group p = g →
     time_pickup p = t ∧ (k ∈ priority_packages w → aboard_now c k)).

(** The invariant of the configurations of a run. *)
Definition run_inv (c : Config) : Prop :=
  let w := cfg_world c in
  world_ok w ∧
  (∀ tr, tr ∈ cfg_done c ++ cfg_todo c → packages tr = [] ∧ (0 < rate tr)%Q) ∧
  delivered_chain w ∧
  (∀ g, g ≠ 0 → group_sync c g) ∧
  match cfg_phase c with
  | Draining tr => aboard_ok w tr
  | Finished => priority_packages w = [] ∧ non_priority_packages w = []
  | _ => True
  end.

(** What [load_package_data] and the [Truck] constructor provide when
    [route_packages] is called: the facts of [world_ok], every package
    pending, every truck empty with a positive rate. *)
Definition route_ready (w : World) (trucks : list Truck) : Prop :=
  world_ok w ∧
  (∀ k p, my_hash_packages w !! k = Some p →
          k ∈ priority_packages w ∨ k ∈ non_priority_packages w) ∧
  (∀ tr, tr ∈ trucks → packages tr = [] ∧ (0 < rate tr)%Q).

(** The directory [D'] has the same keys as [D], each with the same id
    and group. *)
Definition dir_like (D D' : gmap Z Package) : Prop :=
  ∀ k, option_map (λ p, (id p, group p)) (D' !! k) =
       option_map (λ p, (id p, group p)) (D !! k).

(* ------------------------------------------------------------------ *)
(** ** [load_package_data] (lines 487-552)

    A row of package_data.csv, after the conversions of lines 514-530:
    [int] for the id, the group and the required truck, [strptime] and
    [combine] for the four times (seconds since midnight).  The CSV
    reading and those conversions are not modelled; the columns that are
    only printed are left out.  [my_hash_packages] is the directory as a
    finite map ([ChainHashTable] with at least one bucket behaves as one:
    [chain_hash_table_put_get]). *)
Record PackageRow := mkPackageRow {
  row_id : Z;
  row_address : string;
  row_group : Z;
  row_req_truck : Z;
  row_time_available : Q;
  row_pickup_time : Q;
  row_time_delivered : Q;
  row_deadline : Q
}.

(** Python's [s in t] on strings: [s] is a substring of [t]. *)
Fixpoint string_contains (s t : string) : bool :=
  match t with
  | EmptyString => String.prefix s t
  | String _ t' => String.prefix s t || string_contains s t'
  end.

(** Lines 531-534: the id of the LAST location whose address contains
    the package address, [-1] when there is none.  Only [loc_id] and
    [address] of a [Location] are read here. *)
Definition resolve_loc_id (location_addresses : list (Z * string))
    (p_address : string) : Z :=
  fold_left (λ p_loc_id '(loc_id, address),
               if string_contains p_address address then loc_id else p_loc_id)
            location_addresses (-1).

(** [datetime.combine(datetime.date.today(), datetime.time(23, 59, 59))]. *)
Definition end_of_day : Q := 86399.

(** The [Package(...)] built from a row (lines 514-538). *)
Definition row_package (location_addresses : list (Z * string))
    (row : PackageRow) : Package :=
  mkPackage (row_id row) (row_group row) (row_req_truck row)
            (row_time_available row) (row_pickup_time row)
            (row_time_delivered row) (row_deadline row)
            (resolve_loc_id location_addresses (row_address row)).

(** One iteration of the row loop (lines 513-551), on the globals. *)
Definition load_package_row (location_addresses : list (Z * string))
    (w : World) (num_of_packages : Z) (row : PackageRow) : World * Z :=
  let p := row_package location_addresses row in
  let D := <[row_id row := p]> (my_hash_packages w) in
  let gc := group_count_dictionary w in
  let gc' := if negb (group p =? 0) then
               match gc !! group p with
               | Some count => <[group p := count + 1]> gc
               | None => <[group p := 1]> gc
               end
             else gc in
  if Qltb (deadline p) end_of_day || negb (req_truck p =? 0) || negb (group p =? 0)
  then (mkWorld D (priority_packages w ++ [id p]) (non_priority_packages w) gc'
                (locations w), num_of_packages + 1)
  else (mkWorld D (priority_packages w) (non_priority_packages w ++ [id p]) gc'
                (locations w), num_of_packages + 1).

Fixpoint load_package_rows (location_addresses : list (Z * string))
    (w : World) (num_of_packages : Z) (rows : list PackageRow) : World * Z :=
  match rows with
  | [] => (w, num_of_packages)
  | row :: rest =>
      let '(w1, n1) := load_package_row location_addresses w num_of_packages row in
      load_package_rows location_addresses w1 n1 rest
  end.

(** [load_package_data] starts its count at 0 and returns it. *)
Definition load_package_data (location_addresses : list (Z * string))
    (w : World) (rows : list PackageRow) : World * Z :=
  load_package_rows location_addresses w 0 rows.

(** The globals before the call (lines 651-662): empty pools, an empty
    group dictionary and an empty directory, with the locations of
    [load_location_data]. *)
Definition initial_globals (locs : list Location) : World :=
  mkWorld ∅ [] [] ∅ locs.

(* ------------------------------------------------------------------ *)
(** ** [get_input_time] (lines 608-647) *)

(** One of its three loops: [while value > hi or value < lo], reading an
    answer each time ([None]: [int] raised [ValueError], the value is
    kept).  Returns the value and the answers left; running out of
    answers is [None]. *)
Fixpoint read_in_range (lo hi value : Z) (answers : list (option Z))
  : option (Z * list (option Z)) :=
  if (hi <? value) || (value <? lo) then
    match answers with
    | [] => None
    | a :: rest =>
        read_in_range lo hi (match a with Some n => n | None => value end) rest
    end
  else Some (value, answers).

(** The three loops start at [-1]; the time is
    [combine(today, time(hour, minute, second))]. *)
Definition get_input_time (answers : list (option Z))
  : option (Q * list (option Z)) :=
  '(hour, r1) ← read_in_range 0 23 (-1) answers;
  '(minute, r2) ← read_in_range 0 59 (-1) r1;
  '(second, r3) ← read_in_range 0 59 (-1) r2;
  Some (inject_Z (3600 * hour + 60 * minute + second), r3).

(* ------------------------------------------------------------------ *)
(** ** The report of option 1 and the mileage (lines 679-716) *)

(** The loop over [range(1, num_packages + 1)] (lines 707-716): the
    status label of each package; [search] returning [None] makes the
    attribute access raise. *)
Fixpoint status_lines (D : gmap Z Package) (user_time : Q) (keys : list Z)
  : option (list string) :=
  match keys with
  | [] => Some []
  | key :: rest =>
      package ← D !! key;
      lines ← status_lines D user_time rest;
      Some (package_status user_time package :: lines)
  end.

Definition report_all (D : gmap Z Package) (num_packages : Z) (user_time : Q)
  : option (list string) :=
  status_lines D user_time (map Z.of_nat (seq 1 (Z.to_nat num_packages))).

(** Lines 679-681. *)
Definition total_distance (truck_list : list Truck) : Q :=
  fold_left (λ acc truck, (acc + distance_traveled truck)%Q) truck_list 0%Q.

(* ------------------------------------------------------------------ *)
(** ** Further predicates *)

(** The distance from the truck to the destination of package [y], as
    [find_shortest_distance] computes it. *)
Definition pkg_distance (tr : Truck) (w : World) (y : Z) : option Q :=
  p ← lookup_package w y;
  distance_between w (location_id tr) (loc_id p).

(** A well-formed chaining table: each key is stored at most once, in
    the bucket [hash(key) % len(table)]. *)
Definition table_wf {V} (table : list (list (Z * V))) : Prop :=
  ∀ i bucket_list, table !! i = Some bucket_list →
    NoDup (map fst bucket_list) ∧
    ∀ kv, kv ∈ bucket_list → ChainHashTable.bucket_index table kv.1 = Some i.

(** Every non-priority package needs no particular truck. *)
Definition nonprio_req0 (w : World) : Prop :=
  ∀ y p, y ∈ non_priority_packages w → my_hash_packages w !! y = Some p →
         req_truck p = 0.

(** The trucks of the list, in order, with the truck of the inner
    [while] in its place. *)
Definition fleet (c : Config) : list Truck :=
  cfg_done c ++
  match cfg_phase c with Draining tr => [tr] | _ => [] end ++
  cfg_todo c.

(** A truck [t] is truck [t0] later in the run. *)
Definition truck_later (t0 t : Truck) : Prop :=
  truck_id t = truck_id t0 ∧ rate t = rate t0 ∧ truck_le t0 t.

(** The invariant of the truck list along a run started in [w0]. *)
Definition fleet_inv (w0 : World) (trucks : list Truck) (c : Config) : Prop :=
  Forall2 truck_later trucks (fleet c) ∧
  (∀ tr, tr ∈ fleet c → (0 < rate tr)%Q) ∧
  (∀ tr, tr ∈ cfg_done c ++ cfg_todo c → location_id tr = 0 ∧ packages tr = []) ∧
  match cfg_phase c with
  | OuterTest | Finished => cfg_todo c = []
  | _ => True
  end ∧
  locations (cfg_world c) = locations w0.

(** Answers a loop of [get_input_time] rejects: lines [int] refuses and
    integers outside [lo, hi]. *)
Definition rejected (lo hi : Z) (answers : list (option Z)) : Prop :=
  Forall (λ a, match a with Some n => n < lo ∨ hi < n | None => True end) answers.

(** What the row loop of [load_package_data] keeps: ids are keys, the
    non-priority list holds packages of group 0 needing no particular
    truck, the pools are duplicate-free and disjoint and hold exactly the
    keys of the table, and each group has at most as many members in
    the priority list as the dictionary counts. *)
Definition data_inv (w : World) : Prop :=
  let D := my_hash_packages w in
  keys_ids w ∧ nonprio_group0 w ∧ nonprio_req0 w ∧
  NoDup (priority_packages w) ∧ NoDup (non_priority_packages w) ∧
  (∀ x, x ∈ priority_packages w → x ∉ non_priority_packages w) ∧
  (∀ k p, D !! k = Some p → k ∈ priority_packages w ∨ k ∈ non_priority_packages w) ∧
  (∀ k, k ∈ priority_packages w ∨ k ∈ non_priority_packages w → is_Some (D !! k)) ∧
  (∀ g, g ≠ 0 → Z.of_nat (length (List.filter (has_group D g) (priority_packages w)))
                <= default 0 (group_count_dictionary w !! g)).

(** [D'] has the same keys as [D], each with the same id, group and
    required truck. *)
Definition fields_like (D D' : gmap Z Package) : Prop :=
  ∀ k, option_map (λ p, (id p, group p, req_truck p)) (D' !! k) =
       option_map (λ p, (id p, group p, req_truck p)) (D !! k).

(** Every package of the manifest [m] that has group 0 in [D] needs no
    particular truck or truck [tid]. *)
Definition req_respected (D : gmap Z Package) (tid : Z) (m : list Z) : Prop :=
  ∀ x p, x ∈ m → D !! x = Some p → group p = 0 →
         req_truck p = 0 ∨ req_truck p = tid.

(** Along a run: package [x] of group 0, requiring truck [r], is still
    in the priority list and on no truck, the non-priority list needs no
    particular truck, and no truck of the list has id [r]. *)
Definition stuck_inv (x r : Z) (c : Config) : Prop :=
  x ∈ priority_packages (cfg_world c) ∧
  (∃ p, my_hash_packages (cfg_world c) !! x = Some p ∧ group p = 0 ∧ req_truck p = r) ∧
  nonprio_req0 (cfg_world c) ∧
  (∀ tr, cfg_phase c = Draining tr → x ∉ packages tr) ∧
  (∀ tr, tr ∈ fleet c → truck_id tr ≠ r).

(* ------------------------------------------------------------------ *)
(** ** Concrete inputs *)

(** Three locations: the hub 0, location 1 at 5 miles, location 2 at 3
    miles from the hub and 4 from location 1 (the spec's routing
    scenario). *)
Definition ex_locations : list Location :=
  [mkLocation 0 [0; 5; 3]%Q; mkLocation 1 [5; 0; 4]%Q; mkLocation 2 [3; 4; 0]%Q].

(** A package with no deadline before the end of the day, available at
    [avail], with dummy pickup and delivered times. *)
Definition ex_package (p_id p_group p_req_truck : Z) (avail : Q) (loc : Z)
  : Package :=
  mkPackage p_id p_group p_req_truck avail 0 0 86399 loc.

(** Packages 1 and 2 form group 7; package 2 must ride on truck 2.  Both
    are available at 08:00.  This is what [load_package_data] builds from
    these two rows: both ids in the priority list, group 7 counted
    twice. *)
Definition group_world : World :=
  mkWorld (<[1 := ex_package 1 7 0 28800 1]> (<[2 := ex_package 2 7 2 28800 2]> ∅))
          [1; 2] [] (<[7 := 2]> ∅) ex_locations.

(** [truck_1] leaves at 08:00 and [truck_2] at 09:05, as in main.py. *)
Definition ex_trucks : list Truck := [new_truck 1 28800; new_truck 2 32700].

(** One package for location 1, 3.6 miles from the hub, aboard [truck_1]
    at the hub at 08:00. *)
Definition leg_world : World :=
  mkWorld (<[1 := mkPackage 1 0 0 28800 28800 0 86399 1]> ∅) [] [1] ∅
          [mkLocation 0 [0; 36 # 10]%Q; mkLocation 1 [36 # 10; 0]%Q].

Definition leg_truck : Truck := mkTruck 1 [1] 0 0 28800 18.

(** As [leg_world], with location 1 at 120 miles from the hub. *)
Definition far_world : World :=
  mkWorld (<[1 := mkPackage 1 0 0 28800 28800 0 86399 1]> ∅) [] [1] ∅
          [mkLocation 0 [0; 120]%Q; mkLocation 1 [120; 0]%Q].

(** The addresses of [ex_locations] and two rows of package_data.csv
    that load as [group_world]: packages 1 and 2 of group 7, package 2
    for truck 2. *)
Definition ex_addresses : list (Z * string) :=
  [(0, "4001 South 700 East"%string); (1, "195 W Oakland Ave"%string); (2, "2530 S 500 E"%string)].

Definition ex_rows : list PackageRow :=
  [mkPackageRow 1 "195 W Oakland Ave"%string 7 0 28800 0 0 86399;
   mkPackageRow 2 "2530 S 500 E"%string 7 2 28800 0 0 86399].

(** Package 1 must ride on truck 3, which main.py creates but leaves
    out of [truck_list]. *)
Definition stuck_world : World :=
  mkWorld (<[1 := mkPackage 1 0 3 28800 0 0 86399 1]> ∅) [1] [] ∅ ex_locations.

(** Three rows of package_data.csv: package 1 (group 0, available at
    07:00) for location 2, 3 miles from the hub; packages 2 and 3 of
    group 5 for location 1, package 2 available at 07:30 and package 3
    only at 10:00. *)
Definition early_rows : list PackageRow :=
  [mkPackageRow 1 "2530 S 500 E"%string 0 0 25200 0 0 86399;
   mkPackageRow 2 "195 W Oakland Ave"%string 5 0 27000 0 0 86399;
   mkPackageRow 3 "195 W Oakland Ave"%string 5 0 36000 0 0 86399].

(** The globals [load_package_data] builds from [early_rows]. *)
Definition early_world : World :=
  (load_package_data ex_addresses (initial_globals ex_locations) early_rows).1.

(* ================================================================== *)
(** * Proofs *)

(* ------------------------------------------------------------------ *)
(** ** ChainHashTable *)

Module ChainHashTableFacts.
Import ChainHashTable.
Section WithItem.
Context {V : Type}.
Implicit Types (table : list (list (Z * V))) (bucket_list : list (Z * V)).

Lemma bucket_get_put_eq bucket_list key item :
  bucket_get (bucket_put bucket_list key item) key = Some item.
Proof.
  induction bucket_list as [|[k v] rest IH]; simpl.
  - by rewrite Z.eqb_refl.
  - destruct (k =? key) eqn:E; simpl; rewrite ?E; [done | exact IH].
Qed.

Lemma bucket_get_put_ne bucket_list key key' item :
  key ≠ key' →
  bucket_get (bucket_put bucket_list key item) key' = bucket_get bucket_list key'.
Proof.
  intros Hne. induction bucket_list as [|[k v] rest IH]; simpl.
  - destruct (key =? key') eqn:E; [apply Z.eqb_eq in E; congruence | done].
  - destruct (k =? key) eqn:E; simpl.
    + apply Z.eqb_eq in E; subst k.
      destruct (key =? key') eqn:E'; [apply Z.eqb_eq in E'; congruence | done].
    + destruct (k =? key'); [done | exact IH].
Qed.

Lemma bucket_index_lt table key n :
  bucket_index table key = Some n → (n < length table)%nat.
Proof.
  unfold bucket_index. destruct (Nat.eqb_spec (length table) 0); [done |].
  intros [= <-].
  assert (0 <= py_hash_int key mod Z.of_nat (length table) < Z.of_nat (length table))
    by (apply Z.mod_pos_bound; lia).
  lia.
Qed.

Lemma bucket_index_some table key :
  (0 < length table)%nat → ∃ n, bucket_index table key = Some n.
Proof.
  unfold bucket_index. destruct (Nat.eqb_spec (length table) 0); [lia |]. eauto.
Qed.

Lemma insert_some table key item :
  (0 < length table)%nat →
  ∃ table', insert table key item = Some table' ∧ length table' = length table.
Proof.
  intros Hlen. destruct (bucket_index_some table key Hlen) as [n Hn].
  pose proof (bucket_index_lt _ _ _ Hn) as Hlt.
  destruct (lookup_lt_is_Some_2 table n Hlt) as [b Hb].
  unfold insert. rewrite Hn. simpl. rewrite Hb. simpl.
  eexists. split; [done | apply length_insert].
Qed.

(** The effect of one [insert] on any [search]. *)
Lemma search_insert table table' key item key' :
  insert table key item = Some table' →
  search table' key' =
    if key =? key' then Some (Some item) else search table key'.
Proof.
  unfold insert, search.
  destruct (bucket_index table key) as [n|] eqn:Hn; [simpl | done].
  destruct (table !! n) as [b|] eqn:Hb; [simpl | done].
  intros [= <-].
  assert (Hidx : ∀ k, bucket_index (<[n := bucket_put b key item]> table) k
                      = bucket_index table k)
    by (intros k; unfold bucket_index; by rewrite length_insert).
  rewrite Hidx.
  pose proof (bucket_index_lt _ _ _ Hn) as Hlt.
  destruct (Z.eqb_spec key key') as [<-|Hne].
  - rewrite Hn. simpl. rewrite list_lookup_insert_eq by done. simpl.
    by rewrite bucket_get_put_eq.
  - destruct (bucket_index table key') as [n'|] eqn:Hn'; [simpl | done].
    destruct (decide (n = n')) as [<-|Hnn].
    + rewrite list_lookup_insert_eq by done. rewrite Hb. simpl.
      by rewrite bucket_get_put_ne.
    + by rewrite list_lookup_insert_ne.
Qed.

Lemma search_new_table (initial_capacity : nat) key :
  (0 < initial_capacity)%nat →
  search (V:=V) (new_table initial_capacity) key = Some None.
Proof.
  intros Hcap. unfold search, new_table.
  destruct (bucket_index_some (replicate initial_capacity []) key)
    as [n Hn]; [by rewrite length_replicate |].
  rewrite Hn. simpl.
  pose proof (bucket_index_lt _ _ _ Hn) as Hlt. rewrite length_replicate in Hlt.
  by rewrite lookup_replicate_2.
Qed.

Lemma insert_all_search table kvs key :
  (0 < length table)%nat →
  ∃ table', insert_all table kvs = Some table' ∧
    search table' key =
      match last_inserted kvs key with
      | Some v => Some (Some v)
      | None => search table key
      end.
Proof.
  revert table. induction kvs as [|[k v] rest IH]; intros table Hlen; simpl.
  - eauto.
  - destruct (insert_some table k v Hlen) as [t1 [Ht1 Hl1]].
    rewrite Ht1. simpl.
    destruct (IH t1) as [t2 [Ht2 Hs2]]; [lia |].
    exists t2. split; [done |]. rewrite Hs2.
    destruct (last_inserted rest key); [done |].
    rewrite (search_insert _ _ _ _ _ Ht1). by destruct (k =? key).
Qed.

End WithItem.
End ChainHashTableFacts.

(** Claim C9 (amended).  For a [ChainHashTable] with at least one bucket
    (the program's has the default 10), after any sequence of [insert]
    calls, [search(key)] returns the item of the last [insert] for [key]
    (so [insert] overwrites, and [search] after [insert(key, v)] gives
    [v]), and Python's [None] when [key] was never inserted.  Every
    [insert] of the sequence succeeds. *)
Theorem chain_hash_table_put_get {V : Type} (initial_capacity : nat)
    (kvs : list (Z * V)) (key : Z) :
  (0 < initial_capacity)%nat →
  ∃ table,
    ChainHashTable.insert_all (ChainHashTable.new_table initial_capacity) kvs
      = Some table ∧
    ChainHashTable.search table key = Some (ChainHashTable.last_inserted kvs key).
Proof.
  intros Hcap.
  destruct (ChainHashTableFacts.insert_all_search
              (ChainHashTable.new_table initial_capacity) kvs key)
    as [table [Hins Hs]];
    [unfold ChainHashTable.new_table; by rewrite length_replicate |].
  exists table. split; [done |]. rewrite Hs.
  destruct (ChainHashTable.last_inserted kvs key); [done |].
  by apply ChainHashTableFacts.search_new_table.
Qed.

(** Claim C9, counterexample: a table built with [initial_capacity = 0]
    raises [ZeroDivisionError] in [search] instead of returning [None]
    for a key that was never inserted. *)
Lemma chain_hash_table_zero_buckets :
  ¬ (∀ (initial_capacity : nat) (kvs : list (Z * nat)) (key : Z),
       key ∉ kvs.*1 →
       ∃ table,
         ChainHashTable.insert_all (ChainHashTable.new_table initial_capacity) kvs
           = Some table ∧
         ChainHashTable.search table key = Some None).
Proof.
  intros H. destruct (H 0%nat [] 1) as [table [Hins Hs]]; [set_solver |].
  simpl in Hins. injection Hins as <-. vm_compute in Hs. discriminate.
Qed.

Lemma chain_hash_table_put_get_witness :
  (0 < 10)%nat ∧
  ∃ table,
    ChainHashTable.insert_all (ChainHashTable.new_table 10)
      [(1, 5%nat); (11, 6%nat); (1, 7%nat)] = Some table ∧
    ChainHashTable.search table 1 =
      Some (ChainHashTable.last_inserted [(1, 5%nat); (11, 6%nat); (1, 7%nat)] 1).
Proof.
  split; [lia |]. apply (chain_hash_table_put_get 10). lia.
Defined.

(* ------------------------------------------------------------------ *)
(** ** The query surface *)

(** Claim C7, counterexample: the labels are a cascade, not four
    independent intervals.  A package admitted with its group before it
    became available (pickup 09:05, available 10:20, delivered 09:30) is
    reported "Package Unavailable" at 09:10, although
    pickup <= 09:10 < delivered. *)
Lemma package_status_not_intervals :
  ¬ (∀ (p : Package) (q : Q),
       (package_status q p = UNAVAILABLE ↔ (q < time_available p)%Q) ∧
       (package_status q p = DEPOT ↔
          (time_available p <= q)%Q ∧ (q < time_pickup p)%Q) ∧
       (package_status q p = EN_ROUTE ↔
          (time_pickup p <= q)%Q ∧ (q < time_delivered p)%Q) ∧
       (package_status q p = DELIVERED ↔ (time_delivered p <= q)%Q)).
Proof.
  intros H.
  destruct (H (mkPackage 3 7 0 37200 32700 34200 86400 1) 33000%Q)
    as [_ [_ [Hen _]]].
  assert (Hst : package_status 33000%Q (mkPackage 3 7 0 37200 32700 34200 86400 1)
                = UNAVAILABLE) by reflexivity.
  rewrite Hst in Hen.
  assert (Hbad : UNAVAILABLE = EN_ROUTE) by (apply Hen; simpl; split; lra).
  discriminate Hbad.
Qed.

Lemma Qltb_iff x y : Qltb x y = true ↔ (x < y)%Q.
Proof.
  unfold Qltb. rewrite negb_true_iff. split.
  - intros H. apply Qnot_le_lt. intros Hle. apply Qle_bool_iff in Hle. congruence.
  - intros H. destruct (Qle_bool y x) eqn:E; [| done].
    apply Qle_bool_iff in E. lra.
Qed.

Lemma Qltb_false x y : Qltb x y = false ↔ (y <= x)%Q.
Proof.
  split.
  - intros H. destruct (Qlt_le_dec x y) as [Hlt|]; [| done].
    apply Qltb_iff in Hlt. congruence.
  - intros H. destruct (Qltb x y) eqn:E; [| done]. apply Qltb_iff in E. lra.
Qed.

(** Claim C7 (amended).  The status is the first label of the cascade
    Unavailable (query < available), In Depot (query < pickup), En Route
    (query < delivered), Delivered; for a package with
    available <= pickup <= delivered it is exactly one of the four labels,
    selected by the four intervals; in the spec's scenario (available and
    pickup 08:00, delivered 09:15) the status is En Route at 08:30,
    Unavailable at 07:59 and Delivered at 09:15 and later. *)
Theorem package_status_intervals (p : Package) (q : Q) :
  (time_available p <= time_pickup p)%Q →
  (time_pickup p <= time_delivered p)%Q →
  ((package_status q p = UNAVAILABLE ↔ (q < time_available p)%Q) ∧
   (package_status q p = DEPOT ↔
      (time_available p <= q)%Q ∧ (q < time_pickup p)%Q) ∧
   (package_status q p = EN_ROUTE ↔
      (time_pickup p <= q)%Q ∧ (q < time_delivered p)%Q) ∧
   (package_status q p = DELIVERED ↔ (time_delivered p <= q)%Q)) ∧
  (let s := mkPackage 1 0 0 28800 28800 33300 86400 1 in
   package_status 30600 s = EN_ROUTE ∧ package_status 28740 s = UNAVAILABLE ∧
   ∀ t, (33300 <= t)%Q → package_status t s = DELIVERED).
Proof.
  intros Hap Hpd. split.
  - unfold package_status.
    destruct (Qltb q (time_available p)) eqn:E1;
      [apply Qltb_iff in E1 | apply Qltb_false in E1];
    [| destruct (Qltb q (time_pickup p)) eqn:E2;
         [apply Qltb_iff in E2 | apply Qltb_false in E2];
       [| destruct (Qltb q (time_delivered p)) eqn:E3;
            [apply Qltb_iff in E3 | apply Qltb_false in E3]]];
    repeat split; intros; try discriminate; try lra;
    try match goal with
        | H : _ ∧ _ |- _ => destruct H; lra
        end.
  - cbv zeta. split; [reflexivity |]. split; [reflexivity |].
    intros t Ht. unfold package_status. cbn [time_available time_pickup time_delivered].
    destruct (Qltb t 28800) eqn:E1; [apply Qltb_iff in E1; lra |].
    destruct (Qltb t 33300) eqn:E3; [apply Qltb_iff in E3; lra | done].
Qed.

Lemma package_status_intervals_witness :
  (28800 <= 28800)%Q ∧ (28800 <= 33300)%Q ∧
  (package_status 30600 (mkPackage 1 0 0 28800 28800 33300 86400 1) = EN_ROUTE ↔
     (28800 <= 30600)%Q ∧ (30600 < 33300)%Q).
Proof.
  split; [lra |]. split; [lra |].
  destruct (package_status_intervals (mkPackage 1 0 0 28800 28800 33300 86400 1)
              30600) as [[_ [_ [Hen _]]] _]; simpl; [lra | lra | exact Hen].
Defined.

(** Claim C8 (code defect): the prompt says "between 1 and num_packages"
    but its loop condition is [user_package_id > num_packages + 1], so
    with 40 packages the answer 41 is accepted and used for the lookup. *)
Theorem package_id_prompt_accepts_one_past :
  read_package_id 40 [Some 41] = Some 41 ∧
  read_package_id 40 [Some 0; None; Some 41] = Some 41.
Proof. split; reflexivity. Qed.

(* ------------------------------------------------------------------ *)
(** ** Truck methods: positions, clocks and odometers *)

Lemma py_index_elem {A} (l : list A) (i : Z) (x : A) :
  py_index l i = Some x → x ∈ l.
Proof.
  unfold py_index.
  destruct ((0 <=? i) && (i <? Z.of_nat (length l)));
    [apply list_elem_of_lookup_2 |].
  destruct ((- Z.of_nat (length l) <=? i) && (i <? 0));
    [apply list_elem_of_lookup_2 | discriminate].
Qed.

Lemma distance_between_nonneg (w : World) (i j : Z) (d : Q) :
  nonneg_distances w → distance_between w i j = Some d → (0 <= d)%Q.
Proof.
  intros Hnn. unfold distance_between.
  destruct (py_index (locations w) i) as [loc|] eqn:Hloc; [simpl | discriminate].
  intros Hd. apply (Hnn loc); [exact (py_index_elem _ _ _ Hloc) |].
  exact (py_index_elem _ _ _ Hd).
Qed.

Lemma travel_le (tr : Truck) (d : Q) (dest : Z) :
  (0 <= d)%Q → (0 < rate tr)%Q → truck_le tr (travel tr d dest).
Proof.
  intros Hd Hr. unfold truck_le, travel. simpl.
  assert (0 <= d / rate tr * 3600)%Q.
  { unfold Qdiv. apply Qmult_le_0_compat; [| lra].
    apply Qmult_le_0_compat; [done |]. apply Qinv_le_0_compat. lra. }
  split; lra.
Qed.

Lemma truck_le_refl (tr : Truck) : truck_le tr tr.
Proof. unfold truck_le. split; apply Qle_refl. Qed.

Lemma truck_le_trans (tr1 tr2 tr3 : Truck) :
  truck_le tr1 tr2 → truck_le tr2 tr3 → truck_le tr1 tr3.
Proof. unfold truck_le. intros [] []. split; eapply Qle_trans; eauto. Qed.

Lemma same_position_refl (tr : Truck) : same_position tr tr.
Proof. unfold same_position. done. Qed.

Lemma same_position_trans (tr1 tr2 tr3 : Truck) :
  same_position tr1 tr2 → same_position tr2 tr3 → same_position tr1 tr3.
Proof. unfold same_position. intros (?&?&?&?&?) (?&?&?&?&?). repeat split; congruence. Qed.

Lemma same_position_le (tr tr' : Truck) : same_position tr tr' → truck_le tr tr'.
Proof.
  unfold same_position, truck_le. intros (_&Hd&_&Ht&_). rewrite Hd, Ht.
  split; apply Qle_refl.
Qed.

Lemma set_packages_same_position (tr : Truck) (l : list Z) :
  same_position tr (set_packages tr l).
Proof. unfold same_position. done. Qed.

Lemma load_package_spec (tr : Truck) (w : World) (x : Z) tr' w' :
  load_package tr w x = Some (tr', w') →
  same_position tr tr' ∧ packages tr' = packages tr ++ [x] ∧
  ∃ p, lookup_package w x = Some p ∧
       w' = set_package w x (set_time_pickup p (truck_time tr)).
Proof.
  unfold load_package. destruct (lookup_package w x) as [p|] eqn:Hp; [simpl | done].
  intros [= <- <-]. split; [apply set_packages_same_position |]. eauto.
Qed.

Lemma load_group_same_position g (tr : Truck) (w : World) l tr' w' :
  load_group g tr w l = Some (tr', w') → same_position tr tr'.
Proof.
  revert tr w. induction l as [|x l IH]; intros tr w; simpl.
  - intros [= <- _]. apply same_position_refl.
  - destruct (lookup_package w x) as [p|]; [simpl | done].
    destruct (group p =? g); [| apply IH].
    destruct (load_package tr w x) as [[tr1 w1]|] eqn:Hl; [simpl | done].
    intros H. apply load_package_spec in Hl as [Hs _].
    eapply same_position_trans; [exact Hs | exact (IH _ _ H)].
Qed.

Lemma load_priority_one_same_position prio (tr : Truck) (w : World) x tr' w' :
  load_priority_one prio tr w x = Some (tr', w') → same_position tr tr'.
Proof.
  unfold load_priority_one.
  destruct (bool_decide (x ∈ packages tr)); [intros [= <- _]; apply same_position_refl |].
  destruct (lookup_package w x) as [p|]; [simpl | done].
  destruct (_ || _); [| intros [= <- _]; apply same_position_refl].
  destruct (Qle_bool _ _); [| intros [= <- _]; apply same_position_refl].
  destruct (group p =? 0).
  - intros H. apply load_package_spec in H. tauto.
  - destruct (group_count_dictionary w !! group p); [simpl | done].
    destruct (_ <=? 16); [apply load_group_same_position |].
    intros [= <- _]. apply same_position_refl.
Qed.

Lemma load_priority_loop_same_position prio (tr : Truck) (w : World) l tr' w' :
  load_priority_loop prio tr w l = Some (tr', w') → same_position tr tr'.
Proof.
  revert tr w. induction l as [|x l IH]; intros tr w; simpl.
  - intros [= <- _]. apply same_position_refl.
  - destruct (Nat.eqb _ 16); [intros [= <- _]; apply same_position_refl |].
    destruct (load_priority_one prio tr w x) as [[tr1 w1]|] eqn:Hl; [simpl | done].
    intros H. eapply same_position_trans;
      [exact (load_priority_one_same_position _ _ _ _ _ _ Hl) | exact (IH _ _ H)].
Qed.

Lemma load_non_priority_loop_same_position (tr : Truck) (w : World) l tr' w' :
  load_non_priority_loop tr w l = Some (tr', w') → same_position tr tr'.
Proof.
  revert tr w. induction l as [|x l IH]; intros tr w; simpl.
  - intros [= <- _]. apply same_position_refl.
  - destruct (Nat.eqb _ 16); [intros [= <- _]; apply same_position_refl |].
    destruct (lookup_package w x) as [p|]; [simpl | done].
    destruct (Qle_bool _ _); [| apply IH].
    destruct (load_package tr w (id p)) as [[tr1 w1]|] eqn:Hl; [simpl | done].
    intros H. apply load_package_spec in Hl as [Hs _].
    eapply same_position_trans; [exact Hs | exact (IH _ _ H)].
Qed.

Lemma load_truck_same_position (tr : Truck) (w : World) tr' w' :
  load_truck tr w = Some (tr', w') → same_position tr tr'.
Proof.
  unfold load_truck.
  destruct (load_priority_loop _ tr w _) as [[tr1 w1]|] eqn:H1; [simpl | done].
  intros H2. eapply same_position_trans;
    [exact (load_priority_loop_same_position _ _ _ _ _ _ H1)
    | exact (load_non_priority_loop_same_position _ _ _ _ _ H2)].
Qed.

Lemma increment_time_and_distance_spec (tr : Truck) (w : World) x tr' :
  increment_time_and_distance tr w x = Some tr' →
  ∃ p d, lookup_package w x = Some p ∧
         distance_between w (location_id tr) (loc_id p) = Some d ∧
         tr' = travel tr d (loc_id p).
Proof.
  unfold increment_time_and_distance.
  destruct (lookup_package w x) as [p|]; [simpl | done].
  destruct (distance_between _ _ _) as [d|] eqn:Hd; [simpl | done].
  intros [= <-]. eauto.
Qed.

Lemma deliver_package_spec (tr : Truck) (w : World) x tr' w' :
  deliver_package tr w x = Some (tr', w') →
  ∃ p d,
    lookup_package w x = Some p ∧
    w' = set_package w x (set_time_delivered p (truck_time tr)) ∧
    distance_between w (location_id tr) (loc_id p) = Some d ∧
    x ∈ packages tr ∧
    tr' = set_packages (travel tr d (loc_id p)) (remove_first x (packages tr)).
Proof.
  unfold deliver_package.
  destruct (lookup_package w x) as [p|] eqn:Hp; [simpl | done].
  destruct (increment_time_and_distance tr _ x) as [tr1|] eqn:Hi; [simpl | done].
  apply increment_time_and_distance_spec in Hi as (p' & d & Hp' & Hd & ->).
  unfold lookup_package, set_package in Hp'. simpl in Hp'.
  rewrite lookup_insert_eq in Hp'. injection Hp' as <-.
  unfold py_remove. simpl.
  case_bool_decide as Hin; [simpl | done].
  intros [= <- <-]. exists p, d. repeat split; try done.
Qed.

Lemma run_steps_reaches (n : nat) (c c' : Config) :
  run_steps n c = Some c' → run_reaches c c'.
Proof.
  revert c. induction n as [|n IH]; intros c; simpl.
  - intros [= <-]. apply rtc_refl.
  - destruct (run_step c) as [c1|] eqn:H1; [simpl | done].
    intros H. eapply rtc_l; [exact H1 | exact (IH _ H)].
Qed.

(** Claim C10.  With non-negative distances, [load_truck],
    [load_package], [increment_time_and_distance], [deliver_package] and
    [return_to_hub] never decrease the truck's clock or odometer
    ([find_shortest_distance] returns an id and leaves the truck as it
    is).  Every truck has [rate = 18.0]; the statement only needs it
    positive. *)
Theorem truck_operations_monotone (tr : Truck) (w : World) :
  nonneg_distances w → (0 < rate tr)%Q →
  (∀ tr' w', load_truck tr w = Some (tr', w') → truck_le tr tr') ∧
  (∀ x tr' w', load_package tr w x = Some (tr', w') → truck_le tr tr') ∧
  (∀ x tr', increment_time_and_distance tr w x = Some tr' → truck_le tr tr') ∧
  (∀ x tr' w', deliver_package tr w x = Some (tr', w') → truck_le tr tr') ∧
  (∀ tr', return_to_hub tr w = Some tr' → truck_le tr tr').
Proof.
  intros Hnn Hr. split; [| split; [| split; [| split]]].
  - intros tr' w' H. apply same_position_le. exact (load_truck_same_position _ _ _ _ H).
  - intros x tr' w' H. apply same_position_le. apply load_package_spec in H. tauto.
  - intros x tr' H. apply increment_time_and_distance_spec in H as (p & d & _ & Hd & ->).
    apply travel_le; [exact (distance_between_nonneg _ _ _ _ Hnn Hd) | exact Hr].
  - intros x tr' w' H. apply deliver_package_spec in H as (p & d & _ & _ & Hd & _ & ->).
    apply (truck_le_trans _ (travel tr d (loc_id p))).
    + apply travel_le; [exact (distance_between_nonneg _ _ _ _ Hnn Hd) | exact Hr].
    + apply same_position_le, set_packages_same_position.
  - intros tr' H. unfold return_to_hub in H.
    destruct (distance_between w (location_id tr) 0) as [d|] eqn:Hd; [| done].
    injection H as <-.
    apply travel_le; [exact (distance_between_nonneg _ _ _ _ Hnn Hd) | exact Hr].
Qed.

Lemma truck_operations_monotone_witness :
  nonneg_distances leg_world ∧ (0 < rate leg_truck)%Q ∧
  ∀ tr' w', deliver_package leg_truck leg_world 1 = Some (tr', w') →
            truck_le leg_truck tr'.
Proof.
  assert (Hnn : nonneg_distances leg_world).
  { intros loc Hloc d Hd. simpl in Hloc.
    repeat (apply elem_of_cons in Hloc as [->|Hloc]);
      [| | apply elem_of_nil in Hloc; done];
    simpl in Hd; repeat (apply elem_of_cons in Hd as [->|Hd]);
      try (apply elem_of_nil in Hd; done); vm_compute; discriminate. }
  assert (Hr : (0 < rate leg_truck)%Q) by (simpl; lra).
  split; [exact Hnn |]. split; [exact Hr |].
  apply (truck_operations_monotone leg_truck leg_world Hnn Hr).
Defined.

(** Claim C2 (code defect): [deliver_package] writes the delivered time
    before [increment_time_and_distance] moves the truck.  Delivering the
    package for location 1 (3.6 miles, 12 minutes at 18 mph) from the
    hub at 08:00 records 08:00, while the truck arrives at 08:12. *)
Theorem deliver_package_stamps_departure_time :
  ∃ tr' w',
    deliver_package leg_truck leg_world 1 = Some (tr', w') ∧
    option_map time_delivered (lookup_package w' 1) = Some 28800%Q ∧
    (truck_time tr' == 28800 + (36 # 10) / 18 * 3600)%Q ∧
    (truck_time tr' == 29520)%Q ∧
    packages tr' = [].
Proof.
  eexists _, _. split; [reflexivity |].
  split; [reflexivity |]. split; [reflexivity |]. split; [reflexivity | reflexivity].
Qed.

(** Claim C6 (code defect): [find_shortest_distance] starts from
    [min_distance = 100], so a manifest whose destinations are all at
    100 miles or more yields the sentinel [-1]; the run then stops in
    [deliver_package(-1)] (the lookup of id [-1] gives [None]). *)
Theorem find_shortest_distance_sentinel :
  packages leg_truck ≠ [] ∧
  find_shortest_distance leg_truck far_world = Some (-1) ∧
  deliver_package leg_truck far_world (-1) = None ∧
  run_step (mkConfig far_world [] (Draining leg_truck) []) = None.
Proof.
  split; [discriminate |]. split; [reflexivity |]. split; reflexivity.
Qed.

(** Claim C1 (code defect): the group branch of [load_truck] loads every
    package of the group without the [req_truck] test that the outer
    loop applies.  Package 2 (group 7, required truck 2) is loaded by
    truck 1 when package 1 of the same group admits the group. *)
Theorem group_member_on_wrong_truck :
  option_map req_truck (lookup_package group_world 2) = Some 2 ∧
  ∃ c tr,
    run_reaches (route_start group_world ex_trucks) c ∧
    cfg_phase c = Draining tr ∧ truck_id tr = 1 ∧ 2 ∈ packages tr.
Proof.
  split; [reflexivity |].
  destruct (run_steps 2 (route_start group_world ex_trucks)) as [c|] eqn:Hc;
    [| vm_compute in Hc; discriminate].
  pose proof Hc as Hc'. vm_compute in Hc'. injection Hc' as <-.
  eexists _, _. split; [exact (run_steps_reaches _ _ _ Hc) |].
  split; [reflexivity |]. split; [reflexivity |].
  simpl. set_solver.
Qed.

(* ------------------------------------------------------------------ *)
(** ** A [load_truck] pass only sets pickup times *)

Lemma set_time_pickup_idem (p : Package) (t t' : Q) :
  set_time_pickup (set_time_pickup p t) t' = set_time_pickup p t'.
Proof. by destruct p. Qed.

Lemma pickups_only_refl (t0 : Q) (w : World) : pickups_only t0 w w.
Proof. unfold pickups_only. repeat split; auto. Qed.

Lemma pickups_only_trans (t0 : Q) (w1 w2 w3 : World) :
  pickups_only t0 w1 w2 → pickups_only t0 w2 w3 → pickups_only t0 w1 w3.
Proof.
  intros (HP1 & HN1 & HG1 & HL1 & H1) (HP2 & HN2 & HG2 & HL2 & H2).
  repeat split; try congruence.
  intros k. destruct (H2 k) as [E2 | [Hk2 (p & E2 & E3)]].
  - rewrite E2. apply H1.
  - rewrite HP1, HN1 in Hk2.
    destruct (H1 k) as [E1 | [_ (p0 & E1 & E1')]].
    + right. split; [done |]. exists p. split; [congruence | done].
    + right. split; [done |]. exists p0. split; [done |].
      rewrite E3. rewrite E1' in E2. injection E2 as <-.
      by rewrite set_time_pickup_idem.
Qed.

Lemma pickups_only_lookup (t0 : Q) (w w' : World) (k : Z) (p' : Package) :
  pickups_only t0 w w' → my_hash_packages w' !! k = Some p' →
  ∃ p, my_hash_packages w !! k = Some p ∧ (p' = p ∨ p' = set_time_pickup p t0).
Proof.
  intros (_ & _ & _ & _ & H) Hk. destruct (H k) as [E | [_ (p & E & E')]].
  - exists p'. split; [congruence | auto].
  - exists p. split; [done |]. right. congruence.
Qed.

Lemma pickups_only_lookup_inv (t0 : Q) (w w' : World) (k : Z) (p : Package) :
  pickups_only t0 w w' → my_hash_packages w !! k = Some p →
  ∃ p', my_hash_packages w' !! k = Some p' ∧ (p' = p ∨ p' = set_time_pickup p t0).
Proof.
  intros (_ & _ & _ & _ & H) Hk. destruct (H k) as [E | [_ (p0 & E & E')]].
  - exists p. split; [congruence | auto].
  - exists (set_time_pickup p t0). split; [congruence | auto].
Qed.

Lemma pickups_only_has_group (t0 : Q) (w w' : World) (g y : Z) :
  pickups_only t0 w w' →
  has_group (my_hash_packages w') g y = has_group (my_hash_packages w) g y.
Proof.
  intros (_ & _ & _ & _ & H). unfold has_group.
  destruct (H y) as [-> | [_ (p & -> & ->)]]; [done |]. by destruct p.
Qed.

(** A package picked up at [t0] keeps that pickup time. *)
Lemma pickups_only_keeps (t0 : Q) (w w' : World) (y : Z) (p : Package) :
  pickups_only t0 w w' → my_hash_packages w !! y = Some p → time_pickup p = t0 →
  ∃ p', my_hash_packages w' !! y = Some p' ∧ time_pickup p' = t0 ∧
        group p' = group p ∧ time_available p' = time_available p.
Proof.
  intros H Hy Ht. destruct (pickups_only_lookup_inv _ _ _ _ _ H Hy)
    as (p' & Hy' & [-> | ->]).
  - exists p. auto.
  - exists (set_time_pickup p t0). split; [done |]. by destruct p.
Qed.

Lemma load_package_pickups (tr : Truck) (w : World) (x : Z) tr' w' :
  x ∈ priority_packages w ∨ x ∈ non_priority_packages w →
  load_package tr w x = Some (tr', w') → pickups_only (truck_time tr) w w'.
Proof.
  intros Hx H. apply load_package_spec in H as (_ & _ & p & Hp & ->).
  repeat split; [].
  intros k. unfold set_package; simpl.
  destruct (decide (k = x)) as [-> | Hne].
  - right. split; [done |]. exists p. split; [done |]. by rewrite lookup_insert_eq.
  - left. by rewrite lookup_insert_ne by congruence.
Qed.


Lemma elem_of_filter_bool (f : Z → bool) (l : list Z) (x : Z) :
  x ∈ List.filter f l ↔ x ∈ l ∧ f x = true.
Proof. rewrite !list_elem_of_In. apply filter_In. Qed.

Lemma filter_has_group_pickups (t0 : Q) (w w' : World) (g : Z) (l : list Z) :
  pickups_only t0 w w' →
  List.filter (has_group (my_hash_packages w') g) l =
  List.filter (has_group (my_hash_packages w) g) l.
Proof. intros H. apply filter_ext. intros y. exact (pickups_only_has_group _ _ _ _ _ H). Qed.

Lemma load_group_spec (g : Z) (tr : Truck) (w : World) (l : list Z) tr' w' :
  (∀ y, y ∈ l → y ∈ priority_packages w ∨ y ∈ non_priority_packages w) →
  load_group g tr w l = Some (tr', w') →
  same_position tr tr' ∧
  packages tr' = packages tr ++ List.filter (has_group (my_hash_packages w) g) l ∧
  pickups_only (truck_time tr) w w' ∧
  ∀ y, y ∈ List.filter (has_group (my_hash_packages w) g) l →
       ∃ p, my_hash_packages w' !! y = Some p ∧ time_pickup p = truck_time tr.
Proof.
  revert tr w. induction l as [|y l IH]; intros tr w Hl; simpl.
  - intros [= <- <-]. rewrite app_nil_r.
    split; [apply same_position_refl |]. split; [done |].
    split; [apply pickups_only_refl |]. intros y Hy. inversion Hy.
  - destruct (lookup_package w y) as [p|] eqn:Hp; [simpl | done].
    assert (Hg : has_group (my_hash_packages w) g y = (group p =? g))
      by (unfold has_group; unfold lookup_package in Hp; by rewrite Hp).
    rewrite Hg.
    destruct (group p =? g) eqn:Eg.
    + destruct (load_package tr w y) as [[tr1 w1]|] eqn:Hload; [simpl | done].
      intros Hrest.
      assert (Hpk : pickups_only (truck_time tr) w w1)
        by (apply (load_package_pickups tr w y tr1 w1); [apply Hl; set_solver | done]).
      pose proof Hload as Hload'.
      apply load_package_spec in Hload' as (Hs1 & Hm1 & p1 & Hp1 & Hw1).
      destruct (IH tr1 w1) as (Hs2 & Hm2 & Hpk2 & Hpick2); [| done |].
      { intros z Hz. destruct Hpk as (-> & -> & _). apply Hl. set_solver. }
      pose proof Hs1 as (_ & _ & _ & Ht1 & _).
      rewrite Ht1 in Hpk2, Hpick2.
      rewrite (filter_has_group_pickups _ _ _ _ _ Hpk) in Hm2, Hpick2.
      split; [eapply same_position_trans; [exact Hs1 | exact Hs2] |].
      split; [rewrite Hm2, Hm1, <- app_assoc; reflexivity |].
      split; [eapply pickups_only_trans; [exact Hpk | exact Hpk2] |].
      intros z Hz. apply elem_of_cons in Hz as [-> | Hz]; [| exact (Hpick2 z Hz)].
      assert (Hy1 : my_hash_packages w1 !! y = Some (set_time_pickup p1 (truck_time tr)))
        by (rewrite Hw1; unfold set_package; simpl; apply lookup_insert_eq).
      destruct (pickups_only_keeps _ _ _ _ _ Hpk2 Hy1) as (p' & Hp' & Ht' & _);
        [by destruct p1 |].
      eauto.
    + intros H. destruct (IH tr w) as (Hs2 & Hm2 & Hpk2 & Hpick2);
        [intros z Hz; apply Hl; set_solver | done |].
      auto.
Qed.

Lemma has_group_lookup (D : gmap Z Package) (g z : Z) (p : Package) :
  D !! z = Some p → has_group D g z = (group p =? g).
Proof. intros H. unfold has_group. by rewrite H. Qed.

Lemma has_group_other (D : gmap Z Package) (g h z : Z) :
  has_group D g z = true → g ≠ h → has_group D h z = false.
Proof.
  unfold has_group. destruct (D !! z) as [p|]; [| done].
  intros Hg Hne. apply Z.eqb_eq in Hg. apply Z.eqb_neq. congruence.
Qed.

(** A package loaded in a pass, with its record in the pass's start
    world [w0]. *)
Lemma pickups_only_group (t0 : Q) (w0 w : World) (z : Z) (p : Package) :
  pickups_only t0 w0 w → my_hash_packages w !! z = Some p →
  ∃ p0, my_hash_packages w0 !! z = Some p0 ∧ group p = group p0 ∧
        time_available p = time_available p0 ∧ id p = id p0.
Proof.
  intros H Hz. destruct (pickups_only_lookup _ _ _ _ _ H Hz) as (p0 & Hz0 & [-> | ->]);
    exists p0; [done |]. by destruct p0.
Qed.

(** Packages already aboard keep their [load_inv] facts when the
    directory changes only by pickup updates at the same time. *)
Lemma aboard_keep (w0 w w' : World) (t0 : Q) (m m' : list Z) :
  pickups_only t0 w w' → m ⊆ m' →
  (∀ x, x ∈ m → ∃ p,
     my_hash_packages w !! x = Some p ∧ time_pickup p = t0 ∧
     (group p = 0 → (time_available p <= t0)%Q) ∧
     (group p ≠ 0 → ∀ y, y ∈ priority_packages w0 →
        has_group (my_hash_packages w0) (group p) y = true → y ∈ m)) →
  ∀ x, x ∈ m → ∃ p,
     my_hash_packages w' !! x = Some p ∧ time_pickup p = t0 ∧
     (group p = 0 → (time_available p <= t0)%Q) ∧
     (group p ≠ 0 → ∀ y, y ∈ priority_packages w0 →
        has_group (my_hash_packages w0) (group p) y = true → y ∈ m').
Proof.
  intros Hpk Hsub Habo x Hx.
  destruct (Habo x Hx) as (p & Hp & Ht & H0 & Hcl).
  destruct (pickups_only_keeps _ _ _ _ _ Hpk Hp Ht) as (p' & Hp' & Ht' & Hg' & Ha').
  exists p'. rewrite Hg', Ha'. split; [done |]. split; [done |]. split; [done |].
  intros Hne y Hy Hhg. apply Hsub. exact (Hcl Hne y Hy Hhg).
Qed.

Lemma load_priority_one_inv (w0 : World) (tr : Truck) (w : World) (x : Z) tr' w' :
  group_bound w0 →
  x ∈ priority_packages w0 →
  length (packages tr) ≠ 16%nat →
  load_inv w0 tr w →
  load_priority_one (priority_packages w0) tr w x = Some (tr', w') →
  load_inv w0 tr' w'.
Proof.
  intros Hgb Hx H16 Hinv. pose proof Hinv as (Hpk & Hlen & Habo & Hblk).
  pose proof Hpk as (HP & HN & HG & HL & _).
  unfold load_priority_one.
  case_bool_decide as Hab; [intros [= <- <-]; exact Hinv |].
  destruct (lookup_package w x) as [p|] eqn:Hp; [simpl | intros [=]].
  unfold lookup_package in Hp.
  destruct (pickups_only_group _ _ _ _ _ Hpk Hp) as (p0 & Hp0 & Hgp & Hap & _).
  destruct ((req_truck p =? truck_id tr) || (req_truck p =? 0));
    [| intros [= <- <-]; exact Hinv].
  destruct (Qle_bool (time_available p) (truck_time tr)) eqn:Hav;
    [| intros [= <- <-]; exact Hinv].
  apply Qle_bool_iff in Hav.
  destruct (group p =? 0) eqn:Hg0.
  - (* a package of group 0 *)
    apply Z.eqb_eq in Hg0. intros Hload.
    assert (Hpk1 : pickups_only (truck_time tr) w w')
      by (apply (load_package_pickups tr w x tr' w'); [left; congruence | done]).
    apply load_package_spec in Hload as (Hs & Hm & p1 & Hp1 & Hw).
    unfold lookup_package in Hp1. rewrite Hp in Hp1. injection Hp1 as <-.
    pose proof Hs as (_ & _ & _ & Ht & _). unfold load_inv. rewrite Ht, Hm.
    split; [eapply pickups_only_trans; [exact Hpk | exact Hpk1] |].
    split; [rewrite length_app; simpl; lia |].
    split.
    + intros z Hz. apply elem_of_app in Hz as [Hz | Hz].
      * eapply (aboard_keep w0 w w' _ (packages tr)); eauto. set_solver.
      * apply list_elem_of_singleton in Hz as ->.
        exists (set_time_pickup p (truck_time tr)).
        rewrite Hw. unfold set_package. simpl. rewrite lookup_insert_eq.
        split; [done |]. split; [done |]. split; [intros _; exact Hav |].
        intros Hne. simpl in Hne. congruence.
    + intros g Hg. assert (Hnx : has_group (my_hash_packages w0) g x = false)
        by (rewrite (has_group_lookup _ _ _ _ Hp0); apply Z.eqb_neq; congruence).
      destruct (Hblk g Hg) as [Hnone | (pre & post & count & Hc & Hm0 & Hle & Hout)].
      * left. intros z Hz. apply elem_of_app in Hz as [Hz | Hz]; [exact (Hnone z Hz) |].
        apply list_elem_of_singleton in Hz as ->. exact Hnx.
      * right. exists pre, (post ++ [x]), count.
        split; [done |]. split; [rewrite Hm0, !app_assoc; reflexivity |].
        split; [done |]. intros z Hz.
        rewrite app_assoc in Hz. apply elem_of_app in Hz as [Hz | Hz];
          [exact (Hout z Hz) |].
        apply list_elem_of_singleton in Hz as ->. exact Hnx.
  - (* a package of a non-zero group: the group branch *)
    apply Z.eqb_neq in Hg0.
    destruct (group_count_dictionary w !! group p) as [count|] eqn:Hc; [simpl | intros [=]].
    rewrite HG in Hc.
    destruct (Z.of_nat (length (packages tr)) + count <=? 16) eqn:Hle;
      [| intros [= <- <-]; exact Hinv].
    apply Z.leb_le in Hle. intros Hload.
    apply load_group_spec in Hload as (Hs & Hm & Hpk1 & Hpick);
      [| intros y Hy; left; congruence].
    rewrite (filter_has_group_pickups _ _ _ _ _ Hpk) in Hm, Hpick.
    pose proof Hs as (_ & _ & _ & Ht & _). unfold load_inv. rewrite Ht, Hm.
    set (mem := List.filter (has_group (my_hash_packages w0) (group p))
                            (priority_packages w0)) in *.
    assert (Hmem : Z.of_nat (length mem) <= count)
      by (apply (Hgb (group p)); [exact Hg0 | exact Hc]).
    split; [eapply pickups_only_trans; [exact Hpk | exact Hpk1] |].
    split; [rewrite length_app; lia |].
    split.
    + intros z Hz. apply elem_of_app in Hz as [Hz | Hz].
      * eapply (aboard_keep w0 w w' _ (packages tr)); eauto. set_solver.
      * destruct (Hpick z Hz) as (pz & Hpz & Htz).
        apply elem_of_filter_bool in Hz as [Hz Hhz].
        destruct (pickups_only_group _ _ _ _ _ (pickups_only_trans _ _ _ _ Hpk Hpk1) Hpz)
          as (pz0 & Hpz0 & Hgz & _ & _).
        rewrite (has_group_lookup _ _ _ _ Hpz0) in Hhz. apply Z.eqb_eq in Hhz.
        exists pz. split; [done |]. split; [done |].
        split; [intros; exfalso; congruence |].
        intros _ y Hy Hhy. apply elem_of_app. right.
        apply elem_of_filter_bool. split; [done |]. congruence.
    + intros h Hh. destruct (decide (h = group p)) as [-> | Hne].
      * (* the admitted group was not aboard before *)
        right. exists (packages tr), [], count.
        split; [done |]. split; [by rewrite app_nil_r |]. split; [done |].
        rewrite app_nil_r.
        destruct (Hblk (group p) Hg0) as [Hnone | (pre & post & c' & _ & Hm0 & _ & _)];
          [exact Hnone |].
        exfalso. apply Hab. rewrite Hm0. apply elem_of_app. right. apply elem_of_app. left.
        apply elem_of_filter_bool. split; [done |].
        rewrite (has_group_lookup _ _ _ _ Hp0). apply Z.eqb_eq. congruence.
      * assert (Hnm : ∀ z, z ∈ mem → has_group (my_hash_packages w0) h z = false).
        { intros z Hz. apply elem_of_filter_bool in Hz as [_ Hz].
          eapply has_group_other; [exact Hz | congruence]. }
        destruct (Hblk h Hh) as [Hnone | (pre & post & c' & Hc' & Hm0 & Hle' & Hout)].
        -- left. intros z Hz. apply elem_of_app in Hz as [Hz | Hz];
             [exact (Hnone z Hz) | exact (Hnm z Hz)].
        -- right. exists pre, (post ++ mem), c'.
           split; [done |]. split; [rewrite Hm0, !app_assoc; reflexivity |].
           split; [done |]. intros z Hz.
           rewrite app_assoc in Hz. apply elem_of_app in Hz as [Hz | Hz];
             [exact (Hout z Hz) | exact (Hnm z Hz)].
Qed.

Lemma subseteq_cons_inv (x : Z) (l L : list Z) :
  x :: l ⊆ L → x ∈ L ∧ l ⊆ L.
Proof.
  intros H. split; [apply H; apply list_elem_of_here |].
  intros z Hz. apply H. by apply list_elem_of_further.
Qed.

(** Loading one package of group 0 keeps [load_inv]. *)
Lemma load_inv_load_package (w0 : World) (tr : Truck) (w : World) (x : Z)
    (p : Package) tr' w' :
  load_inv w0 tr w →
  x ∈ priority_packages w0 ∨ x ∈ non_priority_packages w0 →
  my_hash_packages w !! x = Some p → group p = 0 →
  (time_available p <= truck_time tr)%Q →
  length (packages tr) ≠ 16%nat →
  load_package tr w x = Some (tr', w') →
  load_inv w0 tr' w'.
Proof.
  intros (Hpk & Hlen & Habo & Hblk) Hx Hp Hg0 Hav H16 Hload.
  pose proof Hpk as (HP & HN & _).
  destruct (pickups_only_group _ _ _ _ _ Hpk Hp) as (p0 & Hp0 & Hgp & _ & _).
  assert (Hpk1 : pickups_only (truck_time tr) w w')
    by (apply (load_package_pickups tr w x tr' w'); [rewrite HP, HN; exact Hx | done]).
  apply load_package_spec in Hload as (Hs & Hm & p1 & Hp1 & Hw).
  unfold lookup_package in Hp1. rewrite Hp in Hp1. injection Hp1 as <-.
  pose proof Hs as (_ & _ & _ & Ht & _). unfold load_inv. rewrite Ht, Hm.
  split; [eapply pickups_only_trans; [exact Hpk | exact Hpk1] |].
  split; [rewrite length_app; simpl; lia |].
  split.
  - intros z Hz. apply elem_of_app in Hz as [Hz | Hz].
    + eapply (aboard_keep w0 w w' _ (packages tr)); eauto. set_solver.
    + apply list_elem_of_singleton in Hz as ->.
      exists (set_time_pickup p (truck_time tr)).
      rewrite Hw. unfold set_package. simpl. rewrite lookup_insert_eq.
      split; [done |]. split; [done |]. split; [intros _; exact Hav |].
      intros Hne. simpl in Hne. congruence.
  - intros g Hg. assert (Hnx : has_group (my_hash_packages w0) g x = false)
      by (rewrite (has_group_lookup _ _ _ _ Hp0); apply Z.eqb_neq; congruence).
    destruct (Hblk g Hg) as [Hnone | (pre & post & count & Hc & Hm0 & Hle & Hout)].
    + left. intros z Hz. apply elem_of_app in Hz as [Hz | Hz]; [exact (Hnone z Hz) |].
      apply list_elem_of_singleton in Hz as ->. exact Hnx.
    + right. exists pre, (post ++ [x]), count.
      split; [done |]. split; [rewrite Hm0, !app_assoc; reflexivity |].
      split; [done |]. intros z Hz.
      rewrite app_assoc in Hz. apply elem_of_app in Hz as [Hz | Hz];
        [exact (Hout z Hz) |].
      apply list_elem_of_singleton in Hz as ->. exact Hnx.
Qed.

Lemma load_priority_loop_inv (w0 : World) (tr : Truck) (w : World) (l : list Z) tr' w' :
  group_bound w0 →
  l ⊆ priority_packages w0 →
  load_inv w0 tr w →
  load_priority_loop (priority_packages w0) tr w l = Some (tr', w') →
  load_inv w0 tr' w'.
Proof.
  intros Hgb. revert tr w. induction l as [| x l IH]; intros tr w Hl Hinv; simpl.
  - by intros [= <- <-].
  - destruct (Nat.eqb (length (packages tr)) 16) eqn:H16; [by intros [= <- <-] |].
    apply Nat.eqb_neq in H16.
    destruct (load_priority_one (priority_packages w0) tr w x) as [[tr1 w1]|] eqn:H1;
      [simpl | intros [=]].
    apply subseteq_cons_inv in Hl as [Hx Hl].
    apply IH; [exact Hl |].
    eapply load_priority_one_inv; [exact Hgb | exact Hx | exact H16 | exact Hinv | exact H1].
Qed.

Lemma load_non_priority_loop_inv (w0 : World) (tr : Truck) (w : World) (l : list Z) tr' w' :
  keys_ids w0 → nonprio_group0 w0 →
  l ⊆ non_priority_packages w0 →
  load_inv w0 tr w →
  load_non_priority_loop tr w l = Some (tr', w') →
  load_inv w0 tr' w'.
Proof.
  intros Hkeys Hng. revert tr w. induction l as [| y l IH]; intros tr w Hl Hinv; simpl.
  - by intros [= <- <-].
  - destruct (Nat.eqb (length (packages tr)) 16) eqn:H16; [by intros [= <- <-] |].
    apply Nat.eqb_neq in H16. apply subseteq_cons_inv in Hl as [Hy Hl].
    destruct (lookup_package w y) as [p|] eqn:Hp; [simpl | intros [=]].
    unfold lookup_package in Hp.
    destruct (Qle_bool (time_available p) (truck_time tr)) eqn:Hav;
      [| apply IH; [exact Hl | exact Hinv]].
    apply Qle_bool_iff in Hav.
    pose proof Hinv as (Hpk & _).
    destruct (pickups_only_group _ _ _ _ _ Hpk Hp) as (p0 & Hp0 & Hgp & _ & Hid).
    rewrite Hid, (Hkeys _ _ Hp0).
    destruct (load_package tr w y) as [[tr1 w1]|] eqn:H1; [simpl | intros [=]].
    apply IH; [exact Hl |].
    eapply load_inv_load_package; [exact Hinv | right; exact Hy | exact Hp | | exact Hav
                                  | exact H16 | exact H1].
    rewrite Hgp. exact (Hng _ _ Hy Hp0).
Qed.

Lemma load_inv_start (w0 : World) (tr : Truck) :
  packages tr = [] → load_inv w0 tr w0.
Proof.
  intros Hm. unfold load_inv. rewrite Hm.
  split; [apply pickups_only_refl |]. split; [simpl; lia |].
  split; [intros x Hx; set_solver |].
  intros g _. left. intros x Hx. set_solver.
Qed.

(** A whole [load_truck] pass on an empty truck. *)
Lemma load_truck_inv (w0 : World) (tr : Truck) tr' w' :
  keys_ids w0 → nonprio_group0 w0 → group_bound w0 →
  packages tr = [] →
  load_truck tr w0 = Some (tr', w') →
  load_inv w0 tr' w'.
Proof.
  intros Hkeys Hng Hgb Hm. unfold load_truck.
  destruct (load_priority_loop (priority_packages w0) tr w0 (priority_packages w0))
    as [[tr1 w1]|] eqn:H1; [simpl | intros [=]].
  apply load_non_priority_loop_inv; [done | done | done |].
  eapply load_priority_loop_inv; [exact Hgb | done | | exact H1].
  by apply load_inv_start.
Qed.

(* ------------------------------------------------------------------ *)
(** ** The pools and the directory along a run *)

Lemma remove_first_sublist (x : Z) (l : list Z) : remove_first x l `sublist_of` l.
Proof.
  induction l as [|y l IH]; simpl; [constructor |].
  destruct (y =? x); [apply sublist_cons; reflexivity | by apply sublist_skip].
Qed.

Lemma remove_first_elem (x y : Z) (l : list Z) : y ∈ remove_first x l → y ∈ l.
Proof. intros H. eapply elem_of_sublist; [exact H | apply remove_first_sublist]. Qed.

Lemma remove_first_elem_ne (x y : Z) (l : list Z) :
  y ∈ l → y ≠ x → y ∈ remove_first x l.
Proof.
  induction l as [|z l IH]; simpl; [by intros ?%not_elem_of_nil |].
  intros Hy Hne. apply elem_of_cons in Hy.
  destruct (z =? x) eqn:E.
  - apply Z.eqb_eq in E. subst z. destruct Hy as [-> | Hy]; [done | exact Hy].
  - apply elem_of_cons. destruct Hy as [-> | Hy]; [by left | right; auto].
Qed.

Lemma remove_first_nodup (x y : Z) (l : list Z) :
  NoDup l → y ∈ remove_first x l → y ≠ x.
Proof.
  induction l as [|z l IH]; simpl; [by intros _ ?%not_elem_of_nil |].
  intros Hnd Hy. apply NoDup_cons in Hnd as [Hz Hnd].
  destruct (z =? x) eqn:E.
  - apply Z.eqb_eq in E. subst z. intros ->. exact (Hz Hy).
  - apply elem_of_cons in Hy as [-> | Hy]; [apply Z.eqb_neq in E; congruence | auto].
Qed.

Lemma remove_first_length (x : Z) (l : list Z) :
  (length (remove_first x l) <= length l)%nat.
Proof.
  induction l as [|y l IH]; simpl; [lia |]. destruct (y =? x); simpl; lia.
Qed.

Lemma filter_sublist_length (f : Z → bool) (l1 l2 : list Z) :
  l1 `sublist_of` l2 → (length (List.filter f l1) <= length (List.filter f l2))%nat.
Proof.
  induction 1 as [| x l1 l2 _ IH | x l1 l2 _ IH]; simpl; [lia | |];
    destruct (f x); simpl; lia.
Qed.

Lemma remove_from_pools_spec (w : World) (x : Z) :
  let w' := remove_from_pools w x in
  my_hash_packages w' = my_hash_packages w ∧
  group_count_dictionary w' = group_count_dictionary w ∧
  locations w' = locations w ∧
  priority_packages w' `sublist_of` priority_packages w ∧
  non_priority_packages w' `sublist_of` non_priority_packages w ∧
  (∀ k, k ∈ priority_packages w → k ≠ x → k ∈ priority_packages w') ∧
  (∀ k, k ∈ non_priority_packages w → k ≠ x → k ∈ non_priority_packages w') ∧
  (NoDup (priority_packages w) → ∀ k, k ∈ priority_packages w' → k ≠ x).
Proof.
  unfold remove_from_pools.
  case_bool_decide as HP; [| case_bool_decide as HN]; simpl;
    (split; [done |]); (split; [done |]); (split; [done |]).
  - split; [apply remove_first_sublist |]. split; [reflexivity |].
    split; [intros k Hk Hne; exact (remove_first_elem_ne _ _ _ Hk Hne) |].
    split; [intros k Hk _; exact Hk |].
    intros Hnd k Hk. exact (remove_first_nodup _ _ _ Hnd Hk).
  - split; [reflexivity |]. split; [apply remove_first_sublist |].
    split; [intros k Hk _; exact Hk |].
    split; [intros k Hk Hne; exact (remove_first_elem_ne _ _ _ Hk Hne) |].
    intros _ k Hk ->. exact (HP Hk).
  - split; [reflexivity |]. split; [reflexivity |].
    split; [intros k Hk _; exact Hk |]. split; [intros k Hk _; exact Hk |].
    intros _ k Hk ->. exact (HP Hk).
Qed.

Lemma dir_like_lookup (D D' : gmap Z Package) (k : Z) (p' : Package) :
  dir_like D D' → D' !! k = Some p' →
  ∃ p, D !! k = Some p ∧ id p' = id p ∧ group p' = group p.
Proof.
  intros H Hk. specialize (H k). rewrite Hk in H.
  destruct (D !! k) as [p|]; simpl in H; [| discriminate].
  injection H as ? ?. eauto.
Qed.

Lemma dir_like_has_group (D D' : gmap Z Package) (g y : Z) :
  dir_like D D' → has_group D' g y = has_group D g y.
Proof.
  intros H. specialize (H y). unfold has_group.
  destruct (D' !! y), (D !! y); simpl in H; try discriminate; [| done].
  injection H as _ ->. reflexivity.
Qed.

Lemma pickups_only_dir_like (t0 : Q) (w w' : World) :
  pickups_only t0 w w' → dir_like (my_hash_packages w) (my_hash_packages w').
Proof.
  intros (_ & _ & _ & _ & H) k. destruct (H k) as [-> | [_ (p & -> & ->)]]; [done |].
  by destruct p.
Qed.

Lemma dir_like_set_delivered (D : gmap Z Package) (x : Z) (p : Package) (t : Q) :
  D !! x = Some p → dir_like D (<[x := set_time_delivered p t]> D).
Proof.
  intros Hx k. destruct (decide (k = x)) as [-> | Hne].
  - rewrite lookup_insert_eq, Hx. by destruct p.
  - by rewrite lookup_insert_ne by congruence.
Qed.

Lemma world_ok_transfer (w w' : World) :
  world_ok w →
  dir_like (my_hash_packages w) (my_hash_packages w') →
  group_count_dictionary w' = group_count_dictionary w →
  locations w' = locations w →
  priority_packages w' `sublist_of` priority_packages w →
  non_priority_packages w' `sublist_of` non_priority_packages w →
  world_ok w'.
Proof.
  intros (Hkeys & Hng & Hgb & Hnn & HndP & HndN & Hdisj) Hd HG HL HP HN.
  split; [| split; [| split; [| split; [| split; [| split]]]]].
  - intros k p' Hk. destruct (dir_like_lookup _ _ _ _ Hd Hk) as (p & Hp & -> & _).
    exact (Hkeys _ _ Hp).
  - intros y p' Hy Hk. destruct (dir_like_lookup _ _ _ _ Hd Hk) as (p & Hp & _ & ->).
    exact (Hng y p (elem_of_sublist _ _ _ Hy HN) Hp).
  - intros g count Hg Hc. rewrite HG in Hc.
    rewrite (filter_ext _ _ (λ y, dir_like_has_group _ _ g y Hd)).
    pose proof (filter_sublist_length (has_group (my_hash_packages w) g) _ _ HP).
    specialize (Hgb g count Hg Hc). lia.
  - unfold nonneg_distances. rewrite HL. exact Hnn.
  - exact (sublist_NoDup _ _ HndP HP).
  - exact (sublist_NoDup _ _ HndN HN).
  - intros x Hx HxN. apply (Hdisj x); [exact (elem_of_sublist _ _ _ Hx HP) |].
    exact (elem_of_sublist _ _ _ HxN HN).
Qed.

Lemma set_delivered_lookup (D : gmap Z Package) (x : Z) (p : Package) (t : Q)
    (z : Z) (p1 : Package) :
  D !! x = Some p → <[x := set_time_delivered p t]> D !! z = Some p1 →
  ∃ p0, D !! z = Some p0 ∧ time_pickup p1 = time_pickup p0 ∧
        group p1 = group p0 ∧ time_available p1 = time_available p0.
Proof.
  intros Hx Hz. destruct (decide (z = x)) as [-> | Hne].
  - rewrite lookup_insert_eq in Hz. injection Hz as <-. by exists p.
  - rewrite lookup_insert_ne in Hz by congruence. by exists p1.
Qed.

Lemma set_delivered_lookup_inv (D : gmap Z Package) (x : Z) (p : Package) (t : Q)
    (z : Z) (p0 : Package) :
  D !! x = Some p → D !! z = Some p0 →
  ∃ p1, <[x := set_time_delivered p t]> D !! z = Some p1 ∧
        time_pickup p1 = time_pickup p0 ∧
        group p1 = group p0 ∧ time_available p1 = time_available p0.
Proof.
  intros Hx Hz. destruct (decide (z = x)) as [-> | Hne].
  - rewrite lookup_insert_eq. rewrite Hx in Hz. injection Hz as <-.
    by eexists.
  - rewrite lookup_insert_ne by congruence. by exists p0.
Qed.

Lemma group_sync_same_world (c c' : Config) (g : Z) :
  cfg_world c' = cfg_world c → (∀ k, aboard_now c' k ↔ aboard_now c k) →
  group_sync c g → group_sync c' g.
Proof.
  intros Hw Ha. unfold group_sync. rewrite Hw.
  intros [H | (t & H)]; [left | right; exists t]; intros k p Hk Hg;
    specialize (H k p Hk Hg); rewrite Ha; exact H.
Qed.

Lemma pools_empty_spec (w : World) :
  pools_empty w = true →
  priority_packages w = [] ∧ non_priority_packages w = [].
Proof.
  unfold pools_empty.
  destruct (priority_packages w), (non_priority_packages w); done.
Qed.

Lemma return_to_hub_spec (tr : Truck) (w : World) tr' :
  return_to_hub tr w = Some tr' → ∃ d, tr' = travel tr d 0.
Proof.
  unfold return_to_hub. destruct (distance_between w _ 0) as [d|]; [simpl | done].
  intros [= <-]. by exists d.
Qed.

Lemma run_inv_start (w : World) (trucks : list Truck) :
  route_ready w trucks → run_inv (route_start w trucks).
Proof.
  intros (Hok & Hall & Htr). pose proof Hok as (_ & Hng & _).
  unfold run_inv, route_start. cbn [cfg_world cfg_done cfg_todo cfg_phase].
  split; [exact Hok |]. split; [rewrite app_nil_r; exact Htr |].
  split.
  - intros k p Hk HkP HkN. destruct (Hall k p Hk); contradiction.
  - split; [| exact I]. intros g Hg. left. intros k p Hk Hgk.
    split; [| intros []].
    destruct (Hall k p Hk) as [HkP | HkN]; [exact HkP |].
    exfalso. apply Hg. rewrite <- Hgk. exact (Hng k p HkN Hk).
Qed.

(** The step at the head of the [for] loop that loads a truck. *)
Lemma run_inv_load (w : World) (d : list Truck) (tr : Truck) (rest : list Truck) tr1 w1 :
  run_inv (mkConfig w d NextTruck (tr :: rest)) →
  load_truck tr w = Some (tr1, w1) →
  run_inv (mkConfig w1 d (Draining tr1) rest).
Proof.
  unfold run_inv. cbn [cfg_world cfg_done cfg_todo cfg_phase].
  intros (Hok & Htr & Hch & Hsync & _) Hload.
  pose proof Hok as (Hkeys & Hng & Hgb & _).
  assert (Htr0 : packages tr = [] ∧ (0 < rate tr)%Q)
    by (apply Htr; apply elem_of_app; right; apply elem_of_cons; by left).
  pose proof (load_truck_inv w tr tr1 w1 Hkeys Hng Hgb (proj1 Htr0) Hload)
    as (Hpk & Hlen & Habo & Hblk).
  pose proof (load_truck_same_position _ _ _ _ Hload) as (_ & _ & _ & _ & Hr).
  pose proof Hpk as (HP & HN & HG & HL & Hupd).
  split.
  { eapply world_ok_transfer; [exact Hok | exact (pickups_only_dir_like _ _ _ Hpk)
      | exact HG | exact HL | rewrite HP; reflexivity | rewrite HN; reflexivity]. }
  split.
  { intros tr' Htr'. apply Htr. apply elem_of_app in Htr' as [H | H];
      apply elem_of_app; [by left | right; by apply elem_of_cons; right]. }
  split.
  { intros k p Hk HkP HkN. rewrite HP in HkP. rewrite HN in HkN.
    destruct (Hupd k) as [E | [[Hin | Hin] _]]; [| contradiction | contradiction].
    rewrite E in Hk. exact (Hch k p Hk HkP HkN). }
  split.
  { intros g Hg. unfold group_sync. cbn [cfg_world cfg_phase aboard_now].
    unfold aboard_now. cbn [cfg_phase].
    destruct (Hsync g Hg) as [Hpend | (t & Hpicked)].
    - destruct (Hblk g Hg) as [Hnone | (pre & post & count & _ & Hm0 & _ & _)].
      + left. intros k p' Hk Hgk.
        destruct (pickups_only_group _ _ _ _ _ Hpk Hk) as (p0 & Hp0 & Hgp & _ & _).
        destruct (Hpend k p0 Hp0 ltac:(congruence)) as [HkP _].
        split; [rewrite HP; exact HkP |]. intros Hab.
        specialize (Hnone k Hab). rewrite (has_group_lookup _ _ _ _ Hp0) in Hnone.
        apply Z.eqb_neq in Hnone. congruence.
      + right. exists (truck_time tr1). intros k p' Hk Hgk.
        destruct (pickups_only_group _ _ _ _ _ Hpk Hk) as (p0 & Hp0 & Hgp & _ & _).
        destruct (Hpend k p0 Hp0 ltac:(congruence)) as [HkP _].
        assert (Hab : k ∈ packages tr1).
        { rewrite Hm0. apply elem_of_app. right. apply elem_of_app. left.
          apply elem_of_filter_bool. split; [exact HkP |].
          rewrite (has_group_lookup _ _ _ _ Hp0). apply Z.eqb_eq. congruence. }
        destruct (Habo k Hab) as (p1 & Hp1 & Ht1 & _).
        rewrite Hk in Hp1. injection Hp1 as <-. split; [exact Ht1 | intros _; exact Hab].
    - right. exists t. intros k p' Hk Hgk.
      destruct (pickups_only_lookup _ _ _ _ _ Hpk Hk) as (p0 & Hp0 & Hp').
      assert (Hg0 : group p0 = g) by (destruct Hp' as [-> | ->]; [exact Hgk | exact Hgk]).
      destruct (Hpicked k p0 Hp0 Hg0) as [Ht HkP].
      destruct (Hupd k) as [E | [[Hin | Hin] _]].
      + rewrite E, Hp0 in Hk. injection Hk as <-. split; [exact Ht |].
        rewrite HP. intros Hin. destruct (HkP Hin).
      + destruct (HkP Hin).
      + exfalso. apply Hg. rewrite <- Hg0. exact (Hng k p0 Hin Hp0). }
  split; [exact Hlen |]. split; [rewrite Hr; exact (proj2 Htr0) |].
  intros x Hx. destruct (Habo x Hx) as (p & Hp & Ht & H0 & Hcl).
  exists p. split; [exact Hp |]. split; [rewrite Ht; apply Qle_refl |].
  split; [intros Hg0; rewrite Ht; exact (H0 Hg0) |].
  intros Hne y Hy Hhy. rewrite HP in Hy.
  rewrite (pickups_only_has_group _ _ _ _ _ Hpk) in Hhy. exact (Hcl Hne y Hy Hhy).
Qed.

(** One iteration of the inner [while]: the nearest package leaves its
    pool, then [deliver_package]. *)
Lemma run_inv_deliver (w : World) (d : list Truck) (tr : Truck) (todo : list Truck)
    (x : Z) tr1 w1 :
  run_inv (mkConfig w d (Draining tr) todo) →
  deliver_package tr (remove_from_pools w x) x = Some (tr1, w1) →
  run_inv (mkConfig w1 d (Draining tr1) todo).
Proof.
  unfold run_inv. cbn [cfg_world cfg_done cfg_todo cfg_phase].
  intros (Hok & Htr & Hch & Hsync & Hab) Hdel.
  pose proof Hok as (_ & _ & _ & Hnn & HndP & _).
  destruct (remove_from_pools_spec w x)
    as (HD & HG & HL & HsP & HsN & HinP & HinN & HnotP).
  apply deliver_package_spec in Hdel as (p & dd & Hp & Hw1 & Hdist & Hx & Htr1).
  unfold lookup_package in Hp. rewrite HD in Hp.
  set (wr := remove_from_pools w x) in *.
  set (t := truck_time tr) in *.
  assert (HD1 : my_hash_packages w1 = <[x := set_time_delivered p t]> (my_hash_packages w))
    by (rewrite Hw1; simpl; rewrite HD; reflexivity).
  assert (HP1 : priority_packages w1 = priority_packages wr) by (rewrite Hw1; reflexivity).
  assert (HN1 : non_priority_packages w1 = non_priority_packages wr) by (rewrite Hw1; reflexivity).
  pose proof Hab as (Hlen & Hrate & Habo).
  assert (Hdd : (0 <= dd)%Q).
  { eapply distance_between_nonneg; [| exact Hdist].
    unfold nonneg_distances. rewrite HL. exact Hnn. }
  assert (Htt : (t <= truck_time tr1)%Q)
    by (rewrite Htr1; exact (proj1 (travel_le tr dd (loc_id p) Hdd Hrate))).
  assert (Hm1 : packages tr1 = remove_first x (packages tr)) by (rewrite Htr1; reflexivity).
  split.
  { eapply world_ok_transfer; [exact Hok | rewrite HD1; exact (dir_like_set_delivered _ _ _ _ Hp)
      | rewrite Hw1; exact HG | rewrite Hw1; exact HL | rewrite HP1; exact HsP
      | rewrite HN1; exact HsN]. }
  split; [exact Htr |].
  split.
  { intros k p' Hk HkP HkN. rewrite HD1 in Hk. rewrite HP1 in HkP. rewrite HN1 in HkN.
    destruct (decide (k = x)) as [-> | Hne].
    - rewrite lookup_insert_eq in Hk. injection Hk as <-. simpl.
      destruct (Habo x Hx) as (px & Hpx & Hpick & H0 & _).
      rewrite Hp in Hpx. injection Hpx as <-. split; [exact Hpick | exact H0].
    - rewrite lookup_insert_ne in Hk by congruence.
      apply (Hch k p' Hk).
      + intros HkP0. exact (HkP (HinP k HkP0 Hne)).
      + intros HkN0. exact (HkN (HinN k HkN0 Hne)). }
  split.
  { intros g Hg. unfold group_sync, aboard_now. cbn [cfg_world cfg_phase].
    rewrite HD1, HP1, Hm1.
    destruct (Hsync g Hg) as [Hpend | (t0 & Hpicked)];
      unfold aboard_now in *; cbn [cfg_world cfg_phase] in *.
    - left. intros k p1 Hk Hgk.
      destruct (set_delivered_lookup _ _ _ _ _ _ Hp Hk) as (p0 & Hp0 & _ & Hg0 & _).
      destruct (Hpend k p0 Hp0 ltac:(congruence)) as [HkP Hnot].
      assert (Hne : k ≠ x) by (intros ->; exact (Hnot Hx)).
      split; [exact (HinP k HkP Hne) |].
      intros Hin. exact (Hnot (remove_first_elem _ _ _ Hin)).
    - right. exists t0. intros k p1 Hk Hgk.
      destruct (set_delivered_lookup _ _ _ _ _ _ Hp Hk) as (p0 & Hp0 & Ht0 & Hg0 & _).
      destruct (Hpicked k p0 Hp0 ltac:(congruence)) as [Ht HkP].
      split; [congruence |]. intros HkP1.
      apply remove_first_elem_ne; [| exact (HnotP HndP k HkP1)].
      apply HkP. exact (elem_of_sublist _ _ _ HkP1 HsP). }
  split; [rewrite Hm1; pose proof (remove_first_length x (packages tr)); lia |].
  split; [rewrite Htr1; exact Hrate |].
  intros z Hz. rewrite Hm1 in Hz.
  destruct (Habo z (remove_first_elem _ _ _ Hz)) as (pz & Hpz & Hpick & H0 & Hcl).
  destruct (set_delivered_lookup_inv _ _ _ t _ _ Hp Hpz) as (p1 & Hp1 & Ht1 & Hg1 & Ha1).
  exists p1. rewrite HD1, Ht1, Hg1, Ha1. split; [exact Hp1 |].
  split; [eapply Qle_trans; [exact Hpick | exact Htt] |].
  split; [exact H0 |].
  intros Hne y Hy Hhy. rewrite HP1 in Hy. rewrite Hm1.
  rewrite <- HD1, (dir_like_has_group (my_hash_packages w)) in Hhy;
    [| rewrite HD1; exact (dir_like_set_delivered _ _ _ _ Hp)].
  apply remove_first_elem_ne; [| exact (HnotP HndP y Hy)].
  exact (Hcl Hne y (elem_of_sublist _ _ _ Hy HsP) Hhy).
Qed.

Lemma run_step_inv (c c' : Config) :
  run_inv c → run_step c = Some c' → run_inv c'.
Proof.
  destruct c as [w d ph todo]. unfold run_step. cbn [cfg_world cfg_done cfg_todo cfg_phase].
  intros Hinv. pose proof Hinv as (Hok & Htr & Hch & Hsync & Hph).
  cbn [cfg_world cfg_done cfg_todo cfg_phase] in *.
  destruct ph as [| | tr |].
  - destruct (pools_empty w) eqn:He; intros [= <-].
    + split; [exact Hok |]. split.
      { intros tr Htr'. apply Htr. cbn in Htr'. rewrite app_nil_r in Htr'.
        apply elem_of_app. by left. }
      split; [exact Hch |]. split; [| exact (pools_empty_spec w He)].
      intros g Hg. refine (group_sync_same_world _ _ g _ _ (Hsync g Hg)); [reflexivity |].
      intros k. reflexivity.
    + split; [exact Hok |]. split.
      { intros tr Htr'. apply Htr. cbn in Htr'. apply elem_of_app. by left. }
      split; [exact Hch |]. split; [| exact I].
      intros g Hg. refine (group_sync_same_world _ _ g _ _ (Hsync g Hg)); [reflexivity |].
      intros k. reflexivity.
  - destruct todo as [| tr rest].
    + intros [= <-]. split; [exact Hok |]. split; [exact Htr |].
      split; [exact Hch |]. split; [| exact I].
      intros g Hg. refine (group_sync_same_world _ _ g _ _ (Hsync g Hg)); [reflexivity |].
      intros k. reflexivity.
    + destruct (load_truck tr w) as [[tr1 w1]|] eqn:Hl; [simpl | intros [=]].
      intros [= <-]. exact (run_inv_load _ _ _ _ _ _ Hinv Hl).
  - destruct (packages tr) as [| y m] eqn:Hm.
    + destruct (return_to_hub tr w) as [tr1|] eqn:Hr; [simpl | intros [=]].
      intros [= <-]. apply return_to_hub_spec in Hr as (dd & ->).
      split; [exact Hok |]. split.
      { intros tr' Htr'. cbn in Htr'. rewrite <- app_assoc in Htr'.
        apply elem_of_app in Htr' as [H | H]; [apply Htr, elem_of_app; by left |].
        apply elem_of_app in H as [H | H]; [| apply Htr, elem_of_app; by right].
        apply list_elem_of_singleton in H as ->. simpl.
        split; [exact Hm | exact (proj1 (proj2 Hph))]. }
      split; [exact Hch |]. split; [| exact I].
      intros g Hg. refine (group_sync_same_world _ _ g _ _ (Hsync g Hg)); [reflexivity |].
      intros k. unfold aboard_now. cbn [cfg_phase]. rewrite Hm.
      split; [intros [] | intros ?%not_elem_of_nil; done].
    + destruct (find_shortest_distance tr w) as [x|]; [simpl | intros [=]].
      destruct (deliver_package tr (remove_from_pools w x) x) as [[tr1 w1]|] eqn:Hd;
        [simpl | intros [=]].
      intros [= <-]. exact (run_inv_deliver _ _ _ _ _ _ _ Hinv Hd).
  - intros [=].
Qed.

Lemma run_reaches_inv (c c' : Config) :
  run_inv c → run_reaches c c' → run_inv c'.
Proof.
  intros Hinv Hr. induction Hr as [c | c c1 c' Hs _ IH]; [exact Hinv |].
  apply IH. exact (run_step_inv _ _ Hinv Hs).
Qed.

Lemma route_reaches_inv (w : World) (trucks : list Truck) (c : Config) :
  route_ready w trucks → run_reaches (route_start w trucks) c → run_inv c.
Proof. intros Hr. apply run_reaches_inv. exact (run_inv_start _ _ Hr). Qed.

(* ------------------------------------------------------------------ *)
(** ** A loading pass only appends to the manifest *)

Lemma load_priority_loop_app (prio : list Z) (tr : Truck) (w : World) (l1 l2 : list Z) :
  load_priority_loop prio tr w (l1 ++ l2) =
  '(tr1, w1) ← load_priority_loop prio tr w l1; load_priority_loop prio tr1 w1 l2.
Proof.
  revert tr w. induction l1 as [| x l1 IH]; intros tr w; simpl; [reflexivity |].
  destruct (Nat.eqb (length (packages tr)) 16) eqn:H16.
  - simpl. destruct l2 as [| y l2]; simpl; [reflexivity |]. by rewrite H16.
  - destruct (load_priority_one prio tr w x) as [[tr1 w1]|]; simpl; [apply IH | reflexivity].
Qed.

Lemma load_package_prefix (tr : Truck) (w : World) (x : Z) tr' w' :
  load_package tr w x = Some (tr', w') → ∃ s, packages tr' = packages tr ++ s.
Proof. intros H. apply load_package_spec in H as (_ & -> & _). by eexists. Qed.

Lemma load_group_prefix (g : Z) (tr : Truck) (w : World) (l : list Z) tr' w' :
  load_group g tr w l = Some (tr', w') → ∃ s, packages tr' = packages tr ++ s.
Proof.
  revert tr w. induction l as [| y l IH]; intros tr w; simpl.
  - intros [= <- _]. exists []. by rewrite app_nil_r.
  - destruct (lookup_package w y) as [p|]; [simpl | intros [=]].
    destruct (group p =? g); [| apply IH].
    destruct (load_package tr w y) as [[tr1 w1]|] eqn:H1; [simpl | intros [=]].
    intros H. destruct (load_package_prefix _ _ _ _ _ H1) as (s1 & E1).
    destruct (IH _ _ H) as (s2 & E2). exists (s1 ++ s2). by rewrite E2, E1, app_assoc.
Qed.

Lemma load_priority_one_prefix (prio : list Z) (tr : Truck) (w : World) (x : Z) tr' w' :
  load_priority_one prio tr w x = Some (tr', w') → ∃ s, packages tr' = packages tr ++ s.
Proof.
  assert (Hkeep : packages tr = packages tr ++ []) by (by rewrite app_nil_r).
  unfold load_priority_one.
  case_bool_decide; [intros [= <- _]; by eexists |].
  destruct (lookup_package w x) as [p|]; [simpl | intros [=]].
  destruct (_ || _); [| intros [= <- _]; by eexists].
  destruct (Qle_bool _ _); [| intros [= <- _]; by eexists].
  destruct (group p =? 0); [apply load_package_prefix |].
  destruct (group_count_dictionary w !! group p) as [count|]; [simpl | intros [=]].
  destruct (_ <=? 16); [apply load_group_prefix | intros [= <- _]; by eexists].
Qed.

Lemma load_priority_loop_prefix (prio : list Z) (tr : Truck) (w : World) (l : list Z) tr' w' :
  load_priority_loop prio tr w l = Some (tr', w') → ∃ s, packages tr' = packages tr ++ s.
Proof.
  revert tr w. induction l as [| x l IH]; intros tr w; simpl.
  - intros [= <- _]. exists []. by rewrite app_nil_r.
  - destruct (Nat.eqb _ 16); [intros [= <- _]; exists []; by rewrite app_nil_r |].
    destruct (load_priority_one prio tr w x) as [[tr1 w1]|] eqn:H1; [simpl | intros [=]].
    intros H. destruct (load_priority_one_prefix _ _ _ _ _ _ H1) as (s1 & E1).
    destruct (IH _ _ H) as (s2 & E2). exists (s1 ++ s2). by rewrite E2, E1, app_assoc.
Qed.

Lemma load_non_priority_loop_prefix (tr : Truck) (w : World) (l : list Z) tr' w' :
  load_non_priority_loop tr w l = Some (tr', w') → ∃ s, packages tr' = packages tr ++ s.
Proof.
  revert tr w. induction l as [| x l IH]; intros tr w; simpl.
  - intros [= <- _]. exists []. by rewrite app_nil_r.
  - destruct (Nat.eqb _ 16); [intros [= <- _]; exists []; by rewrite app_nil_r |].
    destruct (lookup_package w x) as [p|]; [simpl | intros [=]].
    destruct (Qle_bool _ _); [| apply IH].
    destruct (load_package tr w (id p)) as [[tr1 w1]|] eqn:H1; [simpl | intros [=]].
    intros H. destruct (load_package_prefix _ _ _ _ _ H1) as (s1 & E1).
    destruct (IH _ _ H) as (s2 & E2). exists (s1 ++ s2). by rewrite E2, E1, app_assoc.
Qed.

(** A prefix of [pre ++ blk ++ post] with no element of the non-empty
    block [blk] ends inside [pre]. *)
Lemma prefix_before_block (f : Z → bool) (m1 s pre blk post : list Z) :
  m1 ++ s = pre ++ blk ++ post →
  (∀ y, y ∈ m1 → f y = false) → (∀ y, y ∈ blk → f y = true) → blk ≠ [] →
  (length m1 <= length pre)%nat.
Proof.
  intros E Hm Hb Hne.
  destruct (decide (length m1 <= length pre)%nat) as [| Hlt]; [done | exfalso].
  destruct blk as [| b blk]; [done |].
  assert (H1 : (pre ++ (b :: blk) ++ post) !! length pre = Some b)
    by (rewrite lookup_app_r by lia; by rewrite Nat.sub_diag).
  rewrite <- E, lookup_app_l in H1 by lia.
  apply list_elem_of_lookup_2 in H1. specialize (Hm b H1).
  rewrite Hb in Hm; [discriminate | apply list_elem_of_here].
Qed.

(** Once a group fails the capacity test of the group branch while none
    of its packages is aboard, the rest of the pass loads none of them:
    the manifest only grows. *)
Lemma group_excluded (w0 : World) (tr : Truck) (l1 : list Z) (x : Z) (l2 : list Z)
    tr1 w1 (g count : Z) tr' w' :
  keys_ids w0 → nonprio_group0 w0 → group_bound w0 → packages tr = [] →
  priority_packages w0 = l1 ++ x :: l2 →
  load_priority_loop (priority_packages w0) tr w0 l1 = Some (tr1, w1) →
  has_group (my_hash_packages w0) g x = true → g ≠ 0 →
  x ∉ packages tr1 →
  group_count_dictionary w0 !! g = Some count →
  16 < Z.of_nat (length (packages tr1)) + count →
  load_truck tr w0 = Some (tr', w') →
  ∀ y, y ∈ packages tr' → has_group (my_hash_packages w0) g y = false.
Proof.
  intros Hkeys Hng Hgb Hm0 HP0 Hl1 Hgx Hg Hx Hc Hover Hload.
  assert (Hx0 : x ∈ priority_packages w0)
    by (rewrite HP0; apply elem_of_app; right; apply list_elem_of_here).
  assert (Hinv1 : load_inv w0 tr1 w1).
  { eapply load_priority_loop_inv; [exact Hgb | | apply load_inv_start; exact Hm0 | exact Hl1].
    intros z Hz. rewrite HP0. apply elem_of_app. by left. }
  pose proof Hinv1 as (_ & _ & _ & Hblk1).
  assert (Hnone1 : ∀ y, y ∈ packages tr1 → has_group (my_hash_packages w0) g y = false).
  { destruct (Hblk1 g Hg) as [Hnone | (pre & post & c' & _ & Hm & _ & _)]; [exact Hnone |].
    exfalso. apply Hx. rewrite Hm. apply elem_of_app. right. apply elem_of_app. left.
    apply elem_of_filter_bool. by split. }
  pose proof (load_truck_inv w0 tr tr' w' Hkeys Hng Hgb Hm0 Hload) as (_ & _ & _ & Hblk).
  destruct (Hblk g Hg) as [Hnone | (pre & post & c' & Hc' & Hm & Hle & _)]; [exact Hnone |].
  exfalso. rewrite Hc in Hc'. injection Hc' as <-.
  assert (Hpre : ∃ s, packages tr' = packages tr1 ++ s).
  { revert Hload. unfold load_truck. rewrite HP0 at 2. rewrite load_priority_loop_app, Hl1.
    cbn -[load_priority_loop load_non_priority_loop].
    destruct (load_priority_loop (priority_packages w0) tr1 w1 (x :: l2)) as [[tr2 w2]|] eqn:H2;
      [simpl | intros [=]].
    intros H3. destruct (load_priority_loop_prefix _ _ _ _ _ _ H2) as (s1 & E1).
    destruct (load_non_priority_loop_prefix _ _ _ _ _ H3) as (s2 & E2).
    exists (s1 ++ s2). by rewrite E2, E1, app_assoc. }
  destruct Hpre as (s & Es).
  assert (Hlen : (length (packages tr1) <= length pre)%nat).
  { eapply (prefix_before_block (has_group (my_hash_packages w0) g));
      [rewrite <- Es; exact Hm | exact Hnone1 | |].
    - intros y Hy. by apply elem_of_filter_bool in Hy as [_ ?].
    - intros E. assert (Hin : x ∈ List.filter (has_group (my_hash_packages w0) g)
                                              (priority_packages w0))
        by (apply elem_of_filter_bool; by split).
      rewrite E in Hin. by apply not_elem_of_nil in Hin. }
  lia.
Qed.

(** Once the pass reaches a member [x] of a group [g <> 0] that is not
    aboard, before the manifest is full, and [x] passes the tests of
    lines 198-199 while the manifest size plus the size of [g] is at
    most 16, the pass appends every member of [g] of the priority list
    right there, as one block. *)
Lemma group_admitted (w0 : World) (tr : Truck) (l1 : list Z) (x : Z) (l2 : list Z)
    tr1 w1 (p : Package) (count : Z) tr' w' :
  group_bound w0 → packages tr = [] →
  priority_packages w0 = l1 ++ x :: l2 →
  load_priority_loop (priority_packages w0) tr w0 l1 = Some (tr1, w1) →
  length (packages tr1) ≠ 16%nat →
  x ∉ packages tr1 →
  my_hash_packages w0 !! x = Some p → group p ≠ 0 →
  req_truck p = truck_id tr ∨ req_truck p = 0 →
  (time_available p <= truck_time tr)%Q →
  group_count_dictionary w0 !! group p = Some count →
  Z.of_nat (length (packages tr1)) + count <= 16 →
  load_truck tr w0 = Some (tr', w') →
  ∃ s, packages tr' = packages tr1 ++
         List.filter (has_group (my_hash_packages w0) (group p)) (priority_packages w0) ++ s.
Proof.
  intros Hgb Hm0 HP0 Hl1 H16 Hx Hp Hg Hreq Hav Hc Hle Hload.
  assert (Hinv1 : load_inv w0 tr1 w1).
  { eapply load_priority_loop_inv; [exact Hgb | | apply load_inv_start; exact Hm0 | exact Hl1].
    intros z Hz. rewrite HP0. apply elem_of_app. by left. }
  pose proof Hinv1 as (Hpk & _).
  pose proof Hpk as (HP1 & HN1 & HG1 & _).
  pose proof (load_priority_loop_same_position _ _ _ _ _ _ Hl1) as (Hid1 & _ & _ & Ht1 & _).
  destruct (pickups_only_lookup_inv _ _ _ _ _ Hpk Hp) as (p' & Hp' & Ep').
  assert (Hf : req_truck p' = req_truck p ∧ time_available p' = time_available p ∧
               group p' = group p) by (destruct Ep' as [-> | ->]; by destruct p).
  destruct Hf as (Hr' & Ha' & Hg').
  assert (Hone : load_priority_one (priority_packages w0) tr1 w1 x =
                 load_group (group p) tr1 w1 (priority_packages w0)).
  { unfold load_priority_one. rewrite bool_decide_eq_false_2 by exact Hx.
    unfold lookup_package. rewrite Hp'. simpl.
    rewrite Hr', Ha', Hg', Hid1, Ht1, HG1, Hc.
    assert (Hrq : (req_truck p =? truck_id tr) || (req_truck p =? 0) = true)
      by (apply orb_true_iff; destruct Hreq; [left | right]; by apply Z.eqb_eq).
    rewrite Hrq, (proj2 (Qle_bool_iff _ _) Hav), (proj2 (Z.eqb_neq _ _) Hg). simpl.
    by rewrite (proj2 (Z.leb_le _ _) Hle). }
  revert Hload. unfold load_truck. rewrite HP0 at 2. rewrite load_priority_loop_app, Hl1.
  cbn -[load_priority_loop load_non_priority_loop load_priority_one].
  cbn [load_priority_loop].
  rewrite (proj2 (Nat.eqb_neq _ _) H16), Hone.
  destruct (load_group (group p) tr1 w1 (priority_packages w0)) as [[tr2 w2]|] eqn:H2;
    [simpl | intros [=]].
  destruct (load_priority_loop (priority_packages w0) tr2 w2 l2) as [[tr3 w3]|] eqn:H3;
    [simpl | intros [=]].
  intros H4.
  destruct (load_group_spec (group p) tr1 w1 (priority_packages w0) tr2 w2)
    as (_ & Hm2 & _); [intros y Hy; left; by rewrite HP1 | exact H2 |].
  rewrite (filter_has_group_pickups _ _ _ _ _ Hpk) in Hm2.
  destruct (load_priority_loop_prefix _ _ _ _ _ _ H3) as (s1 & E1).
  destruct (load_non_priority_loop_prefix _ _ _ _ _ H4) as (s2 & E2).
  exists (s1 ++ s2). by rewrite E2, E1, Hm2, <- !app_assoc.
Qed.

(* ------------------------------------------------------------------ *)
(** ** The example input is a valid call of [route_packages] *)

Lemma group_world_ready : route_ready group_world ex_trucks.
Proof.
  split; [split; [| split; [| split; [| split; [| split; [| split]]]]] | split].
  - intros k p Hk. simpl in Hk.
    apply lookup_insert_Some in Hk as [[<- <-] | [_ Hk]]; [reflexivity |].
    apply lookup_insert_Some in Hk as [[<- <-] | [_ Hk]]; [reflexivity |].
    by rewrite lookup_empty in Hk.
  - intros y p Hy. simpl in Hy. by apply not_elem_of_nil in Hy.
  - intros g count Hg Hc. simpl in Hc.
    apply lookup_insert_Some in Hc as [[<- <-] | [_ Hc]];
      [apply Z.leb_le; vm_compute; reflexivity | by rewrite lookup_empty in Hc].
  - intros loc Hloc dd Hd.
    assert (H : Forall (λ loc, Forall (λ d, Qle_bool 0 d = true) (distances loc))
                       (locations group_world)) by (repeat constructor).
    rewrite Forall_forall in H. specialize (H loc Hloc).
    rewrite Forall_forall in H. apply Qle_bool_iff. exact (H dd Hd).
  - apply (bool_decide_unpack _). vm_compute. exact I.
  - constructor.
  - intros x _ HxN. simpl in HxN. by apply not_elem_of_nil in HxN.
  - intros k p Hk. left. simpl in Hk |- *.
    apply lookup_insert_Some in Hk as [[<- _] | [_ Hk]]; [by apply list_elem_of_here |].
    apply lookup_insert_Some in Hk as [[<- _] | [_ Hk]];
      [apply list_elem_of_further; by apply list_elem_of_here |].
    by rewrite lookup_empty in Hk.
  - intros tr Htr. unfold ex_trucks in Htr.
    apply elem_of_cons in Htr as [-> | Htr];
      [| apply elem_of_cons in Htr as [-> | Htr]; [| by apply not_elem_of_nil in Htr]];
      (split; [reflexivity | vm_compute; reflexivity]).
Qed.

(* ------------------------------------------------------------------ *)
(** ** Claims on complete runs *)

(** Claim C3 (code defect): the chain
    [time_delivered > time_pickup > time_available] fails through two
    defects of the code.  From the rows [early_rows], [truck_1] leaves at
    08:00 with packages 2 and 3 (group 5) and 1.  Package 1, available
    at 07:00 and picked up at 08:00, is the nearest (3 miles) and is
    stamped delivered at 08:00, its pickup time: [deliver_package]
    writes the stamp before the truck drives the leg, which ends at
    08:10.  Package 3, available at 10:00, is picked up at 08:00: the
    group branch of [load_truck] loads it with package 2 without the
    [time_available] test. *)
Theorem route_packages_chain_not_strict :
  ∃ c p1 p3,
    run_reaches (route_start early_world ex_trucks) c ∧ cfg_phase c = Finished ∧
    my_hash_packages (cfg_world c) !! 1 = Some p1 ∧
    time_available p1 = 25200%Q ∧ time_pickup p1 = 28800%Q ∧
    time_delivered p1 = 28800%Q ∧
    distance_between early_world 0 (loc_id p1) = Some 3%Q ∧
    my_hash_packages (cfg_world c) !! 3 = Some p3 ∧
    time_available p3 = 36000%Q ∧ time_pickup p3 = 28800%Q.
Proof.
  destruct (run_steps 10 (route_start early_world ex_trucks)) as [c|] eqn:Hc;
    [| vm_compute in Hc; discriminate].
  pose proof Hc as Hc'. vm_compute in Hc'. injection Hc' as <-.
  eexists _, _, _. split; [exact (run_steps_reaches _ _ _ Hc) |].
  split; [reflexivity |].
  split; [vm_compute; reflexivity |].
  do 3 (split; [reflexivity |]).
  split; [vm_compute; reflexivity |].
  split; [vm_compute; reflexivity |].
  split; reflexivity.
Qed.

(** Claim C4: at every configuration of a run of [route_packages] (on
    globals as [load_package_data] builds them, trucks empty with a
    positive rate), the trucks waiting or done have an empty manifest,
    the truck of the inner [while] holds at most 16 ids, and the
    [load_truck] call at the head of the [for] loop, group admissions
    included, returns a manifest of at most 16 ids (a pass only appends,
    so every intermediate manifest is a prefix of this one). *)
Theorem manifest_at_most_16 (w : World) (trucks : list Truck) (c : Config) :
  route_ready w trucks →
  run_reaches (route_start w trucks) c →
  (∀ tr, tr ∈ cfg_done c ++ cfg_todo c → packages tr = []) ∧
  (∀ tr, cfg_phase c = Draining tr → (length (packages tr) <= 16)%nat) ∧
  (∀ tr rest tr' w', cfg_phase c = NextTruck → cfg_todo c = tr :: rest →
     load_truck tr (cfg_world c) = Some (tr', w') →
     (length (packages tr') <= 16)%nat).
Proof.
  intros Hr Hreach.
  pose proof (route_reaches_inv _ _ _ Hr Hreach) as Hinv.
  pose proof Hinv as (Hok & Htr & _ & _ & Hph).
  split; [intros tr H; exact (proj1 (Htr tr H)) |].
  split; [intros tr E; rewrite E in Hph; exact (proj1 Hph) |].
  intros tr rest tr' w' Hn Ht Hload.
  destruct c as [cw cd cph ctodo]. cbn in Hn, Ht, Hload |- *. subst cph ctodo.
  destruct (run_inv_load _ _ _ _ _ _ Hinv Hload) as (_ & _ & _ & _ & Hab).
  exact (proj1 Hab).
Qed.

Lemma manifest_at_most_16_witness :
  ∃ c tr' w',
    run_reaches (route_start group_world ex_trucks) c ∧ cfg_phase c = NextTruck ∧
    load_truck (new_truck 1 28800) (cfg_world c) = Some (tr', w') ∧
    (length (packages tr') <= 16)%nat.
Proof.
  destruct (run_steps 1 (route_start group_world ex_trucks)) as [c|] eqn:Hc;
    [| vm_compute in Hc; discriminate].
  pose proof Hc as Hc'. vm_compute in Hc'. injection Hc' as <-.
  pose proof (run_steps_reaches _ _ _ Hc) as Hreach.
  eexists _, _, _. split; [exact Hreach |]. split; [reflexivity |].
  split; [vm_compute; reflexivity |].
  exact (proj2 (proj2 (manifest_at_most_16 group_world ex_trucks _ group_world_ready Hreach))
           (new_truck 1 28800) [new_truck 2 32700] _ _ eq_refl eq_refl
           ltac:(vm_compute; reflexivity)).
Defined.

(** Claim C5: group admission is atomic.  At every configuration of a
    run of [route_packages] (on globals as [load_package_data] builds
    them, trucks empty with a positive rate), for every group [g <> 0]:
    (a) the [load_truck] call at the head of the [for] loop leaves the
    members of [g] either all absent from the manifest, or present as one
    block holding every member of [g] of the priority list, appended when
    the manifest size plus the precomputed size of [g] was at most 16;
    every member loaded gets the truck's clock as pickup time;
    (b) once the pass meets a member [x] of [g] not aboard while the
    manifest size plus the size of [g] exceeds 16, the pass ends with no
    member of [g] aboard;
    (c) while a truck delivers, a member of [g] aboard comes with every
    member of [g] still in the priority list;
    (d) between two trucks, the members of [g] are all pending or all
    delivered;
    (e) once the run has returned, all members of [g] share one pickup
    time;
    (f) otherwise the group is admitted whole: once the pass meets, before
    the manifest is full, a member [x] of [g] not aboard that passes the
    tests of lines 198-199 (required truck 0 or this truck, available by
    the truck's clock; a member failing them is skipped, line 202 is not
    reached) while the manifest size plus the size of [g] is at most 16,
    the manifest the pass returns holds, right after the packages loaded
    before [x], every member of [g] in the priority list, so all of them
    ride on this truck.  (The tests read the directory at the start of
    the pass: the pass changes nothing but pickup times.) *)
Theorem group_admission_atomic (w : World) (trucks : list Truck) (c : Config) :
  route_ready w trucks →
  run_reaches (route_start w trucks) c →
  (∀ tr rest tr' w' g, cfg_phase c = NextTruck → cfg_todo c = tr :: rest →
     load_truck tr (cfg_world c) = Some (tr', w') → g ≠ 0 →
     group_block (cfg_world c) g (packages tr') ∧
     ∀ y, y ∈ packages tr' → has_group (my_hash_packages (cfg_world c)) g y = true →
       ∃ p, my_hash_packages w' !! y = Some p ∧ time_pickup p = truck_time tr) ∧
  (∀ tr rest tr' w' l1 x l2 tr1 w1 g count,
     cfg_phase c = NextTruck → cfg_todo c = tr :: rest →
     priority_packages (cfg_world c) = l1 ++ x :: l2 →
     load_priority_loop (priority_packages (cfg_world c)) tr (cfg_world c) l1
       = Some (tr1, w1) →
     has_group (my_hash_packages (cfg_world c)) g x = true → g ≠ 0 →
     x ∉ packages tr1 →
     group_count_dictionary (cfg_world c) !! g = Some count →
     16 < Z.of_nat (length (packages tr1)) + count →
     load_truck tr (cfg_world c) = Some (tr', w') →
     ∀ y, y ∈ packages tr' → has_group (my_hash_packages (cfg_world c)) g y = false) ∧
  (∀ tr x p, cfg_phase c = Draining tr → x ∈ packages tr →
     my_hash_packages (cfg_world c) !! x = Some p → group p ≠ 0 →
     ∀ y, y ∈ priority_packages (cfg_world c) →
       has_group (my_hash_packages (cfg_world c)) (group p) y = true →
       y ∈ packages tr) ∧
  (∀ g, g ≠ 0 → (∀ tr, cfg_phase c ≠ Draining tr) →
     (∀ k p, my_hash_packages (cfg_world c) !! k = Some p → group p = g →
        k ∈ priority_packages (cfg_world c)) ∨
     (∀ k p, my_hash_packages (cfg_world c) !! k = Some p → group p = g →
        k ∉ priority_packages (cfg_world c))) ∧
  (cfg_phase c = Finished → ∀ g k1 k2 p1 p2, g ≠ 0 →
     my_hash_packages (cfg_world c) !! k1 = Some p1 →
     my_hash_packages (cfg_world c) !! k2 = Some p2 →
     group p1 = g → group p2 = g → time_pickup p1 = time_pickup p2) ∧
  (∀ tr rest tr' w' l1 x l2 tr1 w1 p count,
     cfg_phase c = NextTruck → cfg_todo c = tr :: rest →
     priority_packages (cfg_world c) = l1 ++ x :: l2 →
     load_priority_loop (priority_packages (cfg_world c)) tr (cfg_world c) l1
       = Some (tr1, w1) →
     length (packages tr1) ≠ 16%nat → x ∉ packages tr1 →
     my_hash_packages (cfg_world c) !! x = Some p → group p ≠ 0 →
     req_truck p = truck_id tr ∨ req_truck p = 0 →
     (time_available p <= truck_time tr)%Q →
     group_count_dictionary (cfg_world c) !! group p = Some count →
     Z.of_nat (length (packages tr1)) + count <= 16 →
     load_truck tr (cfg_world c) = Some (tr', w') →
     (∃ s, packages tr' = packages tr1 ++
        List.filter (has_group (my_hash_packages (cfg_world c)) (group p))
                    (priority_packages (cfg_world c)) ++ s) ∧
     ∀ y, y ∈ priority_packages (cfg_world c) →
       has_group (my_hash_packages (cfg_world c)) (group p) y = true → y ∈ packages tr').
Proof.
  intros Hr Hreach.
  pose proof (route_reaches_inv _ _ _ Hr Hreach) as Hinv.
  pose proof Hinv as (Hok & Htr & _ & Hsync & Hph).
  pose proof Hok as (Hkeys & Hng & Hgb & _).
  assert (Hempty : ∀ tr rest, cfg_todo c = tr :: rest → packages tr = []).
  { intros tr rest Ht. apply (Htr tr). rewrite Ht. apply elem_of_app. right.
    apply list_elem_of_here. }
  split; [| split; [| split; [| split; [| split]]]].
  - intros tr rest tr' w' g _ Ht Hload Hg.
    pose proof (load_truck_inv _ _ _ _ Hkeys Hng Hgb (Hempty _ _ Ht) Hload)
      as (_ & _ & Habo & Hblk).
    pose proof (load_truck_same_position _ _ _ _ Hload) as (_ & _ & _ & Htt & _).
    split; [exact (Hblk g Hg) |].
    intros y Hy _. destruct (Habo y Hy) as (p & Hp & Hpick & _).
    exists p. split; [exact Hp | congruence].
  - intros tr rest tr' w' l1 x l2 tr1 w1 g count _ Ht HP Hl1 Hgx Hg Hx Hc Hover Hload.
    exact (group_excluded _ _ _ _ _ _ _ _ _ _ _ Hkeys Hng Hgb (Hempty _ _ Ht)
             HP Hl1 Hgx Hg Hx Hc Hover Hload).
  - intros tr x p E Hx Hp Hg y Hy Hhy. rewrite E in Hph.
    destruct Hph as (_ & _ & Habo).
    destruct (Habo x Hx) as (p' & Hp' & _ & _ & Hcl).
    rewrite Hp in Hp'. injection Hp' as <-. exact (Hcl Hg y Hy Hhy).
  - intros g Hg Hnd. destruct (Hsync g Hg) as [Hpend | (t & Hpicked)].
    + left. intros k p Hk Hgk. exact (proj1 (Hpend k p Hk Hgk)).
    + right. intros k p Hk Hgk HkP. apply (proj2 (Hpicked k p Hk Hgk)) in HkP.
      unfold aboard_now in HkP. destruct (cfg_phase c) as [| | tr |] eqn:E;
        [exact HkP | exact HkP | exact (Hnd tr eq_refl) | exact HkP].
  - intros E g k1 k2 p1 p2 Hg Hk1 Hk2 Hg1 Hg2. rewrite E in Hph.
    destruct (Hsync g Hg) as [Hpend | (t & Hpicked)].
    + destruct (Hpend k1 p1 Hk1 Hg1) as [HkP _]. rewrite (proj1 Hph) in HkP.
      by apply not_elem_of_nil in HkP.
    + rewrite (proj1 (Hpicked k1 p1 Hk1 Hg1)), (proj1 (Hpicked k2 p2 Hk2 Hg2)).
      reflexivity.
  - intros tr rest tr' w' l1 x l2 tr1 w1 p count _ Ht HP Hl1 H16 Hx Hp Hg Hreq Hav Hc Hle
      Hload.
    destruct (group_admitted _ _ _ _ _ _ _ _ _ _ _ Hgb (Hempty _ _ Ht) HP Hl1 H16 Hx Hp Hg
                Hreq Hav Hc Hle Hload) as (s & Es).
    split; [exists s; exact Es |].
    intros y Hy Hhy. rewrite Es. apply elem_of_app. right. apply elem_of_app. left.
    apply elem_of_filter_bool. by split.
Qed.

Lemma group_admission_atomic_witness :
  ∃ c tr' w',
    run_reaches (route_start group_world ex_trucks) c ∧ cfg_phase c = NextTruck ∧
    load_truck (new_truck 1 28800) (cfg_world c) = Some (tr', w') ∧
    group_block (cfg_world c) 7 (packages tr') ∧
    1 ∈ packages tr' ∧ 2 ∈ packages tr'.
Proof.
  assert (Hc : run_steps 1 (route_start group_world ex_trucks) =
               Some (mkConfig group_world [] NextTruck ex_trucks)) by reflexivity.
  pose proof (run_steps_reaches _ _ _ Hc) as Hreach.
  pose proof (group_admission_atomic group_world ex_trucks _ group_world_ready Hreach)
    as (Ha & _ & _ & _ & _ & Hf).
  destruct (load_truck (new_truck 1 28800) group_world) as [[tr' w']|] eqn:Hload;
    [| vm_compute in Hload; discriminate].
  destruct (Hf (new_truck 1 28800) [new_truck 2 32700] tr' w' [] 1 [2]
              (new_truck 1 28800) group_world (ex_package 1 7 0 28800 1) 2
              eq_refl eq_refl eq_refl eq_refl ltac:(discriminate) ltac:(simpl; set_solver)
              ltac:(vm_compute; reflexivity) ltac:(discriminate) ltac:(right; reflexivity)
              ltac:(vm_compute; discriminate) ltac:(vm_compute; reflexivity)
              ltac:(vm_compute; discriminate) Hload) as [_ Hall].
  exists (mkConfig group_world [] NextTruck ex_trucks), tr', w'.
  split; [exact Hreach |]. split; [reflexivity |].
  split; [exact Hload |].
  split; [exact (proj1 (Ha (new_truck 1 28800) [new_truck 2 32700] tr' w' 7 eq_refl eq_refl
                          Hload ltac:(discriminate))) |].
  split; apply Hall; [simpl; set_solver | vm_compute; reflexivity
                     | simpl; set_solver | vm_compute; reflexivity].
Defined.

(* ================================================================== *)
(** * Further properties of main.py *)

(* ------------------------------------------------------------------ *)
(** ** [find_shortest_distance] *)

Lemma find_shortest_loop_spec (tr : Truck) (w : World) (l : list Z)
    (m : Q) (pid r : Z) :
  find_shortest_loop tr w l m pid = Some r →
  (r = pid ∧ ∀ y d, y ∈ l → pkg_distance tr w y = Some d → (m <= d)%Q) ∨
  (r ∈ l ∧ ∃ dr, pkg_distance tr w r = Some dr ∧ (dr < m)%Q ∧
     ∀ y d, y ∈ l → pkg_distance tr w y = Some d → (dr <= d)%Q).
Proof.
  revert m pid. induction l as [| y l IH]; intros m pid; simpl.
  - intros [= <-]. left. split; [done |]. intros y d Hy. by apply not_elem_of_nil in Hy.
  - destruct (lookup_package w y) as [p|] eqn:Hp; [simpl | intros [=]].
    destruct (distance_between w (location_id tr) (loc_id p)) as [d|] eqn:Hd;
      [simpl | intros [=]].
    assert (Hy : pkg_distance tr w y = Some d) by (unfold pkg_distance; rewrite Hp; exact Hd).
    destruct (Qltb d m) eqn:Hlt.
    + apply Qltb_iff in Hlt. intros Hr.
      right. destruct (IH d y Hr) as [[-> Hall] | (Hin & dr & Hdr & Hlt' & Hall)].
      * split; [apply list_elem_of_here |]. exists d. split; [exact Hy |].
        split; [exact Hlt |]. intros z dz Hz Hdz.
        apply elem_of_cons in Hz as [-> | Hz].
        -- rewrite Hy in Hdz. injection Hdz as <-. apply Qle_refl.
        -- exact (Hall z dz Hz Hdz).
      * split; [by apply list_elem_of_further |]. exists dr.
        split; [exact Hdr |]. split; [eapply Qlt_trans; [exact Hlt' | exact Hlt] |].
        intros z dz Hz Hdz. apply elem_of_cons in Hz as [-> | Hz].
        -- rewrite Hy in Hdz. injection Hdz as <-. apply Qlt_le_weak. exact Hlt'.
        -- exact (Hall z dz Hz Hdz).
    + apply Qltb_false in Hlt. intros Hr.
      destruct (IH m pid Hr) as [[-> Hall] | (Hin & dr & Hdr & Hlt' & Hall)].
      * left. split; [done |]. intros z dz Hz Hdz.
        apply elem_of_cons in Hz as [-> | Hz].
        -- rewrite Hy in Hdz. injection Hdz as <-. exact Hlt.
        -- exact (Hall z dz Hz Hdz).
      * right. split; [by apply list_elem_of_further |]. exists dr.
        split; [exact Hdr |]. split; [exact Hlt' |].
        intros z dz Hz Hdz. apply elem_of_cons in Hz as [-> | Hz].
        -- rewrite Hy in Hdz. injection Hdz as <-.
           apply Qlt_le_weak. eapply Qlt_le_trans; [exact Hlt' | exact Hlt].
        -- exact (Hall z dz Hz Hdz).
Qed.

(** Extra X1: [find_shortest_distance] returns either [-1], when every
    package aboard is at least 100 miles away, or a package aboard that is
    under 100 miles away and no farther than any other package aboard. *)
Theorem find_shortest_distance_nearest (tr : Truck) (w : World) (r : Z) :
  find_shortest_distance tr w = Some r →
  (r = -1 ∧ ∀ y d, y ∈ packages tr → pkg_distance tr w y = Some d → (100 <= d)%Q) ∨
  (r ∈ packages tr ∧ ∃ dr, pkg_distance tr w r = Some dr ∧ (dr < 100)%Q ∧
     ∀ y d, y ∈ packages tr → pkg_distance tr w y = Some d → (dr <= d)%Q).
Proof.
  unfold find_shortest_distance. apply find_shortest_loop_spec.
Qed.

Lemma find_shortest_distance_nearest_witness :
  find_shortest_distance leg_truck leg_world = Some 1 ∧
  ((1 = -1 ∧ ∀ y d, y ∈ packages leg_truck → pkg_distance leg_truck leg_world y = Some d → (100 <= d)%Q) ∨
   (1 ∈ packages leg_truck ∧ ∃ dr, pkg_distance leg_truck leg_world 1 = Some dr ∧ (dr < 100)%Q ∧
     ∀ y d, y ∈ packages leg_truck → pkg_distance leg_truck leg_world y = Some d → (dr <= d)%Q)).
Proof.
  split; [vm_compute; reflexivity |].
  apply (find_shortest_distance_nearest leg_truck leg_world 1).
  vm_compute. reflexivity.
Defined.

(* ------------------------------------------------------------------ *)
(** ** [get_input_time] *)

Lemma read_in_range_unfold lo hi value answers :
  read_in_range lo hi value answers =
  if (hi <? value) || (value <? lo) then
    match answers with
    | [] => None
    | a :: rest =>
        read_in_range lo hi (match a with Some n => n | None => value end) rest
    end
  else Some (value, answers).
Proof. destruct answers; reflexivity. Qed.

Lemma out_of_range_test lo hi v :
  (hi < v ∨ v < lo) ↔ (hi <? v) || (v <? lo) = true.
Proof. rewrite orb_true_iff, !Z.ltb_lt. tauto. Qed.

Lemma in_range_test lo hi v :
  lo <= v <= hi ↔ (hi <? v) || (v <? lo) = false.
Proof. rewrite orb_false_iff, !Z.ltb_ge. lia. Qed.

Lemma read_in_range_spec lo hi value answers r rest :
  (hi < value ∨ value < lo) →
  read_in_range lo hi value answers = Some (r, rest) ↔
  ∃ pre, answers = pre ++ Some r :: rest ∧ rejected lo hi pre ∧ lo <= r <= hi.
Proof.
  revert value. induction answers as [| a answers IH]; intros value Hv;
    rewrite read_in_range_unfold; apply out_of_range_test in Hv; rewrite Hv.
  - split; [intros [=] |]. intros ([|b pre] & [=] & _).
  - destruct a as [n|].
    + destruct (decide (lo <= n <= hi)) as [Hn | Hn].
      * rewrite read_in_range_unfold. pose proof Hn as Hn'.
        apply in_range_test in Hn'. rewrite Hn'. split.
        -- intros [= <- <-]. exists []. split; [done |]. split; [constructor | exact Hn].
        -- intros ([|b pre] & Heq & Hrej & Hr).
           ++ simpl in Heq. injection Heq as <- <-. reflexivity.
           ++ injection Heq as <- _. inversion Hrej as [|? ? Hb]. lia.
      * assert (Hout : hi < n ∨ n < lo) by lia.
        rewrite (IH n Hout). split.
        -- intros (pre & -> & Hrej & Hr). exists (Some n :: pre).
           split; [done |]. split; [constructor; [lia | exact Hrej] | exact Hr].
        -- intros ([|b pre] & Heq & Hrej & Hr).
           ++ simpl in Heq. injection Heq as -> _. lia.
           ++ injection Heq as <- ->. inversion Hrej; subst. exists pre. done.
    + apply out_of_range_test in Hv. rewrite (IH value Hv). split.
      * intros (pre & -> & Hrej & Hr). exists (None :: pre).
        split; [done |]. split; [constructor; [done | exact Hrej] | exact Hr].
      * intros ([|b pre] & Heq & Hrej & Hr).
        -- simpl in Heq. congruence.
        -- injection Heq as <- ->. inversion Hrej; subst. exists pre. done.
Qed.

(** Extra X2: [get_input_time] reads the hour as the first answer that is
    an integer in 0..23, skipping every earlier answer, then the minute
    and the second as the next integers in 0..59; the time it returns is
    [3600 * hour + 60 * minute + second] seconds, and the answers after
    the second are left unread. *)
Theorem get_input_time_spec (answers : list (option Z)) (t : Q)
    (rest : list (option Z)) :
  get_input_time answers = Some (t, rest) ↔
  ∃ pre1 hour pre2 minute pre3 second,
    answers = pre1 ++ Some hour :: pre2 ++ Some minute :: pre3 ++ Some second :: rest ∧
    rejected 0 23 pre1 ∧ 0 <= hour <= 23 ∧
    rejected 0 59 pre2 ∧ 0 <= minute <= 59 ∧
    rejected 0 59 pre3 ∧ 0 <= second <= 59 ∧
    t = inject_Z (3600 * hour + 60 * minute + second).
Proof.
  assert (H23 : 23 < -1 ∨ -1 < 0) by lia.
  assert (H59 : 59 < -1 ∨ -1 < 0) by lia.
  unfold get_input_time. split.
  - destruct (read_in_range 0 23 (-1) answers) as [[hour r1]|] eqn:E1; [simpl | intros [=]].
    destruct (read_in_range 0 59 (-1) r1) as [[minute r2]|] eqn:E2; [simpl | intros [=]].
    destruct (read_in_range 0 59 (-1) r2) as [[second r3]|] eqn:E3; [simpl | intros [=]].
    intros [= <- <-].
    apply (read_in_range_spec _ _ _ _ _ _ H23) in E1 as (pre1 & -> & ? & ?).
    apply (read_in_range_spec _ _ _ _ _ _ H59) in E2 as (pre2 & -> & ? & ?).
    apply (read_in_range_spec _ _ _ _ _ _ H59) in E3 as (pre3 & -> & ? & ?).
    exists pre1, hour, pre2, minute, pre3, second. done.
  - intros (pre1 & hour & pre2 & minute & pre3 & second & -> & ? & ? & ? & ? & ? & ? & ->).
    assert (E1 : read_in_range 0 23 (-1)
                   (pre1 ++ Some hour :: pre2 ++ Some minute :: pre3 ++ Some second :: rest)
                 = Some (hour, pre2 ++ Some minute :: pre3 ++ Some second :: rest))
      by (apply (read_in_range_spec _ _ _ _ _ _ H23); eexists; done).
    assert (E2 : read_in_range 0 59 (-1) (pre2 ++ Some minute :: pre3 ++ Some second :: rest)
                 = Some (minute, pre3 ++ Some second :: rest))
      by (apply (read_in_range_spec _ _ _ _ _ _ H59); eexists; done).
    assert (E3 : read_in_range 0 59 (-1) (pre3 ++ Some second :: rest)
                 = Some (second, rest))
      by (apply (read_in_range_spec _ _ _ _ _ _ H59); eexists; done).
    rewrite E1. simpl. rewrite E2. simpl. rewrite E3. reflexivity.
Qed.

(* ------------------------------------------------------------------ *)
(** ** The report of option 1 *)

Lemma status_lines_Some (D : gmap Z Package) (user_time : Q) (keys : list Z)
    (lines : list string) :
  status_lines D user_time keys = Some lines ↔
  Forall2 (λ key line, ∃ p, D !! key = Some p ∧ line = package_status user_time p)
          keys lines.
Proof.
  revert lines. induction keys as [| key keys IH]; intros lines; simpl.
  - split; [intros [= <-]; constructor | intros H; inversion H; reflexivity].
  - destruct (D !! key) as [p|] eqn:Hp; simpl.
    + destruct (status_lines D user_time keys) as [ls|] eqn:Hls; simpl.
      * split.
        -- intros [= <-]. constructor; [eexists; split; [exact Hp | reflexivity] |].
           apply IH. reflexivity.
        -- intros H. inversion H as [| ? line ? ls' (p' & Hp' & ->) Hrest]; subst.
           rewrite Hp in Hp'. injection Hp' as <-.
           apply IH in Hrest. congruence.
      * split; [intros [=] |]. intros H. inversion H as [| ? line ? ls' _ Hrest]; subst.
        apply IH in Hrest. congruence.
    + split; [intros [=] |]. intros H. inversion H as [| ? line ? ls' (p' & Hp' & _) _]; subst.
      rewrite Hp in Hp'. discriminate.
Qed.

Lemma status_lines_None (D : gmap Z Package) (user_time : Q) (keys : list Z) :
  status_lines D user_time keys = None ↔ ∃ key, key ∈ keys ∧ D !! key = None.
Proof.
  induction keys as [| key keys IH]; simpl.
  - split; [intros [=] |]. intros (k & Hk & _). by apply not_elem_of_nil in Hk.
  - destruct (D !! key) as [p|] eqn:Hp; simpl.
    + destruct (status_lines D user_time keys) as [ls|] eqn:Hls; simpl.
      * split; [intros [=] |]. intros (k & Hk & Hk').
        apply elem_of_cons in Hk as [-> | Hk]; [congruence |].
        assert (Some ls = None) as [=]. apply IH. exists k. done.
      * split; [intros _ | done].
        destruct (proj1 IH eq_refl) as (k & Hk & Hk').
        exists k. split; [by apply list_elem_of_further | exact Hk'].
    + split; [intros _ | done]. exists key. split; [apply list_elem_of_here | exact Hp].
Qed.

Lemma report_keys_elem (k : Z) (s m : nat) :
  k ∈ map Z.of_nat (seq s m) ↔ Z.of_nat s <= k < Z.of_nat (s + m).
Proof.
  change (map Z.of_nat (seq s m)) with (Z.of_nat <$> seq s m).
  rewrite list_elem_of_fmap. split.
  - intros (j & -> & Hj). apply elem_of_seq in Hj. lia.
  - intros Hk. exists (Z.to_nat k). split; [lia |]. apply elem_of_seq. lia.
Qed.

Lemma report_keys_Forall2 {B} (P : Z → B → Prop) (s m : nat) (lines : list B) :
  Forall2 P (map Z.of_nat (seq s m)) lines ↔
  length lines = m ∧
  ∀ i line, lines !! i = Some line → P (Z.of_nat (s + i)) line.
Proof.
  revert s lines. induction m as [| m IH]; intros s lines; simpl.
  - split.
    + intros H. inversion H. split; [reflexivity |]. intros i line Hi. done.
    + intros [Hl _]. destruct lines; [constructor | discriminate].
  - split.
    + intros H. inversion H as [| ? line ? ls Hhd Htl]; subst.
      apply IH in Htl as [Hlen Hall]. split; [simpl; lia |].
      intros [| i] l Hi; simpl in Hi.
      * injection Hi as <-. rewrite Nat.add_0_r. exact Hhd.
      * replace (s + S i)%nat with (S s + i)%nat by lia. exact (Hall i l Hi).
    + intros [Hlen Hall]. destruct lines as [| line ls]; [discriminate |].
      constructor.
      * specialize (Hall 0%nat line eq_refl). rewrite Nat.add_0_r in Hall. exact Hall.
      * apply IH. split; [simpl in Hlen; lia |].
        intros i l Hi. replace (S s + i)%nat with (s + S i)%nat by lia.
        exact (Hall (S i) l Hi).
Qed.

(** Extra X3: the loop of option 1 fails (the attribute access on the
    [None] that [search] returns raises) exactly when some id from 1 to
    [num_packages] is missing from the package table. *)
Theorem report_all_fails_on_missing_id (D : gmap Z Package) (num_packages : Z)
    (user_time : Q) :
  report_all D num_packages user_time = None ↔
  ∃ key, 1 <= key <= num_packages ∧ D !! key = None.
Proof.
  unfold report_all. rewrite status_lines_None. split.
  - intros (k & Hk & Hnone). apply report_keys_elem in Hk. exists k. split; [lia | exact Hnone].
  - intros (k & Hk & Hnone). exists k. split; [apply report_keys_elem; lia | exact Hnone].
Qed.

(** Extra X4: when the loop of option 1 completes it prints one line for
    each of the ids 1 to [num_packages], in order, and the line for id
    [i + 1] carries the status [package_status] gives that package at the
    time entered. *)
Theorem report_all_lines (D : gmap Z Package) (num_packages : Z) (user_time : Q)
    (lines : list string) :
  report_all D num_packages user_time = Some lines ↔
  length lines = Z.to_nat num_packages ∧
  ∀ i line, lines !! i = Some line →
    ∃ p, D !! (Z.of_nat i + 1) = Some p ∧ line = package_status user_time p.
Proof.
  unfold report_all. rewrite status_lines_Some, report_keys_Forall2.
  split; intros [Hlen Hall]; split; try exact Hlen; intros i line Hi;
    specialize (Hall i line Hi).
  - replace (Z.of_nat i + 1) with (Z.of_nat (1 + i)) by lia. exact Hall.
  - replace (Z.of_nat (1 + i)) with (Z.of_nat i + 1) by lia. exact Hall.
Qed.

(* ------------------------------------------------------------------ *)
(** ** The truck list after [route_packages] *)

Lemma load_package_locations (tr : Truck) (w : World) (x : Z) tr' w' :
  load_package tr w x = Some (tr', w') → locations w' = locations w.
Proof.
  unfold load_package. destruct (lookup_package w x); [simpl | done].
  intros [= _ <-]. reflexivity.
Qed.

Lemma load_group_locations (g : Z) (tr : Truck) (w : World) (l : list Z) tr' w' :
  load_group g tr w l = Some (tr', w') → locations w' = locations w.
Proof.
  revert tr w. induction l as [| y l IH]; intros tr w; simpl.
  - intros [= _ <-]. reflexivity.
  - destruct (lookup_package w y) as [p|]; [simpl | done].
    destruct (group p =? g).
    + destruct (load_package tr w y) as [[tr1 w1]|] eqn:H1; [simpl | done].
      intros H. rewrite (IH _ _ H). exact (load_package_locations _ _ _ _ _ H1).
    + exact (IH tr w).
Qed.

Lemma load_priority_one_locations prio (tr : Truck) (w : World) (x : Z) tr' w' :
  load_priority_one prio tr w x = Some (tr', w') → locations w' = locations w.
Proof.
  unfold load_priority_one.
  case_bool_decide; [intros [= _ <-]; reflexivity |].
  destruct (lookup_package w x) as [p|]; [simpl | done].
  destruct (_ || _); [| intros [= _ <-]; reflexivity].
  destruct (Qle_bool _ _); [| intros [= _ <-]; reflexivity].
  destruct (group p =? 0); [apply load_package_locations |].
  destruct (group_count_dictionary w !! group p); [simpl | done].
  destruct (_ <=? 16); [apply load_group_locations | intros [= _ <-]; reflexivity].
Qed.

Lemma load_truck_locations (tr : Truck) (w : World) tr' w' :
  load_truck tr w = Some (tr', w') → locations w' = locations w.
Proof.
  unfold load_truck.
  assert (Hp : ∀ prio l tr w tr' w', load_priority_loop prio tr w l = Some (tr', w') →
                 locations w' = locations w).
  { intros prio l. induction l as [| y l IH]; intros tr0 w0 tr1 w1; simpl.
    - intros [= _ <-]. reflexivity.
    - destruct (Nat.eqb _ 16); [intros [= _ <-]; reflexivity |].
      destruct (load_priority_one prio tr0 w0 y) as [[tr2 w2]|] eqn:H2; [simpl | done].
      intros H. rewrite (IH _ _ _ _ H). exact (load_priority_one_locations _ _ _ _ _ _ H2). }
  assert (Hn : ∀ l tr w tr' w', load_non_priority_loop tr w l = Some (tr', w') →
                 locations w' = locations w).
  { intros l. induction l as [| y l IH]; intros tr0 w0 tr1 w1; simpl.
    - intros [= _ <-]. reflexivity.
    - destruct (Nat.eqb _ 16); [intros [= _ <-]; reflexivity |].
      destruct (lookup_package w0 y) as [p|]; [simpl | done].
      destruct (Qle_bool _ _); [| apply IH].
      destruct (load_package tr0 w0 (id p)) as [[tr2 w2]|] eqn:H2; [simpl | done].
      intros H. rewrite (IH _ _ _ _ H). exact (load_package_locations _ _ _ _ _ H2). }
  destruct (load_priority_loop _ tr w _) as [[tr1 w1]|] eqn:H1; [simpl | done].
  intros H. rewrite (Hn _ _ _ _ _ H). exact (Hp _ _ _ _ _ _ H1).
Qed.

Lemma nonneg_distances_locations (w w' : World) :
  locations w' = locations w → nonneg_distances w → nonneg_distances w'.
Proof. unfold nonneg_distances. intros ->. done. Qed.

Lemma truck_later_step (t0 t t' : Truck) :
  truck_id t' = truck_id t → rate t' = rate t → truck_le t t' →
  truck_later t0 t → truck_later t0 t'.
Proof.
  intros Hid Hr Hle (Hid0 & Hr0 & Hle0). split; [congruence |].
  split; [congruence |]. exact (truck_le_trans _ _ _ Hle0 Hle).
Qed.

Lemma Forall2_mid_update {A B} (R : A → B → Prop) (l : list A) (d t : list B) (a b : B) :
  Forall2 R l (d ++ [a] ++ t) → (∀ x, R x a → R x b) → Forall2 R l (d ++ [b] ++ t).
Proof.
  intros H Hab.
  apply Forall2_app_inv_r in H as (l1 & l2 & H1 & H2 & ->).
  apply Forall2_app_inv_r in H2 as (l3 & l4 & H3 & H4 & ->).
  apply Forall2_app; [exact H1 |]. apply Forall2_app; [| exact H4].
  inversion H3 as [| x ? ? ? Hx Hnil]; subst. inversion Hnil; subst.
  constructor; [exact (Hab _ Hx) | constructor].
Qed.

Lemma fleet_inv_start (w : World) (trucks : list Truck) :
  (∀ tr, tr ∈ trucks → location_id tr = 0 ∧ packages tr = [] ∧ (0 < rate tr)%Q) →
  fleet_inv w trucks (route_start w trucks).
Proof.
  intros Htr. unfold fleet_inv, fleet, route_start. simpl. rewrite app_nil_r.
  split; [| split; [| split; [| split]]]; try done.
  - induction trucks as [| t ts IH]; constructor.
    + split; [done |]. split; [done |]. apply truck_le_refl.
    + apply IH. intros tr Htr'. apply Htr. by apply list_elem_of_further.
  - intros tr Hin. apply (Htr tr Hin).
  - intros tr Hin. destruct (Htr tr Hin) as (? & ? & _). done.
Qed.

Lemma fleet_inv_step (w0 : World) (trucks : list Truck) (c c' : Config) :
  nonneg_distances w0 →
  fleet_inv w0 trucks c → run_step c = Some c' → fleet_inv w0 trucks c'.
Proof.
  intros Hnn (Hf & Hrate & Hidle & Hph & Hloc).
  destruct c as [w d ph todo]. unfold run_step. cbn [cfg_world cfg_phase cfg_done cfg_todo] in *.
  unfold fleet in Hf, Hrate. cbn [cfg_phase cfg_done cfg_todo] in Hf, Hrate.
  destruct ph as [| | tr |]; cbn [cfg_phase] in Hph.
  - subst todo. simpl in Hf, Hrate. rewrite !app_nil_r in Hf, Hrate, Hidle.
    destruct (pools_empty w); intros [= <-];
      unfold fleet_inv, fleet; cbn; rewrite ?app_nil_r;
      (split; [exact Hf |]); (split; [exact Hrate |]); (split; [exact Hidle |]);
      done.
  - destruct todo as [| tr rest].
    + intros [= <-]. unfold fleet_inv, fleet; cbn. done.
    + destruct (load_truck tr w) as [[tr1 w1]|] eqn:Hl; [simpl | done].
      intros [= <-]. pose proof (load_truck_same_position _ _ _ _ Hl) as Hsp.
      pose proof Hsp as (Hid & _ & _ & _ & Hr).
      unfold fleet_inv, fleet; cbn.
      split; [| split; [| split; [| split]]].
      * replace (d ++ tr1 :: rest) with (d ++ [tr1] ++ rest) by reflexivity.
        apply (Forall2_mid_update _ _ _ _ tr); [exact Hf |].
        intros t0. apply truck_later_step; [done | done | exact (same_position_le _ _ Hsp)].
      * intros t Ht. apply elem_of_app in Ht as [Ht | Ht].
        -- apply Hrate. apply elem_of_app. by left.
        -- apply elem_of_cons in Ht as [-> | Ht].
           ++ rewrite Hr. apply Hrate. apply elem_of_app. right. apply list_elem_of_here.
           ++ apply Hrate. apply elem_of_app. right. by apply list_elem_of_further.
      * intros t Ht. apply Hidle. apply elem_of_app in Ht as [Ht | Ht];
          apply elem_of_app; [by left | right; by apply list_elem_of_further].
      * done.
      * rewrite (load_truck_locations _ _ _ _ Hl). exact Hloc.
  - assert (Hnn' : nonneg_distances w) by (exact (nonneg_distances_locations _ _ Hloc Hnn)).
    assert (Hrt : (0 < rate tr)%Q).
    { apply Hrate. apply elem_of_app. right. apply list_elem_of_here. }
    destruct (packages tr) as [| y ys] eqn:Hm.
    + destruct (return_to_hub tr w) as [tr1|] eqn:Hh; [simpl | done].
      intros [= <-].
      assert (Hh' := Hh). unfold return_to_hub in Hh'.
      destruct (distance_between w (location_id tr) 0) as [dist|] eqn:Hd; [| discriminate].
      simpl in Hh'. injection Hh' as <-.
      pose proof (distance_between_nonneg _ _ _ _ Hnn' Hd) as Hd0.
      unfold fleet_inv, fleet; cbn. rewrite <- app_assoc.
      split; [| split; [| split; [| split]]].
      * apply (Forall2_mid_update _ _ _ _ tr); [exact Hf |].
        intros t0. apply truck_later_step; [done | done | exact (travel_le _ _ _ Hd0 Hrt)].
      * intros t Ht. apply elem_of_app in Ht as [Ht | Ht].
        -- apply Hrate. apply elem_of_app. by left.
        -- apply elem_of_app in Ht as [Ht | Ht].
           ++ apply list_elem_of_singleton in Ht as ->. exact Hrt.
           ++ apply Hrate. apply elem_of_app. right. by apply list_elem_of_further.
      * intros t Ht. apply elem_of_app in Ht as [Ht | Ht].
        -- apply Hidle. apply elem_of_app. by left.
        -- apply elem_of_app in Ht as [Ht | Ht].
           ++ apply list_elem_of_singleton in Ht as ->. simpl. done.
           ++ apply Hidle. apply elem_of_app. by right.
      * done.
      * exact Hloc.
    + destruct (find_shortest_distance tr w) as [x|]; [simpl | done].
      destruct (deliver_package tr (remove_from_pools w x) x) as [[tr1 w1]|] eqn:Hdel;
        [simpl | done].
      intros [= <-].
      apply deliver_package_spec in Hdel as (p & dist & _ & -> & Hd & _ & ->).
      pose proof (remove_from_pools_spec w x) as (_ & _ & Hlr & _).
      assert (Hnnr : nonneg_distances (remove_from_pools w x))
        by exact (nonneg_distances_locations _ _ Hlr Hnn').
      pose proof (distance_between_nonneg _ _ _ _ Hnnr Hd) as Hd0.
      unfold fleet_inv, fleet; cbn.
      split; [| split; [| split; [| split]]].
      * apply (Forall2_mid_update _ _ _ _ tr); [exact Hf |].
        intros t0. apply truck_later_step; [done | done |].
        exact (truck_le_trans _ _ _ (travel_le _ _ _ Hd0 Hrt)
                 (same_position_le _ _ (set_packages_same_position _ _))).
      * intros t Ht. apply elem_of_app in Ht as [Ht | Ht].
        -- apply Hrate. apply elem_of_app. by left.
        -- apply elem_of_cons in Ht as [-> | Ht].
           ++ exact Hrt.
           ++ apply Hrate. apply elem_of_app. right. by apply list_elem_of_further.
      * exact Hidle.
      * done.
      * rewrite <- Hloc, <- Hlr. reflexivity.
  - done.
Qed.

Lemma fleet_total_distance_le (l1 l2 : list Truck) (a1 a2 : Q) :
  Forall2 truck_later l1 l2 → (a1 <= a2)%Q →
  (fold_left (λ acc truck, (acc + distance_traveled truck)%Q) l1 a1 <=
   fold_left (λ acc truck, (acc + distance_traveled truck)%Q) l2 a2)%Q.
Proof.
  intros H. revert a1 a2. induction H as [| t0 t l1 l2 (_ & _ & _ & Hle) _ IH];
    intros a1 a2 Ha; simpl; [exact Ha |].
  apply IH. lra.
Qed.

Lemma Forall2_and_right {A B} (P : A → B → Prop) (R : B → Prop) (l : list A) (k : list B) :
  Forall2 P l k → (∀ y, y ∈ k → R y) → Forall2 (λ x y, P x y ∧ R y) l k.
Proof.
  intros H. induction H as [| x y l k Hxy _ IH]; intros HR; constructor.
  - split; [exact Hxy |]. apply HR. apply list_elem_of_here.
  - apply IH. intros z Hz. apply HR. by apply list_elem_of_further.
Qed.

(** Extra X5: [route_packages] keeps the truck list as it is given: when
    it is called on trucks at the hub with empty manifests and a positive
    rate, and no distance in the table is negative, every run that
    returns leaves the same trucks in the same order, each back at the hub
    (location 0) with an empty manifest, its rate unchanged and its clock
    and odometer no lower than at the start; so the mileage that
    main.py prints is at least the sum of the starting odometers. *)
Theorem route_packages_returns_trucks (w : World) (trucks : list Truck) (c : Config) :
  nonneg_distances w →
  (∀ tr, tr ∈ trucks → location_id tr = 0 ∧ packages tr = [] ∧ (0 < rate tr)%Q) →
  run_reaches (route_start w trucks) c → cfg_phase c = Finished →
  Forall2 (λ t0 t, truck_later t0 t ∧ location_id t = 0 ∧ packages t = [])
          trucks (cfg_done c) ∧
  (total_distance trucks <= total_distance (cfg_done c))%Q.
Proof.
  intros Hnn Htr Hreach Hfin.
  assert (Hinv : fleet_inv w trucks c).
  { remember (route_start w trucks) as c0 eqn:Hc0.
    assert (H0 : fleet_inv w trucks c0) by (subst c0; exact (fleet_inv_start _ _ Htr)).
    clear Hc0 Hfin. induction Hreach as [c0 | c0 c1 c2 Hs _ IH]; [exact H0 |].
    apply IH. exact (fleet_inv_step _ _ _ _ Hnn H0 Hs). }
  destruct Hinv as (Hf & _ & Hidle & Hph & _).
  unfold fleet in Hf, Hidle. rewrite Hfin in Hph, Hf. rewrite Hph in Hf, Hidle.
  rewrite !app_nil_r in Hf, Hidle. split.
  - apply Forall2_and_right; [exact Hf |]. exact Hidle.
  - unfold total_distance. apply fleet_total_distance_le; [exact Hf | apply Qle_refl].
Qed.

Lemma route_packages_returns_trucks_witness :
  ∃ c, run_reaches (route_start group_world ex_trucks) c ∧ cfg_phase c = Finished ∧
  Forall2 (λ t0 t, truck_later t0 t ∧ location_id t = 0 ∧ packages t = [])
          ex_trucks (cfg_done c) ∧
  (total_distance ex_trucks <= total_distance (cfg_done c))%Q.
Proof.
  destruct (run_steps 9 (route_start group_world ex_trucks)) as [c|] eqn:Hc;
    [| vm_compute in Hc; discriminate].
  pose proof (run_steps_reaches _ _ _ Hc) as Hreach.
  pose proof Hc as Hc'. vm_compute in Hc'. injection Hc' as <-.
  eexists. split; [exact Hreach |]. split; [reflexivity |].
  refine (route_packages_returns_trucks group_world ex_trucks _ _ _ Hreach eq_refl).
  - exact (proj1 (proj2 (proj2 (proj2 (proj1 group_world_ready))))).
  - intros tr Htr. simpl in Htr.
    apply elem_of_cons in Htr as [-> | Htr];
      [| apply list_elem_of_singleton in Htr as ->]; (split; [reflexivity |]);
      (split; [reflexivity |]); vm_compute; reflexivity.
Defined.

(* ------------------------------------------------------------------ *)
(** ** [load_package_data] *)

Lemma load_package_rows_pools (location_addresses : list (Z * string)) (w : World)
    (num_of_packages : Z) (rows : list PackageRow) :
  let '(w', n) := load_package_rows location_addresses w num_of_packages rows in
  n = num_of_packages + Z.of_nat (length rows) ∧
  locations w' = locations w ∧
  priority_packages w' = priority_packages w ++
    map row_id (List.filter (λ r, Qltb (row_deadline r) end_of_day ||
                                  negb (row_req_truck r =? 0) ||
                                  negb (row_group r =? 0)) rows) ∧
  non_priority_packages w' = non_priority_packages w ++
    map row_id (List.filter (λ r, Qle_bool end_of_day (row_deadline r) &&
                                  (row_req_truck r =? 0) &&
                                  (row_group r =? 0)) rows).
Proof.
  revert w num_of_packages. induction rows as [| row rows IH]; intros w n; simpl.
  - rewrite !app_nil_r. split; [lia | done].
  - destruct (load_package_row location_addresses w n row) as [w1 n1] eqn:E.
    specialize (IH w1 n1).
    destruct (load_package_rows location_addresses w1 n1 rows) as [w' n'].
    destruct IH as (-> & -> & -> & ->).
    unfold load_package_row, row_package in E. cbn in E.
    unfold Qltb in E |- *.
    destruct (Qle_bool end_of_day (row_deadline row)), (row_req_truck row =? 0),
             (row_group row =? 0); cbn in E |- *; injection E as <- <-; cbn;
      rewrite <- ?app_assoc; (split; [lia | done]).
Qed.

(** Extra X6: [load_package_data] returns the number of rows read, and
    appends the ids of the rows to the two pools in file order: to
    [priority_packages] every row whose deadline is before 23:59:59, or
    that needs a particular truck, or that belongs to a group; to
    [non_priority_packages] every other row, the rows with a deadline of
    23:59:59 or later, no required truck and group 0. *)
Theorem load_package_data_pools (location_addresses : list (Z * string)) (w : World)
    (rows : list PackageRow) :
  (load_package_data location_addresses w rows).2 = Z.of_nat (length rows) ∧
  priority_packages (load_package_data location_addresses w rows).1 =
    priority_packages w ++
    map row_id (List.filter (λ r, Qltb (row_deadline r) end_of_day ||
                                  negb (row_req_truck r =? 0) ||
                                  negb (row_group r =? 0)) rows) ∧
  non_priority_packages (load_package_data location_addresses w rows).1 =
    non_priority_packages w ++
    map row_id (List.filter (λ r, Qle_bool end_of_day (row_deadline r) &&
                                  (row_req_truck r =? 0) &&
                                  (row_group r =? 0)) rows).
Proof.
  unfold load_package_data.
  pose proof (load_package_rows_pools location_addresses w 0 rows) as H.
  destruct (load_package_rows location_addresses w 0 rows) as [w' n].
  destruct H as (-> & _ & HP & HN). simpl. done.
Qed.

Lemma load_package_row_groups (location_addresses : list (Z * string)) (w : World)
    (num_of_packages : Z) (row : PackageRow) (g : Z) :
  group_count_dictionary (load_package_row location_addresses w num_of_packages row).1 !! g =
  if (g =? 0) || negb (row_group row =? g) then group_count_dictionary w !! g
  else Some (default 0 (group_count_dictionary w !! g) + 1).
Proof.
  unfold load_package_row, row_package. cbn.
  assert (Hgc : ∀ P N, group_count_dictionary
      (mkWorld (<[row_id row := row_package location_addresses row]> (my_hash_packages w))
               P N
               (if negb (row_group row =? 0)
                then match group_count_dictionary w !! row_group row with
                     | Some count => <[row_group row := count + 1]> (group_count_dictionary w)
                     | None => <[row_group row := 1]> (group_count_dictionary w)
                     end
                else group_count_dictionary w) (locations w)) !! g =
      if (g =? 0) || negb (row_group row =? g) then group_count_dictionary w !! g
      else Some (default 0 (group_count_dictionary w !! g) + 1)).
  { intros P N. cbn.
    destruct (Z.eqb_spec (row_group row) 0) as [H0 | H0]; cbn.
    - destruct (Z.eqb_spec g 0) as [-> | Hg]; [reflexivity |].
      destruct (Z.eqb_spec (row_group row) g); [congruence | reflexivity].
    - destruct (Z.eqb_spec g 0) as [-> | Hg]; cbn.
      + destruct (group_count_dictionary w !! row_group row);
          rewrite lookup_insert_ne by congruence; reflexivity.
      + destruct (Z.eqb_spec (row_group row) g) as [<- | Hne]; cbn.
        * destruct (group_count_dictionary w !! row_group row);
            rewrite lookup_insert_eq; reflexivity.
        * destruct (group_count_dictionary w !! row_group row);
            rewrite lookup_insert_ne by congruence; reflexivity. }
  destruct (_ || _ || _); apply Hgc.
Qed.

Lemma load_package_rows_groups (location_addresses : list (Z * string)) (w : World)
    (num_of_packages : Z) (rows : list PackageRow) (g : Z) :
  group_count_dictionary (load_package_rows location_addresses w num_of_packages rows).1 !! g =
  let k := length (List.filter (λ r, row_group r =? g) rows) in
  if (g =? 0) || (k =? 0)%nat then group_count_dictionary w !! g
  else Some (default 0 (group_count_dictionary w !! g) + Z.of_nat k).
Proof.
  revert w num_of_packages. induction rows as [| row rows IH]; intros w n; cbn.
  - by destruct (g =? 0).
  - pose proof (load_package_row_groups location_addresses w n row g) as Hrow.
    destruct (load_package_row location_addresses w n row) as [w1 n1] eqn:E.
    rewrite (IH w1 n1). cbn in Hrow |- *. rewrite Hrow.
    destruct (Z.eqb_spec g 0) as [Hg0 | Hg]; cbn; [reflexivity |].
    destruct (Z.eqb_spec (row_group row) g) as [Heq | Hne]; cbn.
    + destruct (Nat.eqb_spec (length (List.filter (λ r, row_group r =? g) rows)) 0) as [Hk | Hk];
        cbn; [rewrite Hk; cbn; f_equal; lia |].
      f_equal. lia.
    + reflexivity.
Qed.

(** Extra X7: the group sizes [load_package_data] records: starting
    from the empty dictionary of main.py, group 0 gets no entry, and a
    group [g <> 0] gets the number of rows of group [g] (counting rows
    with a repeated id), or no entry when no row has group [g]. *)
Theorem load_package_data_group_counts (location_addresses : list (Z * string))
    (locs : list Location) (rows : list PackageRow) (g : Z) :
  group_count_dictionary
    (load_package_data location_addresses (initial_globals locs) rows).1 !! g =
  let k := length (List.filter (λ r, row_group r =? g) rows) in
  if (g =? 0) || (k =? 0)%nat then None else Some (Z.of_nat k).
Proof.
  unfold load_package_data. rewrite load_package_rows_groups. cbn.
  rewrite lookup_empty. destruct (_ || _); reflexivity.
Qed.

Lemma load_package_rows_directory (location_addresses : list (Z * string)) (w : World)
    (num_of_packages : Z) (rows : list PackageRow) (k : Z) :
  my_hash_packages (load_package_rows location_addresses w num_of_packages rows).1 !! k =
  match last (List.filter (λ r, row_id r =? k) rows) with
  | Some r => Some (row_package location_addresses r)
  | None => my_hash_packages w !! k
  end.
Proof.
  revert w num_of_packages. induction rows as [| row rows IH]; intros w n; cbn; [done |].
  destruct (load_package_row location_addresses w n row) as [w1 n1] eqn:E.
  rewrite (IH w1 n1).
  assert (HD : my_hash_packages w1 =
               <[row_id row := row_package location_addresses row]> (my_hash_packages w)).
  { unfold load_package_row in E. destruct (_ || _ || _); injection E as <- _; reflexivity. }
  rewrite HD.
  destruct (Z.eqb_spec (row_id row) k) as [<- | Hne].
  - rewrite last_cons. destruct (last _); [reflexivity |]. by rewrite lookup_insert_eq.
  - destruct (last _); [reflexivity |]. by rewrite lookup_insert_ne.
Qed.

(** Extra X8: the package table [load_package_data] builds from the
    empty table of main.py holds, under each id, the package of the LAST
    row with that id (a later row with the same id replaces the earlier
    one), and nothing under an id no row has. *)
Theorem load_package_data_directory (location_addresses : list (Z * string))
    (locs : list Location) (rows : list PackageRow) (k : Z) :
  my_hash_packages (load_package_data location_addresses (initial_globals locs) rows).1 !! k =
  option_map (row_package location_addresses)
             (last (List.filter (λ r, row_id r =? k) rows)).
Proof.
  unfold load_package_data. rewrite load_package_rows_directory.
  destruct (last _); [reflexivity |]. apply lookup_empty.
Qed.

Lemma load_package_row_spec (location_addresses : list (Z * string)) (w : World)
    (num_of_packages : Z) (row : PackageRow) :
  let w' := (load_package_row location_addresses w num_of_packages row).1 in
  my_hash_packages w' = <[row_id row := row_package location_addresses row]> (my_hash_packages w) ∧
  locations w' = locations w ∧
  ((priority_packages w' = priority_packages w ++ [row_id row] ∧
    non_priority_packages w' = non_priority_packages w) ∨
   (priority_packages w' = priority_packages w ∧
    non_priority_packages w' = non_priority_packages w ++ [row_id row] ∧
    row_group row = 0 ∧ row_req_truck row = 0)).
Proof.
  unfold load_package_row. cbn.
  destruct (Qltb _ _ || _ || _) eqn:Hc; cbn.
  - split; [reflexivity |]. split; [reflexivity |]. by left.
  - split; [reflexivity |]. split; [reflexivity |]. right.
    apply orb_false_iff in Hc as [Hc Hg]. apply orb_false_iff in Hc as [_ Hr].
    apply negb_false_iff, Z.eqb_eq in Hg, Hr. done.
Qed.

Lemma has_group_insert_ne (D : gmap Z Package) (k : Z) (p : Package) (g y : Z) :
  y ≠ k → has_group (<[k := p]> D) g y = has_group D g y.
Proof. intros Hne. unfold has_group. by rewrite lookup_insert_ne by congruence. Qed.

Lemma filter_has_group_insert (D : gmap Z Package) (k : Z) (p : Package) (g : Z)
    (l : list Z) :
  k ∉ l →
  List.filter (has_group (<[k := p]> D) g) l = List.filter (has_group D g) l.
Proof.
  intros Hk. apply filter_ext_in. intros y Hy.
  apply has_group_insert_ne. intros ->. apply Hk. by apply list_elem_of_In.
Qed.

Lemma data_inv_row (location_addresses : list (Z * string)) (w : World)
    (num_of_packages : Z) (row : PackageRow) :
  data_inv w → my_hash_packages w !! row_id row = None →
  data_inv (load_package_row location_addresses w num_of_packages row).1.
Proof.
  intros (Hkeys & Hng & Hnr & HndP & HndN & Hdisj & Hin & Hsome & Hgb) Hfresh.
  pose proof (load_package_row_groups location_addresses w num_of_packages row) as Hgc.
  pose proof (load_package_row_spec location_addresses w num_of_packages row) as (HD & _ & Hpools).
  set (w' := (load_package_row location_addresses w num_of_packages row).1) in *.
  set (k := row_id row) in *. set (p := row_package location_addresses row) in *.
  assert (HkP : k ∉ priority_packages w).
  { intros H. destruct (Hsome k (or_introl H)) as [q Hq]. congruence. }
  assert (HkN : k ∉ non_priority_packages w).
  { intros H. destruct (Hsome k (or_intror H)) as [q Hq]. congruence. }
  assert (Hlk : ∀ y, y ≠ k → my_hash_packages w' !! y = my_hash_packages w !! y).
  { intros y Hy. rewrite HD. by rewrite lookup_insert_ne by congruence. }
  assert (Hlk_eq : my_hash_packages w' !! k = Some p) by (rewrite HD; apply lookup_insert_eq).
  assert (Hdef : ∀ g, default 0 (group_count_dictionary w !! g) <=
                      default 0 (group_count_dictionary w' !! g)).
  { intros g. unfold w'. rewrite Hgc. destruct (_ || _); simpl; lia. }
  split; [| split; [| split; [| split; [| split; [| split; [| split; [| split]]]]]]].
  - intros y q Hy. destruct (decide (y = k)) as [-> | Hne].
    + rewrite Hlk_eq in Hy. injection Hy as <-. reflexivity.
    + rewrite Hlk in Hy by exact Hne. exact (Hkeys y q Hy).
  - intros y q Hy Hq. destruct (decide (y = k)) as [-> | Hne].
    + rewrite Hlk_eq in Hq. injection Hq as <-.
      destruct Hpools as [[_ HN] | (_ & _ & Hg0 & _)]; [| exact Hg0].
      rewrite HN in Hy. by exfalso.
    + rewrite Hlk in Hq by exact Hne. apply (Hng y q); [| exact Hq].
      destruct Hpools as [[_ HN] | (_ & HN & _)]; rewrite HN in Hy; [exact Hy |].
      apply elem_of_app in Hy as [Hy | Hy]; [exact Hy |].
      by apply list_elem_of_singleton in Hy.
  - intros y q Hy Hq. destruct (decide (y = k)) as [-> | Hne].
    + rewrite Hlk_eq in Hq. injection Hq as <-.
      destruct Hpools as [[_ HN] | (_ & _ & _ & Hr0)]; [| exact Hr0].
      rewrite HN in Hy. by exfalso.
    + rewrite Hlk in Hq by exact Hne. apply (Hnr y q); [| exact Hq].
      destruct Hpools as [[_ HN] | (_ & HN & _)]; rewrite HN in Hy; [exact Hy |].
      apply elem_of_app in Hy as [Hy | Hy]; [exact Hy |].
      by apply list_elem_of_singleton in Hy.
  - destruct Hpools as [[HP _] | (HP & _)]; rewrite HP; [| exact HndP].
    apply NoDup_app. split; [exact HndP |]. split; [| apply NoDup_singleton].
    intros x Hx Hx'. apply list_elem_of_singleton in Hx' as ->. exact (HkP Hx).
  - destruct Hpools as [[_ HN] | (_ & HN & _)]; rewrite HN; [exact HndN |].
    apply NoDup_app. split; [exact HndN |]. split; [| apply NoDup_singleton].
    intros x Hx Hx'. apply list_elem_of_singleton in Hx' as ->. exact (HkN Hx).
  - intros x Hx Hx'.
    destruct Hpools as [[HP HN] | (HP & HN & _)]; rewrite HP in Hx; rewrite HN in Hx'.
    + apply elem_of_app in Hx as [Hx | Hx]; [exact (Hdisj x Hx Hx') |].
      apply list_elem_of_singleton in Hx as ->. exact (HkN Hx').
    + apply elem_of_app in Hx' as [Hx' | Hx']; [exact (Hdisj x Hx Hx') |].
      apply list_elem_of_singleton in Hx' as ->. exact (HkP Hx).
  - intros y q Hy.
    destruct Hpools as [[HP HN] | (HP & HN & _)]; rewrite HP, HN.
    + destruct (decide (y = k)) as [-> | Hne].
      * left. apply elem_of_app. right. apply list_elem_of_here.
      * rewrite Hlk in Hy by exact Hne.
        destruct (Hin y q Hy) as [H | H]; [left; apply elem_of_app; by left | by right].
    + destruct (decide (y = k)) as [-> | Hne].
      * right. apply elem_of_app. right. apply list_elem_of_here.
      * rewrite Hlk in Hy by exact Hne.
        destruct (Hin y q Hy) as [H | H]; [by left | right; apply elem_of_app; by left].
  - intros y Hy. destruct (decide (y = k)) as [-> | Hne]; [rewrite Hlk_eq; by eexists |].
    rewrite Hlk by exact Hne. apply Hsome.
    destruct Hpools as [[HP HN] | (HP & HN & _)]; rewrite HP, HN in Hy;
      (destruct Hy as [Hy | Hy]; [left | right]);
      try exact Hy; apply elem_of_app in Hy as [Hy | Hy]; try exact Hy;
      apply list_elem_of_singleton in Hy; contradiction.
  - intros g Hg. rewrite HD.
    destruct Hpools as [[HP _] | (HP & _ & Hg0 & _)]; rewrite HP.
    + rewrite List.filter_app, length_app, filter_has_group_insert by exact HkP.
      unfold w'. rewrite Hgc. specialize (Hgb g Hg).
      assert (Hk : has_group (<[k := p]> (my_hash_packages w)) g k = (row_group row =? g))
        by (unfold has_group; by rewrite lookup_insert_eq).
      simpl List.filter. rewrite Hk.
      destruct (Z.eqb_spec g 0) as [? | _]; [contradiction |].
      destruct (row_group row =? g); simpl; lia.
    + rewrite filter_has_group_insert by exact HkP.
      pose proof (Hgb g Hg). pose proof (Hdef g). lia.
Qed.

Lemma data_inv_rows (location_addresses : list (Z * string)) (w : World)
    (num_of_packages : Z) (rows : list PackageRow) :
  data_inv w → NoDup (map row_id rows) →
  (∀ r, r ∈ rows → my_hash_packages w !! row_id r = None) →
  data_inv (load_package_rows location_addresses w num_of_packages rows).1 ∧
  locations (load_package_rows location_addresses w num_of_packages rows).1 = locations w.
Proof.
  revert w num_of_packages. induction rows as [| row rows IH]; intros w n Hinv Hnd Hfresh;
    cbn; [done |].
  pose proof (load_package_row_spec location_addresses w n row) as (HD & Hloc & _).
  pose proof (data_inv_row location_addresses w n row Hinv (Hfresh row (list_elem_of_here _ _)))
    as Hinv1.
  destruct (load_package_row location_addresses w n row) as [w1 n1] eqn:E.
  cbn in HD, Hloc, Hinv1. apply NoDup_cons in Hnd as [Hnot Hnd].
  destruct (IH w1 n1 Hinv1 Hnd) as [Hinv' Hloc'].
  - intros r Hr. rewrite HD. rewrite lookup_insert_ne.
    + apply Hfresh. by apply list_elem_of_further.
    + intros Heq. apply Hnot. rewrite Heq. change (row_id r ∈ row_id <$> rows).
      by apply list_elem_of_fmap_2.
  - split; [exact Hinv' | congruence].
Qed.

(** Extra X9: when the ids of package_data.csv are pairwise distinct and
    no distance of the location table is negative, the globals
    [load_package_data] builds from the empty ones of main.py satisfy
    what [route_packages] relies on ([route_ready]): every package stored
    under its id, each pending in exactly one pool, without duplicates,
    the non-priority pool holding only packages of group 0, and no group
    with more members in the priority pool than its recorded size; the
    trucks of main.py, empty with a positive rate, complete it. *)
Theorem load_package_data_ready (location_addresses : list (Z * string))
    (locs : list Location) (rows : list PackageRow) (trucks : list Truck) :
  NoDup (map row_id rows) →
  nonneg_distances (initial_globals locs) →
  (∀ tr, tr ∈ trucks → packages tr = [] ∧ (0 < rate tr)%Q) →
  route_ready (load_package_data location_addresses (initial_globals locs) rows).1 trucks.
Proof.
  intros Hnd Hnn Htr.
  assert (H0 : data_inv (initial_globals locs)).
  { split; [| split; [| split; [| split; [| split; [| split; [| split; [| split]]]]]]];
      cbn; try apply NoDup_nil_2.
    - intros k p Hk. rewrite ?lookup_empty in Hk. discriminate.
    - intros y p Hy. by apply not_elem_of_nil in Hy.
    - intros y p Hy. by apply not_elem_of_nil in Hy.
    - intros x Hx. by apply not_elem_of_nil in Hx.
    - intros k p Hk. rewrite ?lookup_empty in Hk. discriminate.
    - intros k [Hk | Hk]; by apply not_elem_of_nil in Hk.
    - intros g _. rewrite lookup_empty. simpl. lia. }
  unfold load_package_data.
  destruct (data_inv_rows location_addresses _ 0 rows H0 Hnd) as [Hinv Hloc];
    [intros r _; apply lookup_empty |].
  set (w' := (load_package_rows location_addresses (initial_globals locs) 0 rows).1) in *.
  destruct Hinv as (Hkeys & Hng & _ & HndP & HndN & Hdisj & Hin & _ & Hgb).
  split; [| split; [exact Hin | exact Htr]].
  split; [exact Hkeys |]. split; [exact Hng |].
  split; [| split; [| split; [exact HndP | split; [exact HndN | exact Hdisj]]]].
  - intros g count Hg Hc. specialize (Hgb g Hg). rewrite Hc in Hgb. exact Hgb.
  - unfold nonneg_distances. rewrite Hloc. exact Hnn.
Qed.

Lemma load_package_data_ready_witness :
  NoDup (map row_id ex_rows) ∧
  nonneg_distances (initial_globals ex_locations) ∧
  (∀ tr, tr ∈ ex_trucks → packages tr = [] ∧ (0 < rate tr)%Q) ∧
  route_ready (load_package_data ex_addresses (initial_globals ex_locations) ex_rows).1
              ex_trucks.
Proof.
  assert (Hnd : NoDup (map row_id ex_rows)) by (apply (bool_decide_unpack _); vm_compute; exact I).
  assert (Hnn : nonneg_distances (initial_globals ex_locations)).
  { intros loc Hloc dd Hd.
    assert (H : Forall (λ loc, Forall (λ d, Qle_bool 0 d = true) (distances loc))
                       (locations (initial_globals ex_locations))) by (repeat constructor).
    rewrite Forall_forall in H. specialize (H loc Hloc).
    rewrite Forall_forall in H. apply Qle_bool_iff. exact (H dd Hd). }
  assert (Htr : ∀ tr, tr ∈ ex_trucks → packages tr = [] ∧ (0 < rate tr)%Q).
  { intros tr Htr. simpl in Htr.
    apply elem_of_cons in Htr as [-> | Htr];
      [| apply list_elem_of_singleton in Htr as ->]; (split; [reflexivity |]);
      vm_compute; reflexivity. }
  split; [exact Hnd |]. split; [exact Hnn |]. split; [exact Htr |].
  exact (load_package_data_ready ex_addresses ex_locations ex_rows ex_trucks Hnd Hnn Htr).
Defined.

Lemma resolve_loc_id_fold (location_addresses : list (Z * string)) (p_address : string)
    (acc : Z) :
  fold_left (λ p_loc_id '(loc_id, address),
               if string_contains p_address address then loc_id else p_loc_id)
            location_addresses acc =
  match last (List.filter (λ la, string_contains p_address la.2) location_addresses) with
  | Some la => la.1
  | None => acc
  end.
Proof.
  revert acc. induction location_addresses as [| [l a] rest IH]; intros acc; simpl; [done |].
  rewrite IH. destruct (string_contains p_address a); [| reflexivity].
  rewrite last_cons. destruct (last _); reflexivity.
Qed.

(** Extra X10: the location id [load_package_data] gives a package is
    that of the LAST location whose address contains the package's
    address, and [-1] when no location address contains it. *)
Theorem resolve_loc_id_last_match (location_addresses : list (Z * string))
    (p_address : string) :
  resolve_loc_id location_addresses p_address =
  match last (List.filter (λ la, string_contains p_address la.2) location_addresses) with
  | Some la => la.1
  | None => -1
  end.
Proof. unfold resolve_loc_id. apply resolve_loc_id_fold. Qed.

(* ------------------------------------------------------------------ *)
(** ** The shape of a [ChainHashTable] *)

Module ChainHashTableShape.
Import ChainHashTable.
Section WithItem.
Context {V : Type}.
Implicit Types (table : list (list (Z * V))) (bucket_list : list (Z * V)).

Lemma bucket_put_elem bucket_list key item kv :
  kv ∈ bucket_put bucket_list key item → kv ∈ bucket_list ∨ kv.1 = key.
Proof.
  induction bucket_list as [| [k v] rest IH]; simpl.
  - intros Hkv. apply list_elem_of_singleton in Hkv as ->. by right.
  - destruct (Z.eqb_spec k key) as [-> | Hne].
    + intros Hkv. apply elem_of_cons in Hkv as [-> | Hkv]; [by right |].
      left. by apply list_elem_of_further.
    + intros Hkv. apply elem_of_cons in Hkv as [-> | Hkv]; [left; apply list_elem_of_here |].
      destruct (IH Hkv) as [H | H]; [left; by apply list_elem_of_further | by right].
Qed.

Lemma bucket_put_keys bucket_list key item x :
  x ∈ map fst (bucket_put bucket_list key item) → x ∈ map fst bucket_list ∨ x = key.
Proof.
  change (map fst ?l) with (fst <$> l). rewrite !list_elem_of_fmap.
  intros (kv & -> & Hkv). destruct (bucket_put_elem _ _ _ _ Hkv) as [H | H]; [left | by right].
  by exists kv.
Qed.

Lemma bucket_put_nodup bucket_list key item :
  NoDup (map fst bucket_list) → NoDup (map fst (bucket_put bucket_list key item)).
Proof.
  induction bucket_list as [| [k v] rest IH]; simpl; intros Hnd.
  - apply NoDup_singleton.
  - apply NoDup_cons in Hnd as [Hk Hnd].
    destruct (Z.eqb_spec k key) as [-> | Hne]; simpl; apply NoDup_cons.
    + split; [exact Hk | exact Hnd].
    + split; [| exact (IH Hnd)].
      intros Hin. destruct (bucket_put_keys _ _ _ _ Hin) as [H | H]; [exact (Hk H) | exact (Hne H)].
Qed.

Lemma bucket_index_length table table' key :
  length table' = length table → bucket_index table' key = bucket_index table key.
Proof. unfold bucket_index. intros ->. reflexivity. Qed.

Lemma new_table_wf (initial_capacity : nat) : table_wf (new_table (V:=V) initial_capacity).
Proof.
  intros i b Hb. unfold new_table in Hb. apply lookup_replicate in Hb as [-> _].
  split; [constructor |]. intros kv Hkv. by apply not_elem_of_nil in Hkv.
Qed.

Lemma insert_wf table key item table' :
  table_wf table → insert table key item = Some table' →
  table_wf table' ∧ length table' = length table.
Proof.
  intros Hwf. unfold insert.
  destruct (bucket_index table key) as [b|] eqn:Hb; [simpl | done].
  destruct (table !! b) as [bl|] eqn:Hbl; [simpl | done].
  intros [= <-]. split; [| apply length_insert].
  intros i b' Hi. destruct (decide (i = b)) as [-> | Hne].
  - rewrite list_lookup_insert_eq in Hi by (eapply lookup_lt_Some; exact Hbl).
    injection Hi as <-. destruct (Hwf b bl Hbl) as [Hnd Hin].
    split; [exact (bucket_put_nodup _ _ _ Hnd) |].
    intros kv Hkv. rewrite (bucket_index_length table) by apply length_insert.
    destruct (bucket_put_elem _ _ _ _ Hkv) as [H | ->]; [exact (Hin kv H) | exact Hb].
  - rewrite list_lookup_insert_ne in Hi by congruence.
    destruct (Hwf i b' Hi) as [Hnd Hin]. split; [exact Hnd |].
    intros kv Hkv. rewrite (bucket_index_length table) by apply length_insert.
    exact (Hin kv Hkv).
Qed.

Lemma insert_all_wf table kvs table' :
  table_wf table → insert_all table kvs = Some table' →
  table_wf table' ∧ length table' = length table.
Proof.
  revert table. induction kvs as [| [k v] rest IH]; intros table Hwf; simpl.
  - intros [= <-]. done.
  - destruct (insert table k v) as [t1|] eqn:H1; [simpl | done].
    intros H. destruct (insert_wf _ _ _ _ Hwf H1) as [Hwf1 Hl1].
    destruct (IH t1 Hwf1 H) as [Hwf' Hl']. split; [exact Hwf' | congruence].
Qed.

End WithItem.
End ChainHashTableShape.

(** Extra X11: a [ChainHashTable] never grows and never stores a key
    twice: after any sequence of [insert] calls on a new table with
    [initial_capacity] buckets, the table still has [initial_capacity]
    buckets, every key occurs at most once in its bucket, and every pair
    sits in the bucket [hash(key) % len(table)]. *)
Theorem chain_hash_table_shape {V : Type} (initial_capacity : nat)
    (kvs : list (Z * V)) (table : list (list (Z * V))) :
  ChainHashTable.insert_all (ChainHashTable.new_table initial_capacity) kvs = Some table →
  table_wf table ∧ length table = initial_capacity.
Proof.
  intros H. destruct (ChainHashTableShape.insert_all_wf _ _ _
                        (ChainHashTableShape.new_table_wf initial_capacity) H) as [Hwf Hl].
  split; [exact Hwf |]. rewrite Hl. apply length_replicate.
Qed.

Lemma chain_hash_table_shape_witness :
  ∃ table, ChainHashTable.insert_all (ChainHashTable.new_table 10)
             [(1, 100%nat); (11, 200%nat); (1, 300%nat)] = Some table ∧
           table_wf table ∧ length table = 10%nat.
Proof.
  eexists. split; [vm_compute; reflexivity |].
  apply (chain_hash_table_shape 10 [(1, 100%nat); (11, 200%nat); (1, 300%nat)]).
  vm_compute. reflexivity.
Defined.

(* ------------------------------------------------------------------ *)
(** ** Required trucks in [load_truck] *)

Lemma fields_like_lookup (D0 D : gmap Z Package) (k : Z) (q : Package) :
  fields_like D0 D → D !! k = Some q →
  ∃ p, D0 !! k = Some p ∧ id p = id q ∧ group p = group q ∧ req_truck p = req_truck q.
Proof.
  intros Hf Hq. specialize (Hf k). rewrite Hq in Hf.
  destruct (D0 !! k) as [p|]; [| discriminate]. simpl in Hf. injection Hf as E1 E2 E3.
  exists p. done.
Qed.

Lemma fields_like_lookup_inv (D0 D : gmap Z Package) (k : Z) (p : Package) :
  fields_like D0 D → D0 !! k = Some p →
  ∃ q, D !! k = Some q ∧ id p = id q ∧ group p = group q ∧ req_truck p = req_truck q.
Proof.
  intros Hf Hp. specialize (Hf k). rewrite Hp in Hf.
  destruct (D !! k) as [q|]; [| discriminate]. simpl in Hf. injection Hf as E1 E2 E3.
  exists q. done.
Qed.

(** The loading loops keep: the fields of [D0] in the directory, the
    truck's id, and [req_respected] on the manifest. *)
Lemma load_package_req (D0 : gmap Z Package) (t : Z) (tr : Truck) (w : World) (x : Z) tr' w' :
  fields_like D0 (my_hash_packages w) → truck_id tr = t →
  req_respected D0 t (packages tr) →
  (∀ q, my_hash_packages w !! x = Some q → group q = 0 →
        req_truck q = 0 ∨ req_truck q = t) →
  load_package tr w x = Some (tr', w') →
  fields_like D0 (my_hash_packages w') ∧ truck_id tr' = t ∧
  req_respected D0 t (packages tr').
Proof.
  intros Hf Ht Hreq Hx H. apply load_package_spec in H as ((Hid & _) & Hm & q & Hq & ->).
  split; [| split; [congruence |]].
  - intros k. simpl. destruct (decide (k = x)) as [-> | Hne].
    + rewrite lookup_insert_eq. rewrite <- Hf. unfold lookup_package in Hq. rewrite Hq. reflexivity.
    + rewrite lookup_insert_ne by congruence. apply Hf.
  - intros y p Hy Hp Hg. rewrite Hm in Hy. apply elem_of_app in Hy as [Hy | Hy].
    + exact (Hreq y p Hy Hp Hg).
    + apply list_elem_of_singleton in Hy as ->.
      destruct (fields_like_lookup_inv _ _ _ _ Hf Hp) as (q' & Hq' & _ & Eg & Er).
      rewrite Er. apply Hx; [exact Hq' | congruence].
Qed.

Lemma load_group_req (D0 : gmap Z Package) (t g : Z) (tr : Truck) (w : World) (l : list Z) tr' w' :
  g ≠ 0 →
  fields_like D0 (my_hash_packages w) → truck_id tr = t →
  req_respected D0 t (packages tr) →
  load_group g tr w l = Some (tr', w') →
  fields_like D0 (my_hash_packages w') ∧ truck_id tr' = t ∧
  req_respected D0 t (packages tr').
Proof.
  intros Hg. revert tr w. induction l as [| y l IH]; intros tr w Hf Ht Hreq; simpl.
  - intros [= <- <-]. done.
  - destruct (lookup_package w y) as [q|] eqn:Hq; [simpl | done].
    destruct (Z.eqb_spec (group q) g) as [Eg | _].
    + destruct (load_package tr w y) as [[tr1 w1]|] eqn:H1; [simpl | done].
      destruct (load_package_req D0 t tr w y tr1 w1 Hf Ht Hreq) as (Hf1 & Ht1 & Hr1);
        [| exact H1 |].
      * intros q' Hq' Hg0. unfold lookup_package in Hq. rewrite Hq in Hq'.
        injection Hq' as <-. congruence.
      * exact (IH tr1 w1 Hf1 Ht1 Hr1).
    + exact (IH tr w Hf Ht Hreq).
Qed.

Lemma load_priority_one_req (D0 : gmap Z Package) (t : Z) prio (tr : Truck) (w : World)
    (x : Z) tr' w' :
  fields_like D0 (my_hash_packages w) → truck_id tr = t →
  req_respected D0 t (packages tr) →
  load_priority_one prio tr w x = Some (tr', w') →
  fields_like D0 (my_hash_packages w') ∧ truck_id tr' = t ∧
  req_respected D0 t (packages tr').
Proof.
  intros Hf Ht Hreq. unfold load_priority_one.
  case_bool_decide; [intros [= <- <-]; done |].
  destruct (lookup_package w x) as [q|] eqn:Hq; [simpl | done].
  destruct (req_truck q =? truck_id tr) eqn:Er1; destruct (req_truck q =? 0) eqn:Er0; simpl;
    try (intros [= <- <-]; done);
  (destruct (Qle_bool _ _); [| intros [= <- <-]; done]);
  (destruct (Z.eqb_spec (group q) 0) as [Hg0 | Hg0];
   [ apply load_package_req; try done;
     intros q' Hq' _; unfold lookup_package in Hq; rewrite Hq in Hq'; injection Hq' as <-
   | destruct (group_count_dictionary w !! group q); [simpl | done];
     destruct (_ <=? 16); [apply load_group_req; done | intros [= <- <-]; done]]).
  all: first [left; by apply Z.eqb_eq | right; apply Z.eqb_eq in Er1; congruence].
Qed.

Lemma load_priority_loop_req (D0 : gmap Z Package) (t : Z) prio (tr : Truck) (w : World)
    (l : list Z) tr' w' :
  fields_like D0 (my_hash_packages w) → truck_id tr = t →
  req_respected D0 t (packages tr) →
  load_priority_loop prio tr w l = Some (tr', w') →
  fields_like D0 (my_hash_packages w') ∧ truck_id tr' = t ∧
  req_respected D0 t (packages tr').
Proof.
  revert tr w. induction l as [| y l IH]; intros tr w Hf Ht Hreq; simpl.
  - intros [= <- <-]. done.
  - destruct (Nat.eqb _ 16); [intros [= <- <-]; done |].
    destruct (load_priority_one prio tr w y) as [[tr1 w1]|] eqn:H1; [simpl | done].
    destruct (load_priority_one_req D0 t prio tr w y tr1 w1 Hf Ht Hreq H1) as (Hf1 & Ht1 & Hr1).
    exact (IH tr1 w1 Hf1 Ht1 Hr1).
Qed.

Lemma load_non_priority_loop_req (w0 : World) (tr : Truck) (w : World) (l : list Z) tr' w' :
  keys_ids w0 → nonprio_req0 w0 → l ⊆ non_priority_packages w0 →
  fields_like (my_hash_packages w0) (my_hash_packages w) →
  req_respected (my_hash_packages w0) (truck_id tr) (packages tr) →
  load_non_priority_loop tr w l = Some (tr', w') →
  truck_id tr' = truck_id tr ∧
  req_respected (my_hash_packages w0) (truck_id tr) (packages tr').
Proof.
  intros Hkeys Hnr. revert tr w. induction l as [| y l IH]; intros tr w Hsub Hf Hreq; simpl.
  - intros [= <- <-]. done.
  - destruct (Nat.eqb _ 16); [intros [= <- <-]; done |].
    destruct (lookup_package w y) as [q|] eqn:Hq; [simpl | done].
    assert (Hsub' : l ⊆ non_priority_packages w0).
    { intros z Hz. apply Hsub. by apply list_elem_of_further. }
    destruct (Qle_bool _ _); [| exact (IH tr w Hsub' Hf Hreq)].
    destruct (load_package tr w (id q)) as [[tr1 w1]|] eqn:H1; [simpl | done].
    unfold lookup_package in Hq.
    destruct (fields_like_lookup _ _ _ _ Hf Hq) as (p0 & Hp0 & Eid & _ & Er).
    pose proof (Hkeys y p0 Hp0) as Hid0. rewrite Hid0 in Eid. rewrite <- Eid in H1.
    destruct (load_package_req (my_hash_packages w0) (truck_id tr) tr w y tr1 w1 Hf eq_refl Hreq)
      as (Hf1 & Ht1 & Hr1); [| exact H1 |].
    + intros q' Hq' _. rewrite Hq in Hq'. injection Hq' as <-. left.
      rewrite <- Er. apply (Hnr y p0); [apply Hsub; apply list_elem_of_here | exact Hp0].
    + intros H. rewrite <- Ht1 in Hr1.
      destruct (IH tr1 w1 Hsub' Hf1 Hr1 H) as [Ht' Hr'].
      split; [congruence | rewrite Ht1 in Hr'; exact Hr'].
Qed.

Lemma load_truck_req_respected (tr : Truck) (w : World) tr' w' :
  keys_ids w → nonprio_req0 w → packages tr = [] →
  load_truck tr w = Some (tr', w') →
  req_respected (my_hash_packages w) (truck_id tr) (packages tr').
Proof.
  intros Hkeys Hnr Hm. unfold load_truck.
  destruct (load_priority_loop (priority_packages w) tr w (priority_packages w))
    as [[tr1 w1]|] eqn:H1; [simpl | done].
  intros H2.
  assert (Hf0 : fields_like (my_hash_packages w) (my_hash_packages w)) by (intros k; reflexivity).
  assert (Hr0 : req_respected (my_hash_packages w) (truck_id tr) (packages tr)).
  { rewrite Hm. intros x p Hx. by apply not_elem_of_nil in Hx. }
  destruct (load_priority_loop_req _ _ _ _ _ _ _ _ Hf0 eq_refl Hr0 H1) as (Hf1 & Ht1 & Hr1).
  rewrite <- Ht1 in Hr1.
  destruct (load_non_priority_loop_req w tr1 w1 _ _ _ Hkeys Hnr (reflexivity _) Hf1 Hr1 H2)
    as [_ Hr2].
  rewrite Ht1 in Hr2. exact Hr2.
Qed.

(** Extra X12: [load_truck] puts no package of group 0 on a truck other
    than the one it requires: when the table stores each package under
    its id and the non-priority list holds only packages needing no
    particular truck (as [load_package_data] builds them), every package
    of group 0 that [load_truck] loads on an empty truck has
    [req_truck] 0 or the id of that truck.  (The priority loop tests
    [req_truck]; the non-priority loop does not, and relies on the
    second condition.) *)
Theorem load_truck_required_truck (tr : Truck) (w : World) tr' w' :
  keys_ids w → nonprio_req0 w → packages tr = [] →
  load_truck tr w = Some (tr', w') →
  ∀ x p, x ∈ packages tr' → my_hash_packages w !! x = Some p → group p = 0 →
    req_truck p = 0 ∨ req_truck p = truck_id tr.
Proof. exact (load_truck_req_respected tr w tr' w'). Qed.

Lemma load_truck_required_truck_witness :
  ∃ tr' w',
    keys_ids leg_world ∧ nonprio_req0 leg_world ∧ packages (new_truck 1 28800) = [] ∧
    load_truck (new_truck 1 28800) leg_world = Some (tr', w') ∧
    ∀ x p, x ∈ packages tr' → my_hash_packages leg_world !! x = Some p → group p = 0 →
      req_truck p = 0 ∨ req_truck p = truck_id (new_truck 1 28800).
Proof.
  assert (Hkeys : keys_ids leg_world).
  { intros k p Hk. simpl in Hk.
    apply lookup_insert_Some in Hk as [[<- <-] | [_ Hk]]; [reflexivity |].
    by rewrite lookup_empty in Hk. }
  assert (Hnr : nonprio_req0 leg_world).
  { intros y p Hy Hp. simpl in Hy. apply list_elem_of_singleton in Hy as ->.
    simpl in Hp. rewrite lookup_insert_eq in Hp. injection Hp as <-. reflexivity. }
  destruct (load_truck (new_truck 1 28800) leg_world) as [[tr' w']|] eqn:Hl;
    [| vm_compute in Hl; discriminate].
  exists tr', w'. split; [exact Hkeys |]. split; [exact Hnr |].
  split; [reflexivity |]. split; [reflexivity |].
  exact (load_truck_required_truck (new_truck 1 28800) leg_world tr' w' Hkeys Hnr eq_refl Hl).
Defined.

(* ------------------------------------------------------------------ *)
(** ** The package-id prompt of option 2 *)

Lemma package_id_prompt_as_read_in_range (num_packages user_package_id : Z)
    (answers : list (option Z)) :
  package_id_prompt num_packages user_package_id answers =
  option_map fst (read_in_range 1 (num_packages + 1) user_package_id answers).
Proof.
  revert user_package_id. induction answers as [| a answers IH]; intros v;
    simpl; rewrite orb_comm; destruct (_ || _); try reflexivity.
  apply IH.
Qed.

(** Extra X13: the package-id prompt of option 2 accepts the first
    answer that is an integer from 1 to [num_packages + 1] (one more than
    the prompt announces), skipping every earlier answer; it never
    accepts anything else. *)
Theorem read_package_id_spec (num_packages : Z) (answers : list (option Z)) (v : Z) :
  read_package_id num_packages answers = Some v ↔
  ∃ pre rest, answers = pre ++ Some v :: rest ∧
    rejected 1 (num_packages + 1) pre ∧ 1 <= v <= num_packages + 1.
Proof.
  unfold read_package_id. rewrite package_id_prompt_as_read_in_range. split.
  - destruct (read_in_range 1 (num_packages + 1) 0 answers) as [[v' rest]|] eqn:E;
      [simpl | intros [=]].
    intros [= ->]. apply read_in_range_spec in E as (pre & -> & Hrej & Hv); [| lia].
    exists pre, rest. done.
  - intros (pre & rest & Heq & Hrej & Hv).
    assert (E : read_in_range 1 (num_packages + 1) 0 answers = Some (v, rest))
      by (apply read_in_range_spec; [lia | exists pre; done]).
    rewrite E. reflexivity.
Qed.

(* ------------------------------------------------------------------ *)
(** ** A package no truck of the list may carry *)

Lemma stuck_inv_step (x r : Z) (c c' : Config) :
  r ≠ 0 → run_inv c → stuck_inv x r c → run_step c = Some c' → stuck_inv x r c'.
Proof.
  intros Hr0 Hinv (HxP & (p & Hp & Hg & Hreq) & Hnr & Hab & Hids).
  pose proof Hinv as (Hok & Htr & _ & _ & _).
  destruct Hok as (Hkeys & Hng & Hgb & _).
  destruct c as [w d ph todo]. unfold run_step.
  cbn [cfg_world cfg_done cfg_todo cfg_phase fleet] in *.
  unfold fleet in Hids. cbn [cfg_done cfg_todo cfg_phase] in Hids.
  destruct ph as [| | tr |].
  - destruct (pools_empty w); intros [= <-]; unfold stuck_inv, fleet; cbn;
      (split; [exact HxP |]); (split; [by exists p |]); (split; [exact Hnr |]);
      (split; [intros tr [=] |]); intros tr Ht; apply Hids;
      rewrite ?app_nil_r in Ht; apply elem_of_app; by left.
  - destruct todo as [| tr rest].
    + intros [= <-]. unfold stuck_inv, fleet; cbn.
      split; [exact HxP |]. split; [by exists p |]. split; [exact Hnr |].
      split; [intros tr [=] | exact Hids].
    + destruct (load_truck tr w) as [[tr1 w1]|] eqn:Hl; [simpl | done].
      intros [= <-].
      assert (Hm : packages tr = []).
      { apply (Htr tr). apply elem_of_app. right. apply list_elem_of_here. }
      assert (Hid : truck_id tr ≠ r).
      { apply Hids. apply elem_of_app. right. apply list_elem_of_here. }
      destruct (load_truck_inv w tr tr1 w1 Hkeys Hng Hgb Hm Hl) as (Hpo & _).
      pose proof Hpo as (HP1 & HN1 & _).
      pose proof (load_truck_same_position _ _ _ _ Hl) as (Hid1 & _).
      unfold stuck_inv, fleet; cbn.
      split; [rewrite HP1; exact HxP |].
      split.
      { destruct (pickups_only_lookup_inv _ _ _ _ _ Hpo Hp) as (p' & Hp' & Ep').
        exists p'. split; [exact Hp' |]. destruct Ep' as [-> | ->]; done. }
      split.
      { intros y q' Hy Hq'. rewrite HN1 in Hy.
        destruct (pickups_only_lookup _ _ _ _ _ Hpo Hq') as (q & Hq & [-> | ->]);
          exact (Hnr y q Hy Hq). }
      split.
      { intros tr' [= <-] Hx.
        destruct (load_truck_req_respected tr w tr1 w1 Hkeys Hnr Hm Hl x p Hx Hp Hg)
          as [H | H]; [congruence |]. apply Hid. congruence. }
      intros t Ht. apply elem_of_app in Ht as [Ht | Ht].
      * apply Hids. apply elem_of_app. by left.
      * apply elem_of_cons in Ht as [-> | Ht]; [congruence |].
        apply Hids. apply elem_of_app. right. by apply list_elem_of_further.
  - assert (Hxtr : x ∉ packages tr) by exact (Hab tr eq_refl).
    destruct (packages tr) as [| y ys] eqn:Hm.
    + destruct (return_to_hub tr w) as [tr1|] eqn:Hh; [simpl | done].
      intros [= <-]. apply return_to_hub_spec in Hh as (dd & ->).
      unfold stuck_inv, fleet; cbn.
      split; [exact HxP |]. split; [by exists p |]. split; [exact Hnr |].
      split; [intros tr' [=] |].
      intros t Ht. rewrite <- app_assoc in Ht. apply elem_of_app in Ht as [Ht | Ht].
      * apply Hids. apply elem_of_app. by left.
      * apply elem_of_cons in Ht as [-> | Ht].
        -- simpl. apply Hids. apply elem_of_app. right. apply list_elem_of_here.
        -- apply Hids. apply elem_of_app. right. by apply list_elem_of_further.
    + destruct (find_shortest_distance tr w) as [x0|]; [simpl | done].
      destruct (deliver_package tr (remove_from_pools w x0) x0) as [[tr1 w1]|] eqn:Hdel;
        [simpl | done].
      intros [= <-].
      apply deliver_package_spec in Hdel as (p0 & dd & Hp0 & -> & _ & Hx0 & ->).
      assert (Hne : x ≠ x0) by (intros ->; rewrite Hm in Hx0; exact (Hxtr Hx0)).
      pose proof (remove_from_pools_spec w x0) as (HD & _ & _ & _ & HNsub & HPkeep & _).
      unfold lookup_package in Hp0. rewrite HD in Hp0.
      unfold stuck_inv, fleet, set_package; cbn.
      split; [exact (HPkeep x HxP Hne) |].
      split; [exists p; rewrite lookup_insert_ne by congruence; rewrite HD; done |].
      split.
      { intros y' q Hy Hq. simpl in Hy, Hq. pose proof (elem_of_sublist _ _ _ Hy HNsub) as Hy0.
        destruct (decide (y' = x0)) as [-> | Hne'].
        - rewrite lookup_insert_eq in Hq. injection Hq as <-. simpl.
          exact (Hnr x0 p0 Hy0 Hp0).
        - rewrite lookup_insert_ne in Hq by congruence. rewrite HD in Hq.
          exact (Hnr y' q Hy0 Hq). }
      split.
      { intros tr' [= <-]. simpl. intros Hx. apply Hxtr. rewrite <- Hm.
        exact (remove_first_elem _ _ _ Hx). }
      intros t Ht. apply elem_of_app in Ht as [Ht | Ht].
      * apply Hids. apply elem_of_app. by left.
      * apply elem_of_cons in Ht as [-> | Ht].
        -- simpl. apply Hids. apply elem_of_app. right. apply list_elem_of_here.
        -- apply Hids. apply elem_of_app. right. by apply list_elem_of_further.
  - done.
Qed.

Lemma stuck_inv_reaches (x r : Z) (c c' : Config) :
  r ≠ 0 → run_inv c → stuck_inv x r c → run_reaches c c' → stuck_inv x r c'.
Proof.
  intros Hr0 Hinv Hs Hreach. revert Hinv Hs.
  induction Hreach as [c | c c1 c' Hstep _ IH]; intros Hinv Hs; [exact Hs |].
  apply IH; [exact (run_step_inv _ _ Hinv Hstep) | exact (stuck_inv_step _ _ _ _ Hr0 Hinv Hs Hstep)].
Qed.

(** Extra X14: [route_packages] never returns while a package cannot
    be carried: if a pending priority package of group 0 requires a
    truck ([req_truck <> 0]) that is not in the truck list (main.py
    creates [truck_3] but leaves it out of [truck_list]), no run of
    [route_packages] on globals as [load_package_data] builds them
    reaches its end: the package is never loaded, so the outer [while]
    never sees both pools empty. *)
Theorem route_packages_never_returns (w : World) (trucks : list Truck) (x : Z) (p : Package)
    (c : Config) :
  route_ready w trucks → nonprio_req0 w →
  x ∈ priority_packages w → my_hash_packages w !! x = Some p →
  group p = 0 → req_truck p ≠ 0 →
  (∀ tr, tr ∈ trucks → truck_id tr ≠ req_truck p) →
  run_reaches (route_start w trucks) c → cfg_phase c ≠ Finished.
Proof.
  intros Hready Hnr HxP Hp Hg Hr0 Hids Hreach Hfin.
  assert (H0 : stuck_inv x (req_truck p) (route_start w trucks)).
  { unfold stuck_inv, fleet, route_start; cbn.
    split; [exact HxP |]. split; [by exists p |]. split; [exact Hnr |].
    split; [intros tr [=] |]. rewrite app_nil_r. exact Hids. }
  destruct (stuck_inv_reaches _ _ _ _ Hr0 (run_inv_start _ _ Hready) H0 Hreach)
    as (HxP' & _).
  pose proof (route_reaches_inv _ _ _ Hready Hreach) as (_ & _ & _ & _ & Hph).
  rewrite Hfin in Hph. destruct Hph as [HP _]. rewrite HP in HxP'.
  by apply not_elem_of_nil in HxP'.
Qed.

Lemma stuck_world_ready : route_ready stuck_world ex_trucks.
Proof.
  split; [split; [| split; [| split; [| split; [| split; [| split]]]]] | split].
  - intros k p Hk. simpl in Hk.
    apply lookup_insert_Some in Hk as [[<- <-] | [_ Hk]]; [reflexivity |].
    by rewrite lookup_empty in Hk.
  - intros y p Hy. simpl in Hy. by apply not_elem_of_nil in Hy.
  - intros g count Hg Hc. simpl in Hc. by rewrite lookup_empty in Hc.
  - intros loc Hloc dd Hd.
    assert (H : Forall (λ loc, Forall (λ d, Qle_bool 0 d = true) (distances loc))
                       (locations stuck_world)) by (repeat constructor).
    rewrite Forall_forall in H. specialize (H loc Hloc).
    rewrite Forall_forall in H. apply Qle_bool_iff. exact (H dd Hd).
  - apply NoDup_singleton.
  - constructor.
  - intros x _ HxN. simpl in HxN. by apply not_elem_of_nil in HxN.
  - intros k p Hk. left. simpl in Hk |- *.
    apply lookup_insert_Some in Hk as [[<- _] | [_ Hk]]; [by apply list_elem_of_here |].
    by rewrite lookup_empty in Hk.
  - intros tr Htr. unfold ex_trucks in Htr.
    apply elem_of_cons in Htr as [-> | Htr];
      [| apply elem_of_cons in Htr as [-> | Htr]; [| by apply not_elem_of_nil in Htr]];
      (split; [reflexivity | vm_compute; reflexivity]).
Qed.

Lemma route_packages_never_returns_witness :
  ∃ c p,
    route_ready stuck_world ex_trucks ∧ nonprio_req0 stuck_world ∧
    1 ∈ priority_packages stuck_world ∧ my_hash_packages stuck_world !! 1 = Some p ∧
    group p = 0 ∧ req_truck p ≠ 0 ∧
    (∀ tr, tr ∈ ex_trucks → truck_id tr ≠ req_truck p) ∧
    run_reaches (route_start stuck_world ex_trucks) c ∧ cfg_phase c ≠ Finished.
Proof.
  destruct (run_steps 8 (route_start stuck_world ex_trucks)) as [c|] eqn:Hc;
    [| vm_compute in Hc; discriminate].
  pose proof (run_steps_reaches _ _ _ Hc) as Hreach.
  assert (Hnr : nonprio_req0 stuck_world).
  { intros y q Hy. simpl in Hy. by apply not_elem_of_nil in Hy. }
  assert (Hx : 1 ∈ priority_packages stuck_world) by (simpl; apply list_elem_of_here).
  assert (Hp : my_hash_packages stuck_world !! 1 = Some (mkPackage 1 0 3 28800 0 0 86399 1))
    by (simpl; apply lookup_insert_eq).
  assert (Hids : ∀ tr, tr ∈ ex_trucks → truck_id tr ≠ req_truck (mkPackage 1 0 3 28800 0 0 86399 1)).
  { intros tr Htr. unfold ex_trucks in Htr.
    apply elem_of_cons in Htr as [-> | Htr];
      [| apply elem_of_cons in Htr as [-> | Htr]; [| by apply not_elem_of_nil in Htr]];
      simpl; lia. }
  exists c, (mkPackage 1 0 3 28800 0 0 86399 1).
  do 8 (split; [first [exact stuck_world_ready | exact Hnr | exact Hx | exact Hp
                      | reflexivity | simpl; lia | exact Hids | exact Hreach] |]).
  exact (route_packages_never_returns stuck_world ex_trucks 1 _ c stuck_world_ready Hnr Hx Hp
           eq_refl ltac:(simpl; lia) Hids Hreach).
Defined.

(* ------------------------------------------------------------------ *)
(** ** Timestamps after a complete run *)

(** Extra X15: what the code does guarantee on the timestamps once
    [route_packages] has returned (on globals as [load_package_data]
    builds them, trucks empty with a positive rate, distances
    non-negative): every package has [time_pickup <= time_delivered],
    and a package of group 0 also has [time_available <= time_pickup].
    Nothing orders [time_available] and [time_pickup] for a package of
    a non-zero group, which the group branch of [load_truck] loads
    without the availability test. *)
Theorem route_packages_timestamps_ordered (w : World) (trucks : list Truck) (c : Config) :
  route_ready w trucks →
  run_reaches (route_start w trucks) c →
  cfg_phase c = Finished →
  ∀ k p, my_hash_packages (cfg_world c) !! k = Some p →
    (time_pickup p <= time_delivered p)%Q ∧
    (group p = 0 → (time_available p <= time_pickup p)%Q).
Proof.
  intros Hr Hreach Hfin k p Hk.
  destruct (route_reaches_inv _ _ _ Hr Hreach) as (_ & _ & Hch & _ & Hph).
  rewrite Hfin in Hph. destruct Hph as [HP HN].
  apply (Hch k p Hk); [rewrite HP | rewrite HN]; apply not_elem_of_nil.
Qed.

Lemma route_packages_timestamps_ordered_witness :
  ∃ c p,
    run_reaches (route_start group_world ex_trucks) c ∧ cfg_phase c = Finished ∧
    my_hash_packages (cfg_world c) !! 2 = Some p ∧
    (time_pickup p <= time_delivered p)%Q.
Proof.
  destruct (run_steps 9 (route_start group_world ex_trucks)) as [c|] eqn:Hc;
    [| vm_compute in Hc; discriminate].
  pose proof Hc as Hc'. vm_compute in Hc'. injection Hc' as <-.
  pose proof (run_steps_reaches _ _ _ Hc) as Hreach.
  eexists _, _. split; [exact Hreach |]. split; [reflexivity |].
  split; [vm_compute; reflexivity |].
  exact (proj1 (route_packages_timestamps_ordered group_world ex_trucks _
                  group_world_ready Hreach eq_refl 2 _ ltac:(vm_compute; reflexivity))).
Defined.
